(** * Weisfeiler-Lehman colour refinement ([src/services/wlAlgorithm.ts])

    A shallow embedding of [runWLAlgorithm] and of its helpers
    [getAdjacencyList], [areCountsEqual], [processStep] and [generateSig],
    followed by the properties of the refinement sequence.

    Conventions of the embedding:
    - a JavaScript [number] that holds an integer is a [Z];
    - [Map<string, T>] and [Record<string, T>] are [gmap string T];
    - [Array.forEach] with mutable accumulators is a left fold ([foldl])
      threading the accumulators, in the order of the array;
    - the mutable closure variable [globalLabelCounter] is threaded
      explicitly through [processStep];
    - the non-null assertion [m.get(x)!] is the total lookup [m !!! x]; the
      lookups of the algorithm are shown to be defined. *)

From stdpp Require Import gmap strings list fin_maps pretty sorting.
From Stdlib Require Import ZArith Ascii SpecFloat.

Local Open Scope Z_scope.

(** ** JavaScript primitives used by the algorithm *)

(** [Number.prototype.toString] and template-literal interpolation of an
    integer: its decimal numeral.  JavaScript prints the full numeral of
    every safe integer (below 2^53 in absolute value), the range in which a
    [number] holds the integers exactly and which the embedding covers. *)
Definition toString (n : Z) : string := pretty n.

(** Value of a decimal digit. *)
Definition digit_of (c : ascii) : option Z :=
  let n := Z.of_nat (nat_of_ascii c) in
  if (48 <=? n) && (n <=? 57) then Some (n - 48) else None.

(** The digits at the head of [s], read left to right; [acc] is the value
    read so far ([None] while no digit was seen). *)
Fixpoint parse_digits (s : string) (acc : option Z) : option Z :=
  match s with
  | String c s' =>
      match digit_of c with
      | Some d => parse_digits s' (Some (10 * default 0 acc + d))
      | None => acc
      end
  | EmptyString => acc
  end.

(** [parseInt(s)]: an optional sign and the longest decimal prefix; [None]
    is [NaN].  (The arguments here are numerals printed by [toString]; white
    space and the hexadecimal prefix, which [parseInt] also accepts, do not
    occur in them.) *)
Definition parseInt (s : string) : option Z :=
  match s with
  | String "-"%char s' => Z.opp <$> parse_digits s' None
  | String "+"%char s' => parse_digits s' None
  | _ => parse_digits s None
  end.

(** Subtraction of two numbers, [None] being [NaN]. *)
Definition num_sub (a b : option Z) : option Z :=
  match a, b with
  | Some x, Some y => Some (x - y)
  | _, _ => None
  end.

(** [Array.prototype.sort(cmp)] is a stable sort; [a] stays before [b]
    unless [cmp(a, b) > 0] (a [NaN] result counts as [0]). *)
Section Array_sort.
Context {A : Type}.

Definition cmp_le (cmp : A → A → option Z) (a b : A) : bool :=
  match cmp a b with
  | Some v => v <=? 0
  | None => true
  end.

Fixpoint sort_insert (le : A → A → bool) (x : A) (l : list A) : list A :=
  match l with
  | [] => [x]
  | y :: l' => if le x y then x :: y :: l' else y :: sort_insert le x l'
  end.

Definition sort_with (le : A → A → bool) (l : list A) : list A :=
  foldr (sort_insert le) [] l.

Definition Array_sort (cmp : A → A → option Z) (l : list A) : list A :=
  sort_with (cmp_le cmp) l.
End Array_sort.

(** [sort()] without a comparator on an array of strings: ascending order of
    the code units. *)
Definition Array_sort_default (l : list string) : list string :=
  sort_with String.leb l.

(** [Array.from(new Set(l))]: the distinct elements of [l], each at the
    place of its first occurrence. *)
Definition Set_add `{EqDecision A} (s : list A) (x : A) : list A :=
  if decide (x ∈ s) then s else s ++ [x].

Definition Array_from_Set `{EqDecision A} (l : list A) : list A :=
  foldl Set_add [] l.

(** [l.join(sep)] *)
Definition join (sep : string) (l : list string) : string :=
  String.concat sep l.

(** [Object.keys(c)] for a record whose keys are canonical numerals: the
    keys in ascending numeric order. *)
Definition Object_keys {V} (c : gmap string V) : list string :=
  Array_sort (λ a b, num_sub (parseInt a) (parseInt b)) (map_to_list c).*1.

(** ** Data model ([src/types.ts]) *)

(** [Node]; the optional layout coordinates [x], [y] play no part in the
    algorithm. *)
Record Node := { node_id : string; originalLabel : Z }.

Record Link := { source : string; target : string }.

Record GraphData := { nodes : list Node; links : list Link }.

(** The colour of a label is computed by [getColorForLabel]
    ([src/constants.ts]) with floating-point arithmetic; it is display data
    derived from the label alone and is kept symbolic here. *)
Inductive Color := ColorOf (label : string).

Definition getColorForLabel (label : string) : Color := ColorOf label.

Record ExpandedSignature := { self : string; neighbors : list string }.

Record WLStepNodeData := {
  nd_id : string;
  nd_label : string;
  nd_originalLabel : Z;
  nd_color : Color;
  nd_neighbors : list string;
  nd_signature : string;
  nd_expandedSignature : ExpandedSignature
}.

Record HashMapping := {
  hm_signature : string;
  hm_label : string;
  hm_color : Color
}.

Record WLStep := {
  k : Z;
  nodeDataA : gmap string WLStepNodeData;
  nodeDataB : gmap string WLStepNodeData;
  labelCountsA : gmap string Z;
  labelCountsB : gmap string Z;
  uniqueLabels : list string;
  mappings : list HashMapping;
  isIsomorphicCandidate : bool
}.

Record SimulationResult := { steps : list WLStep; maxK : Z }.

#[global] Instance Node_eq_dec : EqDecision Node.
Proof. solve_decision. Defined.
#[global] Instance Link_eq_dec : EqDecision Link.
Proof. solve_decision. Defined.

(** ** The algorithm ([src/services/wlAlgorithm.ts]) *)

(** [getAdjacencyList]: every node starts with an empty neighbour array; a
    link whose two ends are keys of the map pushes each end on the array of
    the other. *)
Definition addLink (adj : gmap string (list string)) (l : Link)
    : gmap string (list string) :=
  if decide (is_Some (adj !! source l) ∧ is_Some (adj !! target l)) then
    alter (λ ns, ns ++ [source l]) (target l)
      (alter (λ ns, ns ++ [target l]) (source l) adj)
  else adj.

Definition getAdjacencyList (nodes : list Node) (links : list Link)
    : gmap string (list string) :=
  let adj := foldl (λ adj n, <[node_id n := []]> adj) ∅ nodes in
  foldl addLink adj links.

(** [areCountsEqual]: same number of keys, and every key of [c1] has the
    same value in [c2] ([c2[k]] is [undefined], here [None], for a key that
    [c2] lacks). *)
Definition areCountsEqual (c1 c2 : gmap string Z) : bool :=
  let keys1 := Object_keys c1 in
  let keys2 := Object_keys c2 in
  if negb (length keys1 =? length keys2)%nat then false
  else forallb (λ k, bool_decide (c1 !! k = c2 !! k)) keys1.

Inductive GraphTag := GA | GB.

#[global] Instance GraphTag_eq_dec : EqDecision GraphTag.
Proof. solve_decision. Defined.

(** The local interface [NodeSig] of [processStep]. *)
Record NodeSig := {
  ns_graph : GraphTag;
  ns_id : string;
  ns_signature : string;
  ns_expanded : ExpandedSignature
}.

(** What [processStep] returns, with the value of [globalLabelCounter] after
    the call. *)
Record StepResult := {
  step : WLStep;
  nextLabelsA : gmap string string;
  nextLabelsB : gmap string string;
  counterAfter : Z
}.

(** The six accumulators filled by the last loop of [processStep]. *)
Record StepAcc := {
  nextLabsA : gmap string string;
  nextLabsB : gmap string string;
  accNodeDataA : gmap string WLStepNodeData;
  accNodeDataB : gmap string WLStepNodeData;
  countsA : gmap string Z;
  countsB : gmap string Z
}.

(** [counts[l] = (counts[l] || 0) + 1] *)
Definition bump (counts : gmap string Z) (l : string) : gmap string Z :=
  <[l := default 0 (counts !! l) + 1]> counts.

(** Numeric comparator [(a, b) => parseInt(a) - parseInt(b)]. *)
Definition byParseInt (a b : string) : option Z :=
  num_sub (parseInt a) (parseInt b).

Section processStep.
(** The variables of [runWLAlgorithm] that the closure [processStep]
    reads. *)
Variables (graphA graphB : GraphData).
Variables (adjA adjB : gmap string (list string)).
Variable sortedInitLabels : list Z.
Variable initLabelMap : gmap Z string.

(** Signature record of one node (the body of the [forEach] of
    [generateSig]). *)
Definition nodeSig (k : Z) (adj : gmap string (list string))
    (prevLabs : gmap string string) (graphType : GraphTag) (node : Node)
    : NodeSig :=
  if k =? 0 then
    {| ns_graph := graphType;
       ns_id := node_id node;
       ns_signature := "[" +:+ toString (originalLabel node) +:+ "]";
       ns_expanded := {| self := toString (originalLabel node);
                         neighbors := [] |} |}
  else
    let myPrevLabel := prevLabs !!! node_id node in
    let neighborIds := default [] (adj !! node_id node) in
    let neighborLabels :=
      Array_sort byParseInt ((λ nid, prevLabs !!! nid) <$> neighborIds) in
    let signature :=
      "(" +:+ myPrevLabel +:+ ",[" +:+ join "," neighborLabels +:+ "])" in
    {| ns_graph := graphType;
       ns_id := node_id node;
       ns_signature := signature;
       ns_expanded := {| self := myPrevLabel;
                         neighbors := neighborLabels |} |}.

(** [generateSig]: the records it pushes on [allSigs]. *)
Definition generateSig (k : Z) (gNodes : list Node)
    (adj : gmap string (list string)) (prevLabs : gmap string string)
    (graphType : GraphTag) : list NodeSig :=
  nodeSig k adj prevLabs graphType <$> gNodes.

(** Body of [uniqueSignatures.forEach]: nothing at [k = 0], otherwise a
    fresh identifier for [sig]. *)
Definition mint (k : Z)
    (st : gmap string string * list HashMapping * Z) (sig : string)
    : gmap string string * list HashMapping * Z :=
  let '(stepMapping, mappingList, counter) := st in
  if k =? 0 then st
  else
    let counter := counter + 1 in
    let newId := toString counter in
    (<[sig := newId]> stepMapping,
     mappingList ++ [{| hm_signature := sig; hm_label := newId;
                        hm_color := getColorForLabel newId |}],
     counter).

(** Body of [sortedInitLabels.forEach] in the [k = 0] block. *)
Definition addInitial
    (st : gmap string string * list HashMapping) (val : Z)
    : gmap string string * list HashMapping :=
  let '(stepMapping, mappingList) := st in
  let id := initLabelMap !!! val in
  (<["[" +:+ toString val +:+ "]" := id]> stepMapping,
   mappingList ++ [{| hm_signature := "Initial: " +:+ toString val;
                      hm_label := id;
                      hm_color := getColorForLabel id |}]).

(** Body of [allSigs.forEach]. *)
Definition record (stepMapping : gmap string string) (acc : StepAcc)
    (item : NodeSig) : StepAcc :=
  let newLabel := stepMapping !!! ns_signature item in
  let nodeData :=
    {| nd_id := ns_id item;
       nd_originalLabel := 0;
       nd_label := newLabel;
       nd_color := getColorForLabel newLabel;
       nd_neighbors := [];
       nd_signature := ns_signature item;
       nd_expandedSignature := ns_expanded item |} in
  match ns_graph item with
  | GA =>
      {| nextLabsA := <[ns_id item := newLabel]> (nextLabsA acc);
         nextLabsB := nextLabsB acc;
         accNodeDataA := <[ns_id item := nodeData]> (accNodeDataA acc);
         accNodeDataB := accNodeDataB acc;
         countsA := bump (countsA acc) newLabel;
         countsB := countsB acc |}
  | GB =>
      {| nextLabsA := nextLabsA acc;
         nextLabsB := <[ns_id item := newLabel]> (nextLabsB acc);
         accNodeDataA := accNodeDataA acc;
         accNodeDataB := <[ns_id item := nodeData]> (accNodeDataB acc);
         countsA := countsA acc;
         countsB := bump (countsB acc) newLabel |}
  end.

Definition emptyAcc : StepAcc :=
  {| nextLabsA := ∅; nextLabsB := ∅; accNodeDataA := ∅;
     accNodeDataB := ∅; countsA := ∅; countsB := ∅ |}.

(** [processStep]; [labelsA] and [labelsB] are parameters that its body
    never reads. *)
Definition processStep (k : Z) (globalLabelCounter : Z)
    (labelsA labelsB prevLabelsA prevLabelsB : gmap string string)
    : StepResult :=
  let allSigs :=
    generateSig k (nodes graphA) adjA prevLabelsA GA
    ++ generateSig k (nodes graphB) adjB prevLabelsB GB in
  let uniqueSignatures :=
    Array_sort_default (Array_from_Set (ns_signature <$> allSigs)) in
  let '(stepMapping, mappingList, counter) :=
    foldl (mint k) (∅, [], globalLabelCounter) uniqueSignatures in
  let '(stepMapping, mappingList) :=
    if k =? 0 then foldl addInitial (stepMapping, mappingList) sortedInitLabels
    else (stepMapping, mappingList) in
  let acc := foldl (record stepMapping) emptyAcc allSigs in
  let uniqueLabels :=
    Array_sort byParseInt
      (Array_from_Set (Object_keys (countsA acc) ++ Object_keys (countsB acc))) in
  {| step :=
       {| k := k;
          nodeDataA := accNodeDataA acc;
          nodeDataB := accNodeDataB acc;
          labelCountsA := countsA acc;
          labelCountsB := countsB acc;
          uniqueLabels := uniqueLabels;
          mappings := mappingList;
          isIsomorphicCandidate := areCountsEqual (countsA acc) (countsB acc) |};
     nextLabelsA := nextLabsA acc;
     nextLabelsB := nextLabsB acc;
     counterAfter := counter |}.

(** State of the loop [for (k = 1; k <= maxK; k++)]. *)
Record LoopState := {
  ls_steps : list WLStep;
  currentLabelsA : gmap string string;
  currentLabelsB : gmap string string;
  globalLabelCounter : Z
}.

(** One iteration: the snapshots [prevA], [prevB] are copies of the current
    maps. *)
Definition loopBody (st : LoopState) (k : Z) : LoopState :=
  let prevA := currentLabelsA st in
  let prevB := currentLabelsB st in
  let res := processStep k (globalLabelCounter st)
               (currentLabelsA st) (currentLabelsB st) prevA prevB in
  {| ls_steps := ls_steps st ++ [step res];
     currentLabelsA := nextLabelsA res;
     currentLabelsB := nextLabelsB res;
     globalLabelCounter := counterAfter res |}.
End processStep.

(** Body of [sortedInitLabels.forEach] in the initialisation phase. *)
Definition initLabel (st : gmap Z string * Z) (val : Z) : gmap Z string * Z :=
  let '(initLabelMap, counter) := st in
  let counter := counter + 1 in
  (<[val := toString counter]> initLabelMap, counter).

(** Body of [nodes.forEach] in "Apply Initial Labels". *)
Definition applyInitial (initLabelMap : gmap Z string)
    (labels : gmap string string) (n : Node) : gmap string string :=
  <[node_id n := initLabelMap !!! originalLabel n]> labels.

Section runWLAlgorithm.
Variables (graphA graphB : GraphData).

Definition adjA := getAdjacencyList (nodes graphA) (links graphA).
Definition adjB := getAdjacencyList (nodes graphB) (links graphB).

Definition allInitialValues : list Z :=
  Array_from_Set
    ((originalLabel <$> nodes graphA) ++ (originalLabel <$> nodes graphB)).

Definition sortedInitLabels : list Z :=
  Array_sort (λ a b, Some (a - b)) allInitialValues.

(** [initLabelMap] and [globalLabelCounter] after the initialisation. *)
Definition initPhase : gmap Z string * Z :=
  foldl initLabel (∅, 0) sortedInitLabels.

Definition initLabelMap : gmap Z string := initPhase.1.

Definition initialLabelsA : gmap string string :=
  foldl (applyInitial initLabelMap) ∅ (nodes graphA).
Definition initialLabelsB : gmap string string :=
  foldl (applyInitial initLabelMap) ∅ (nodes graphB).

(** The closure [processStep] of this call. *)
Definition processStepOf :=
  processStep graphA graphB adjA adjB sortedInitLabels initLabelMap.

(** Step 0; its [nextLabels] are not used, the current labels stay the
    initial ones. *)
Definition result0 : StepResult :=
  processStepOf 0 initPhase.2
    initialLabelsA initialLabelsB initialLabelsA initialLabelsB.

Definition afterStep0 : LoopState :=
  {| ls_steps := [step result0];
     currentLabelsA := initialLabelsA;
     currentLabelsB := initialLabelsB;
     globalLabelCounter := counterAfter result0 |}.

Definition iteration : LoopState → Z → LoopState :=
  loopBody graphA graphB adjA adjB sortedInitLabels initLabelMap.

(** The loop [for (let k = 1; k <= maxK; k++)]. *)
Definition runLoop (maxK : Z) : LoopState :=
  foldl iteration afterStep0 (seqZ 1 maxK).

Definition runWLAlgorithm (maxK : Z) : SimulationResult :=
  {| steps := ls_steps (runLoop maxK); maxK := maxK |}.
End runWLAlgorithm.

(** How a call completes: it returns a value or throws.  The source has no
    [throw] and calls nothing that throws, so [runWLAlgorithm] always
    returns. *)
Inductive Completion (A : Type) :=
  | Returns (a : A)
  | Throws (error : string).
Arguments Returns {A} a.
Arguments Throws {A} error.

Definition call_runWLAlgorithm (graphA graphB : GraphData) (maxK : Z)
    : Completion SimulationResult :=
  Returns (runWLAlgorithm graphA graphB maxK).

(** ** The scenario "C6 vs 2xC3" ([createCycle] in the scenario file) *)

Definition createCycle (n : nat) (prefix : string) (label : Z) : GraphData :=
  {| nodes := (λ i, {| node_id := prefix +:+ toString (Z.of_nat i);
                       originalLabel := label |}) <$> seq 0 n;
     links := (λ i, {| source := prefix +:+ toString (Z.of_nat i);
                       target := prefix +:+ toString (Z.of_nat ((i + 1) mod n)) |})
              <$> seq 0 n |}.

Definition cyclesA : GraphData := createCycle 6 "A_C6_" 1.

Definition cyclesB : GraphData :=
  let gB1 := createCycle 3 "B_C3a_" 1 in
  let gB2 := createCycle 3 "B_C3b_" 1 in
  {| nodes := nodes gB1 ++ nodes gB2; links := links gB1 ++ links gB2 |}.

(** ** The other generators and the scenarios (scenario file) *)

(** The template literal [`${prefix}${i}`] for an index [i]. *)
Definition indexed (prefix : string) (i : nat) : string :=
  prefix +:+ toString (Z.of_nat i).

(** [createGrid]: the cells in row-major order; a cell pushes the link to
    the cell below, then the link to the cell on its right. *)
Definition gridId (prefix : string) (r c : nat) : string :=
  prefix +:+ "_r" +:+ toString (Z.of_nat r) +:+ "c" +:+ toString (Z.of_nat c).

Definition createGrid (rows cols : nat) (prefix : string) : GraphData :=
  let cells := r ← seq 0 rows; c ← seq 0 cols; [(r, c)] in
  {| nodes := (λ '(r, c), {| node_id := gridId prefix r c;
                             originalLabel := (Z.of_nat (r + c)) `mod` 2 + 1 |})
              <$> cells;
     links := '(r, c) ← cells;
              (if Z.of_nat r <? Z.of_nat rows - 1
               then [{| source := gridId prefix r c;
                        target := gridId prefix (r + 1) c |}]
               else [])
              ++ (if Z.of_nat c <? Z.of_nat cols - 1
                  then [{| source := gridId prefix r c;
                           target := gridId prefix r (c + 1) |}]
                  else []) |}.

(** [createPetersenGraph]: outer cycle, inner star, spokes. *)
Definition createPetersenGraph (prefix : string) : GraphData :=
  {| nodes := (λ i, {| node_id := indexed prefix i;
                       originalLabel := if (i <? 5)%nat then 1 else 2 |})
              <$> seq 0 10;
     links :=
       ((λ i, {| source := indexed prefix i;
                 target := indexed prefix ((i + 1) mod 5) |}) <$> seq 0 5)
       ++ ((λ i, {| source := indexed prefix (i + 5);
                    target := indexed prefix ((i + 2) mod 5 + 5) |}) <$> seq 0 5)
       ++ ((λ i, {| source := indexed prefix i;
                    target := indexed prefix (i + 5) |}) <$> seq 0 5) |}.

(** [createLadderGraph]: two rails joined by rungs; [circular] closes the
    rails. *)
Definition createLadderGraph (rungCount : nat) (prefix : string)
    (circular : bool) : GraphData :=
  let n := (rungCount * 2)%nat in
  {| nodes := (λ i, {| node_id := indexed prefix i; originalLabel := 1 |})
              <$> seq 0 n;
     links :=
       i ← seq 0 rungCount;
       (if Z.of_nat i <? Z.of_nat rungCount - 1 then
          [{| source := indexed prefix i; target := indexed prefix (i + 1) |};
           {| source := indexed prefix (i + rungCount);
              target := indexed prefix (i + rungCount + 1) |}]
        else if circular then
          [{| source := indexed prefix i; target := indexed prefix 0 |};
           {| source := indexed prefix (i + rungCount);
              target := indexed prefix rungCount |}]
        else [])
       ++ [{| source := indexed prefix i;
              target := indexed prefix (i + rungCount) |}] |}.

(** [createPermutedCopy].  The values drawn from [Math.random] are
    parameters: [draw i] is the index [Math.floor(Math.random() * (i + 1))]
    drawn in round [i] of the Fisher-Yates loop, and [order] is the effect of
    the final [sort] with the random comparator on the node array. *)

(** [[indices[i], indices[j]] = [indices[j], indices[i]]] *)
Definition swapIndices (indices : list nat) (i j : nat) : list nat :=
  <[j := indices !!! i]> (<[i := indices !!! j]> indices).

(** The loop [for (let i = n - 1; i > 0; i--)]. *)
Definition shuffleIndices (draw : nat → nat) (n : nat) : list nat :=
  foldl (λ indices i, swapIndices indices i (draw i)) (seq 0 n)
        (reverse (seq 1 (n - 1))).

(** Body of [graph.nodes.forEach((node, i) => oldIdToNewId.set(...))]. *)
Definition setNewId (prefix : string) (indices : list nat)
    (m : gmap string string) (entry : nat * Node) : gmap string string :=
  <[node_id entry.2 := indexed prefix (indices !!! entry.1)]> m.

Definition oldIdToNewId (graph : GraphData) (prefix : string)
    (indices : list nat) : gmap string string :=
  foldl (setNewId prefix indices) ∅
        (zip (seq 0 (length (nodes graph))) (nodes graph)).

Definition createPermutedCopy (draw : nat → nat)
    (order : list Node → list Node) (graph : GraphData) (prefix : string)
    : GraphData :=
  let n := length (nodes graph) in
  let indices := shuffleIndices draw n in
  let newId := oldIdToNewId graph prefix indices in
  let newNodes :=
    (λ node, {| node_id := newId !!! node_id node;
                originalLabel := originalLabel node |}) <$> nodes graph in
  let newLinks :=
    (λ link, {| source := newId !!! source link;
                target := newId !!! target link |}) <$> links graph in
  {| nodes := order newNodes; links := newLinks |}.

(** [ScenarioType] and [ScenarioData]; the field [description] is a text
    for the reader of the page and is left out. *)
Inductive ScenarioType :=
  | ISOMORPHIC_PAIR | ISOMORPHIC_COMPLEX | ISOMORPHIC_TREES
  | ISOMORPHIC_GRID_3X3 | ISOMORPHIC_LADDER
  | NON_ISOMORPHIC_SIMPLE | NON_ISOMORPHIC_REGULAR | NON_ISOMORPHIC_DEGREE
  | CYCLES | GRID_VS_RANDOM.

#[global] Instance ScenarioType_eq_dec : EqDecision ScenarioType.
Proof. solve_decision. Defined.

Record ScenarioData := { graphA : GraphData; graphB : GraphData }.

Definition mkNode (id : string) (label : Z) : Node :=
  {| node_id := id; originalLabel := label |}.

Definition mkLink (s t : string) : Link := {| source := s; target := t |}.

(** The "house": a square and a roof tip. *)
Definition houseGraph : GraphData :=
  {| nodes := [mkNode "A0" 1; mkNode "A1" 1; mkNode "A2" 1; mkNode "A3" 1;
               mkNode "A4" 2];
     links := [mkLink "A0" "A1"; mkLink "A1" "A2"; mkLink "A2" "A3";
               mkLink "A3" "A0"; mkLink "A4" "A0"; mkLink "A4" "A1"] |}.

(** A rooted tree with three levels. *)
Definition treeGraph : GraphData :=
  {| nodes := [mkNode "t1_r" 3; mkNode "t1_a" 2; mkNode "t1_b" 2;
               mkNode "t1_a1" 1; mkNode "t1_a2" 1; mkNode "t1_b1" 1];
     links := [mkLink "t1_r" "t1_a"; mkLink "t1_r" "t1_b";
               mkLink "t1_a" "t1_a1"; mkLink "t1_a" "t1_a2";
               mkLink "t1_b" "t1_b1"] |}.

(** [getScenario]; the random values are those of the one call of
    [createPermutedCopy] that a scenario makes. *)
Definition getScenario (draw : nat → nat) (order : list Node → list Node)
    (type : ScenarioType) : ScenarioData :=
  match type with
  | ISOMORPHIC_PAIR =>
      {| graphA := houseGraph;
         graphB := createPermutedCopy draw order houseGraph "B" |}
  | ISOMORPHIC_COMPLEX =>
      let gA := createPetersenGraph "P" in
      {| graphA := gA; graphB := createPermutedCopy draw order gA "Q" |}
  | ISOMORPHIC_TREES =>
      {| graphA := treeGraph;
         graphB := createPermutedCopy draw order treeGraph "t2" |}
  | ISOMORPHIC_GRID_3X3 =>
      let gA := createGrid 3 3 "G3" in
      {| graphA := gA; graphB := createPermutedCopy draw order gA "GP" |}
  | ISOMORPHIC_LADDER =>
      let gA := createLadderGraph 5 "L" true in
      {| graphA := gA; graphB := createPermutedCopy draw order gA "LP" |}
  | NON_ISOMORPHIC_SIMPLE =>
      {| graphA :=
           {| nodes := [mkNode "A0" 2; mkNode "A1" 1; mkNode "A2" 1;
                        mkNode "A3" 1; mkNode "A4" 2];
              links := [mkLink "A0" "A1"; mkLink "A1" "A2";
                        mkLink "A2" "A3"; mkLink "A3" "A4"] |};
         graphB :=
           {| nodes := [mkNode "B0" 3; mkNode "B1" 2; mkNode "B2" 2;
                        mkNode "B3" 2; mkNode "B4" 2];
              links := [mkLink "B0" "B1"; mkLink "B0" "B2";
                        mkLink "B0" "B3"; mkLink "B0" "B4"] |} |}
  | NON_ISOMORPHIC_REGULAR =>
      {| graphA :=
           {| nodes := [mkNode "A0" 2; mkNode "A1" 1; mkNode "A2" 1;
                        mkNode "A3" 2; mkNode "A4" 1; mkNode "A5" 1];
              links := [mkLink "A0" "A1"; mkLink "A1" "A2"; mkLink "A2" "A0";
                        mkLink "A3" "A4"; mkLink "A4" "A5"; mkLink "A5" "A3";
                        mkLink "A0" "A3"] |};
         graphB :=
           {| nodes := [mkNode "B0" 2; mkNode "B1" 1; mkNode "B2" 1;
                        mkNode "B3" 2; mkNode "B4" 1; mkNode "B5" 1];
              links := [mkLink "B0" "B1"; mkLink "B1" "B2"; mkLink "B2" "B3";
                        mkLink "B3" "B4"; mkLink "B4" "B5"; mkLink "B5" "B0";
                        mkLink "B0" "B3"] |} |}
  | NON_ISOMORPHIC_DEGREE =>
      let nA := 6%nat in
      {| graphA :=
           {| nodes := (λ i, mkNode (indexed "A" i) 1) <$> seq 0 nA;
              links := (λ i, mkLink (indexed "A" i) (indexed "A" (i + 1)))
                       <$> seq 0 (nA - 1) |};
         graphB :=
           {| nodes := (λ i, mkNode (indexed "B" i) 1) <$> seq 0 nA;
              links := [mkLink "B0" "B1"; mkLink "B1" "B2";
                        mkLink "B3" "B4"; mkLink "B4" "B5"] |} |}
  | CYCLES => {| graphA := cyclesA; graphB := cyclesB |}
  | GRID_VS_RANDOM =>
      let gB := createCycle 9 "C" 1 in
      {| graphA := createGrid 3 3 "G";
         graphB :=
           {| nodes := imap (λ i n, if decide (i mod 2 ≠ 0)%nat
                                    then mkNode (node_id n) 2 else n)
                            (nodes gB);
              links := links gB ++ [mkLink "C0" "C4"; mkLink "C2" "C7"] |} |}
  end.

(** ** Constants ([src/constants.ts]) *)

Definition MAX_K : Z := 5.

(** [a[i]] for a number [i]: [None] is [undefined]. *)
Definition Array_get {A} (a : list A) (i : Z) : option A :=
  if i <? 0 then None else a !! Z.to_nat i.

(** ** The page ([App]): its state and its handlers *)

Record AppState := {
  scenarioType : ScenarioType;
  app_k : Z;
  isPlaying : bool;
  selectedNodeId : option string
}.

Definition initialAppState : AppState :=
  {| scenarioType := ISOMORPHIC_PAIR; app_k := 0; isPlaying := false;
     selectedNodeId := None |}.

Definition setK (st : AppState) (k : Z) : AppState :=
  {| scenarioType := scenarioType st; app_k := k; isPlaying := isPlaying st;
     selectedNodeId := selectedNodeId st |}.

Definition setIsPlaying (st : AppState) (b : bool) : AppState :=
  {| scenarioType := scenarioType st; app_k := app_k st; isPlaying := b;
     selectedNodeId := selectedNodeId st |}.

Definition setSelectedNodeId (st : AppState) (id : option string) : AppState :=
  {| scenarioType := scenarioType st; app_k := app_k st;
     isPlaying := isPlaying st; selectedNodeId := id |}.

Definition setScenarioType (st : AppState) (type : ScenarioType) : AppState :=
  {| scenarioType := type; app_k := app_k st; isPlaying := isPlaying st;
     selectedNodeId := selectedNodeId st |}.

Definition handleNext (st : AppState) : AppState :=
  if app_k st <? MAX_K then setK st (app_k st + 1) else st.

Definition handlePrev (st : AppState) : AppState :=
  if 0 <? app_k st then setK st (app_k st - 1) else st.

Definition handleReset (st : AppState) : AppState :=
  setSelectedNodeId (setK (setIsPlaying st false) 0) None.

Definition handleScenarioChange (st : AppState) (type : ScenarioType)
    : AppState :=
  handleReset (setScenarioType st type).

(** The callback of the auto-play interval; the interval exists only while
    [isPlaying] holds. *)
Definition autoPlayTick (st : AppState) : AppState :=
  if isPlaying st then
    if app_k st <? MAX_K then setK st (app_k st + 1)
    else setIsPlaying st false
  else st.

(** What the user and the timer can do. *)
Inductive AppEvent :=
  | ClickNext | ClickPrev | ClickReset | ClickPlay
  | ClickNode (id : option string)
  | ChangeScenario (type : ScenarioType)
  | Tick.

Definition handle (st : AppState) (ev : AppEvent) : AppState :=
  match ev with
  | ClickNext => handleNext st
  | ClickPrev => handlePrev st
  | ClickReset => handleReset st
  | ClickPlay => setIsPlaying st (negb (isPlaying st))
  | ClickNode id => setSelectedNodeId st id
  | ChangeScenario type => handleScenarioChange st type
  | Tick => autoPlayTick st
  end.

(** [simulation], [currentStep] and [prevStep] of a render. *)
Definition simulation (draw : nat → nat) (order : list Node → list Node)
    (st : AppState) : SimulationResult :=
  let scenarioData := getScenario draw order (scenarioType st) in
  runWLAlgorithm (graphA scenarioData) (graphB scenarioData) MAX_K.

Definition currentStep (draw : nat → nat) (order : list Node → list Node)
    (st : AppState) : option WLStep :=
  Array_get (steps (simulation draw order st)) (app_k st).

Definition prevStep (draw : nat → nat) (order : list Node → list Node)
    (st : AppState) : option WLStep :=
  if 0 <? app_k st
  then Array_get (steps (simulation draw order st)) (app_k st - 1)
  else None.

(** ** The histogram rows ([StatsPanel], [TheoryPanel]) *)

Record StatsRow := {
  row_label : string;
  rawLabel : string;
  CountA : Z;
  CountB : Z;
  fill : Color
}.

(** [counts[label] || 0] *)
Definition countOr0 (counts : gmap string Z) (label : string) : Z :=
  default 0 (counts !! label).

Definition statsData (step : WLStep) : list StatsRow :=
  (λ label, {| row_label := "Label " +:+ label;
               rawLabel := label;
               CountA := countOr0 (labelCountsA step) label;
               CountB := countOr0 (labelCountsB step) label;
               fill := getColorForLabel label |}) <$> uniqueLabels step.

(** [computedHeight] of [TheoryPanel]. *)
Definition computedHeight (step : WLStep) : Z :=
  Z.max 200 (Z.of_nat (length (statsData step)) * 50).

(** ** The pattern table ([InspectorPanel]) *)

(** [inA] and [inB] of a mapping. *)
Definition inA (step : WLStep) (m : HashMapping) : bool :=
  0 <? countOr0 (labelCountsA step) (hm_label m).

Definition inB (step : WLStep) (m : HashMapping) : bool :=
  0 <? countOr0 (labelCountsB step) (hm_label m).

(** ** The feature vector ([WLFeatureVectorPanel]) *)











(** ** [getColorForLabel] ([src/constants.ts]): the palette and the integer
    parts of the generated colour

    The hue of a generated colour is computed in floating point and is left
    out; [paletteColor] is the first branch of the function, [saturation]
    and [lightness] are two of the three numbers of the [hsl(...)] text of
    the second branch. *)

Definition LABEL_COLORS : list string :=
  ["#0969da"; "#cf222e"; "#1a7f37"; "#9a6700"; "#8250df"; "#bf3989";
   "#059669"; "#d97706"; "#57606a"; "#0891b2"; "#4c1d95"; "#be185d"].

Definition paletteColor (label : string) : option string :=
  match parseInt label with
  | Some num =>
      if (0 <=? num) && (num <? Z.of_nat (length LABEL_COLORS))
      then LABEL_COLORS !! Z.to_nat num
      else None
  | None => None
  end.

(** [n | 0]: the 32-bit two's complement integer of [n]. *)
Definition toInt32 (n : Z) : Z := (n + 2 ^ 31) `mod` 2 ^ 32 - 2 ^ 31.

(** [charCodeAt] of a character of an ASCII string. *)
Definition charCode (c : ascii) : Z := Z.of_nat (nat_of_ascii c).

(** [hash = ((hash << 5) - hash) + label.charCodeAt(i); hash |= 0] *)
Definition hashStep (hash : Z) (c : ascii) : Z :=
  toInt32 (toInt32 (hash * 32) - hash + charCode c).

(** The loop over the characters of [label]. *)
Fixpoint hashFrom (hash : Z) (label : string) : Z :=
  match label with
  | EmptyString => hash
  | String c rest => hashFrom (hashStep hash c) rest
  end.

Definition labelHash (label : string) : Z := hashFrom 0 label.

Definition saturation (label : string) : Z :=
  65 + Z.abs (labelHash label) `mod` 15.

Definition lightness (label : string) : Z :=
  42 + Z.abs (Z.shiftr (labelHash label) 2) `mod` 10.

(** ** The adjacency map of the panels ([SubtreeVisualization],
    [RecursiveSignaturePanel])

    Unlike [getAdjacencyList] the panels push an end of a link on the array
    of the other end whenever that other end is a node:
    [adj.get(l.source)?.push(l.target)]. *)
Definition pushEnds (adj : gmap string (list string)) (l : Link)
    : gmap string (list string) :=
  alter (λ ns, ns ++ [source l]) (target l)
    (alter (λ ns, ns ++ [target l]) (source l) adj).

Definition panelAdjacency (graph : GraphData) : gmap string (list string) :=
  let adj := foldl (λ adj n, <[node_id n := []]> adj) ∅ (nodes graph) in
  foldl pushEnds adj (links graph).

(** ** [RecursiveSignatureRenderer]: the neighbours of a node with their
    labels of the level below, sorted *)

Record NeighborWithLabel := {
  nwl_nid : string;
  nwl_label : string;
  sortVal : option Z
}.

(** [s || d] for an optional string [s]: the empty string is falsy. *)
Definition orString (s : option string) (d : string) : string :=
  match s with
  | Some EmptyString | None => d
  | Some x => x
  end.

(** The array [neighborsWithLabels] after its [sort]; the renderer reaches
    this code with [1 <= level < allSteps.length], [nStep] is
    [allSteps[level - 1]]. *)
Definition neighborsWithLabels (nStep : WLStep) (graphType : GraphTag)
    (adjacency : gmap string (list string)) (nodeId : string)
    : list NeighborWithLabel :=
  let neighbors := default [] (adjacency !! nodeId) in
  let unsorted :=
    (λ nid,
       let nData :=
         match graphType with
         | GA => nodeDataA nStep !! nid
         | GB => nodeDataB nStep !! nid
         end in
       {| nwl_nid := nid;
          nwl_label := orString (nd_label <$> nData) "";
          sortVal := parseInt (orString (nd_label <$> nData) "0") |})
    <$> neighbors in
  Array_sort (λ a b, num_sub (sortVal a) (sortVal b)) unsorted.

(** ** [SubtreeVisualization]: the unfolding tree of a node

    [build] reads and writes two variables of the enclosing function: the
    counter [uniqueCounter] and the map [adj], whose arrays [sort] orders in
    place.  Both are threaded through the calls.  The recursion stops when
    [currentDepth] reaches [depth]; [remaining] is [depth - currentDepth]. *)

#[local] Unset Elimination Schemes.
Inductive TreeNode := mkTreeNode {
  tn_id : string;
  graphNodeId : string;
  tn_originalLabel : Z;
  children : list TreeNode
}.
#[local] Set Elimination Schemes.

Record BuildState := {
  uniqueCounter : Z;
  bs_adj : gmap string (list string)
}.

Fixpoint build (nodeMap : gmap string Node) (remaining : nat)
    (currentId : string) (st : BuildState) : TreeNode * BuildState :=
  let node := nodeMap !! currentId in
  let uId := currentId +:+ "-" +:+ toString (uniqueCounter st) in
  let st := {| uniqueCounter := uniqueCounter st + 1; bs_adj := bs_adj st |} in
  match remaining with
  | O =>
      ({| tn_id := uId; graphNodeId := currentId;
          tn_originalLabel := from_option originalLabel 0 node;
          children := [] |}, st)
  | S remaining' =>
      let neighbors := Array_sort_default (default [] (bs_adj st !! currentId)) in
      let st := {| uniqueCounter := uniqueCounter st;
                   bs_adj := alter Array_sort_default currentId (bs_adj st) |} in
      let '(children, st) :=
        foldl (λ '(acc, st) nid,
                 let '(child, st) := build nodeMap remaining' nid st in
                 (acc ++ [child], st))
              ([], st) neighbors in
      ({| tn_id := uId; graphNodeId := currentId;
          tn_originalLabel := from_option originalLabel 0 node;
          children := children |}, st)
  end.

(** [treeData] for a root id and a graph that are present. *)
Definition treeData (graph : GraphData) (rootId : string) (depth : nat)
    : TreeNode :=
  let adj := panelAdjacency graph in
  let nodeMap := foldl (λ m n, <[node_id n := n]> m) ∅ (nodes graph) in
  (build nodeMap depth rootId {| uniqueCounter := 0; bs_adj := adj |}).1.

(** * Notions used in the statements and in the proofs *)

(** A string all of whose characters are decimal digits. *)
Fixpoint all_digits (s : string) : Prop :=
  match s with
  | String c s' => is_Some (digit_of c) ∧ all_digits s'
  | EmptyString => True
  end.

(** The last element of [l] whose key is [i]. *)
Definition lastWith `{EqDecision K} {X : Type} (key : X → K) (i : K)
    (l : list X) : option X :=
  last (filter (λ x, key x = i) l).

(** A [forEach] that sets [m[key x] = val x]: the entry of a key is the one
    written by the last element with that key. *)
Definition insertAll `{Countable K} {X V : Type} (key : X → K) (val : X → V)
    (m : gmap K V) (l : list X) : gmap K V :=
  foldl (λ m x, <[key x := val x]> m) m l.

(** Sum of the values of a histogram. *)
Definition total (c : gmap string Z) : Z :=
  map_fold (λ _ v acc, v + acc) 0 c.

(** What one link pushes on the neighbour array of node [i]. *)
Definition pushes (i : string) (l : Link) : list string :=
  (if decide (source l = i) then [target l] else [])
  ++ (if decide (target l = i) then [source l] else []).

(** A link whose two ends are node ids of the graph. *)
Definition knownLink (ids : list string) (l : Link) : Prop :=
  source l ∈ ids ∧ target l ∈ ids.

#[global] Instance knownLink_dec ids l : Decision (knownLink ids l).
Proof. unfold knownLink. apply _. Defined.

Definition neighbourList (ids : list string) (links : list Link) (i : string)
    : list string :=
  filter (knownLink ids) links ≫= pushes i.

(** The mappings minted for the signatures [sigs], the counter being at
    [c]. *)
Fixpoint mintFrom (c : Z) (sigs : list string) : list HashMapping :=
  match sigs with
  | [] => []
  | sig :: sigs' =>
      {| hm_signature := sig; hm_label := toString (c + 1);
         hm_color := getColorForLabel (toString (c + 1)) |}
      :: mintFrom (c + 1) sigs'
  end.

(** The [k = 0] block. *)
Definition bracket (val : Z) : string := "[" +:+ toString val +:+ "]".

Definition initialMappings (initLabelMap : gmap Z string) (vals : list Z)
    : list HashMapping :=
  (λ val, {| hm_signature := "Initial: " +:+ toString val;
             hm_label := initLabelMap !!! val;
             hm_color := getColorForLabel (initLabelMap !!! val) |}) <$> vals.

(** The last loop of [processStep]. *)
Definition labelOf (sm : gmap string string) (item : NodeSig) : string :=
  sm !!! ns_signature item.

Definition nodeDataOf (sm : gmap string string) (item : NodeSig)
    : WLStepNodeData :=
  {| nd_id := ns_id item;
     nd_originalLabel := 0;
     nd_label := labelOf sm item;
     nd_color := getColorForLabel (labelOf sm item);
     nd_neighbors := [];
     nd_signature := ns_signature item;
     nd_expandedSignature := ns_expanded item |}.

(** The intermediate values of one call of [processStep]. *)
Section step_notions.
Variables (gA gB : GraphData).
Variables (aA aB : gmap string (list string)).
Variables (sorted : list Z) (imap : gmap Z string).
Variables (kk c : Z) (pA pB : gmap string string).

Definition sigsA : list NodeSig := generateSig kk (nodes gA) aA pA GA.
Definition sigsB : list NodeSig := generateSig kk (nodes gB) aB pB GB.

Definition uniqueSigs : list string :=
  Array_sort_default (Array_from_Set (ns_signature <$> sigsA ++ sigsB)).

Definition stepMap : gmap string string :=
  if decide (kk = 0)
  then insertAll bracket (λ val, imap !!! val) ∅ sorted
  else insertAll hm_signature hm_label ∅ (mintFrom c uniqueSigs).

Definition stepMappings : list HashMapping :=
  if decide (kk = 0) then initialMappings imap sorted
  else mintFrom c uniqueSigs.

Definition stepCountsA : gmap string Z :=
  foldl bump ∅ (labelOf stepMap <$> sigsA).
Definition stepCountsB : gmap string Z :=
  foldl bump ∅ (labelOf stepMap <$> sigsB).
End step_notions.

(** The values [vals] paired with the numerals after [c]. *)
Fixpoint numberFrom (c : Z) (vals : list Z) : list (Z * string) :=
  match vals with
  | [] => []
  | v :: vals' => (v, toString (c + 1)) :: numberFrom (c + 1) vals'
  end.

(** The labels of a step: node id to [label]. *)
Definition labelsOf (nd : gmap string WLStepNodeData) : gmap string string :=
  nd_label <$> nd.

(** All the mappings of a list of steps, and how many there are: the value
    of the counter after these steps. *)
Definition allMappings (ss : list WLStep) : list HashMapping := ss ≫= mappings.

Definition mintedSoFar (ss : list WLStep) : Z :=
  Z.of_nat (length (allMappings ss)).

(** The step that follows the steps [ss], whose last one is [s]. *)
Definition nextStep (gA gB : GraphData) (ss : list WLStep) (s : WLStep)
    : WLStep :=
  step (processStepOf gA gB (k s + 1) (mintedSoFar ss)
          (labelsOf (nodeDataA s)) (labelsOf (nodeDataB s))
          (labelsOf (nodeDataA s)) (labelsOf (nodeDataB s))).

Inductive Trace (gA gB : GraphData) : list WLStep → Prop :=
  | Trace_first : Trace gA gB [step (result0 gA gB)]
  | Trace_next ss s :
      Trace gA gB ss → last ss = Some s →
      Trace gA gB (ss ++ [nextStep gA gB ss s]).

(** What the loop maintains: the steps form a trace, the current labels are
    those of the last step, and the counter is the number of identifiers
    handed out. *)
Record LoopInv (gA gB : GraphData) (n : Z) (st : LoopState) : Prop := {
  inv_trace : Trace gA gB (ls_steps st);
  inv_ks : k <$> ls_steps st = seqZ 0 (n + 1);
  inv_last :
    ∃ s, last (ls_steps st) = Some s ∧ k s = n
         ∧ currentLabelsA st = labelsOf (nodeDataA s)
         ∧ currentLabelsB st = labelsOf (nodeDataB s);
  inv_counter : globalLabelCounter st = mintedSoFar (ls_steps st)
}.

(** The graph without the links that have an end outside the node set. *)
Definition pruneLinks (g : GraphData) : GraphData :=
  {| nodes := nodes g;
     links := filter (knownLink (node_id <$> nodes g)) (links g) |}.

(** What conservation says of one step. *)
Definition conserved (gA gB : GraphData) (s : WLStep) : Prop :=
  total (labelCountsA s) = Z.of_nat (length (nodes gA))
  ∧ total (labelCountsB s) = Z.of_nat (length (nodes gB))
  ∧ (∀ id, is_Some (nodeDataA s !! id) ↔ id ∈ node_id <$> nodes gA)
  ∧ (∀ id, is_Some (nodeDataB s !! id) ↔ id ∈ node_id <$> nodes gB)
  ∧ (∀ id d, nodeDataA s !! id = Some d →
       nd_id d = id ∧ is_Some (labelCountsA s !! nd_label d))
  ∧ (∀ id d, nodeDataB s !! id = Some d →
       nd_id d = id ∧ is_Some (labelCountsB s !! nd_label d)).

(** A label identifier: the numeral of a positive value of the counter. *)
Definition is_label (s : string) : Prop := ∃ n, 0 < n ∧ s = toString n.

(** Numeric order of two labels, through [parseInt]. *)
Definition numLe (a b : string) : Prop :=
  ∃ x y, parseInt a = Some x ∧ parseInt b = Some y ∧ x ≤ y.

(** Every node id of [ids] has a label in [p], and it is a label
    identifier. *)
Definition labelled (ids : list string) (p : gmap string string) : Prop :=
  ∀ id, id ∈ ids → ∃ n, 0 < n ∧ p !! id = Some (toString n).

(** The signature string of a node: its own label, then its neighbours'
    labels. *)
Definition signatureString (selfLabel : string) (neighborLabels : list string)
    : string :=
  "(" +:+ selfLabel +:+ ",[" +:+ join "," neighborLabels +:+ "])".

(** The record [d] of node [id] carries the signature built from the
    previous labels [prev]: the node's own label, and the labels of its
    neighbours in [adj], with multiplicity, in ascending numeric order. *)
Definition signedBy (adj : gmap string (list string))
    (prev : gmap string string) (id : string) (d : WLStepNodeData) : Prop :=
  let e := nd_expandedSignature d in
  prev !! id = Some (self e)
  ∧ Forall (λ nid, is_Some (prev !! nid)) (default [] (adj !! id))
  ∧ neighbors e ≡ₚ (λ nid, prev !!! nid) <$> default [] (adj !! id)
  ∧ StronglySorted numLe (neighbors e)
  ∧ nd_signature d = signatureString (self e) (neighbors e).

(** What C2 says of a refinement step [s'] that follows the step [s], the
    counter being at [c] when [s'] is computed. *)
Definition refines (gA gB : GraphData) (c : Z) (s s' : WLStep) : Prop :=
  (∀ id d, nodeDataA s' !! id = Some d →
     signedBy (adjA gA) (labelsOf (nodeDataA s)) id d)
  ∧ (∀ id d, nodeDataB s' !! id = Some d →
       signedBy (adjB gB) (labelsOf (nodeDataB s)) id d)
  ∧ (∀ sig, sig ∈ hm_signature <$> mappings s'
       ↔ ∃ id d, (nodeDataA s' !! id = Some d ∨ nodeDataB s' !! id = Some d)
                 ∧ nd_signature d = sig)
  ∧ StronglySorted (λ a b, String.ltb a b = true)
      (hm_signature <$> mappings s')
  ∧ hm_label <$> mappings s'
    = toString <$> seqZ (c + 1) (Z.of_nat (length (mappings s')))
  ∧ (∀ id d, nodeDataA s' !! id = Some d ∨ nodeDataB s' !! id = Some d →
       ∃ m, m ∈ mappings s' ∧ hm_signature m = nd_signature d
            ∧ hm_label m = nd_label d).

(** What C2 says of the nodes: every node of both graphs has a record at the
    refinement step [s'], filed under its id and carrying the signature built
    from the labels of the step [s] before; there is no record besides those
    of the nodes; and the signatures of the mappings are exactly the
    signatures of the nodes of both graphs. *)
Definition everyNodeSigned (gA gB : GraphData) (s s' : WLStep) : Prop :=
  (∀ n, n ∈ nodes gA →
     ∃ d, nodeDataA s' !! node_id n = Some d ∧ nd_id d = node_id n
          ∧ signedBy (adjA gA) (labelsOf (nodeDataA s)) (node_id n) d)
  ∧ (∀ n, n ∈ nodes gB →
       ∃ d, nodeDataB s' !! node_id n = Some d ∧ nd_id d = node_id n
            ∧ signedBy (adjB gB) (labelsOf (nodeDataB s)) (node_id n) d)
  ∧ (∀ id, is_Some (nodeDataA s' !! id) → id ∈ node_id <$> nodes gA)
  ∧ (∀ id, is_Some (nodeDataB s' !! id) → id ∈ node_id <$> nodes gB)
  ∧ (∀ sig, sig ∈ hm_signature <$> mappings s'
       ↔ (∃ n d, n ∈ nodes gA ∧ nodeDataA s' !! node_id n = Some d
                 ∧ nd_signature d = sig)
         ∨ (∃ n d, n ∈ nodes gB ∧ nodeDataB s' !! node_id n = Some d
                   ∧ nd_signature d = sig)).

(** The node map of graph [tag] in a step, the node ids of graph [tag], and
    the label of a node at a step. *)
Definition nodeDataAt (s : WLStep) (tag : GraphTag)
    : gmap string WLStepNodeData :=
  match tag with GA => nodeDataA s | GB => nodeDataB s end.

Definition nodeIds (gA gB : GraphData) (tag : GraphTag) : list string :=
  node_id <$> nodes (match tag with GA => gA | GB => gB end).

Definition labelAt (s : WLStep) (tag : GraphTag) (id : string)
    : option string :=
  labelsOf (nodeDataAt s tag) !! id.

(** Two nodes joined by a link, in either direction. *)
Definition adjacent (g : GraphData) (a b : string) : Prop :=
  Exists (λ l, (source l = a ∧ target l = b) ∨ (source l = b ∧ target l = a))
         (links g).

#[global] Instance adjacent_dec g a b : Decision (adjacent g a b).
Proof. unfold adjacent. apply _. Defined.

(** An isomorphism of labelled graphs: a bijection between the node ids that
    keeps the initial labels and the adjacency. *)
Definition isomorphic (gA gB : GraphData) : Prop :=
  ∃ f : string → string,
    (∀ a, a ∈ node_id <$> nodes gA → f a ∈ node_id <$> nodes gB)
    ∧ (∀ b, b ∈ node_id <$> nodes gB → ∃ a, a ∈ node_id <$> nodes gA ∧ f a = b)
    ∧ (∀ a a', a ∈ node_id <$> nodes gA → a' ∈ node_id <$> nodes gA →
         f a = f a' → a = a')
    ∧ (∀ n, n ∈ nodes gA →
         ∃ n', n' ∈ nodes gB ∧ node_id n' = f (node_id n)
               ∧ originalLabel n' = originalLabel n)
    ∧ (∀ a a', a ∈ node_id <$> nodes gA → a' ∈ node_id <$> nodes gA →
         adjacent gA a a' ↔ adjacent gB (f a) (f a')).

(** Number of occurrences of [x] in [l], and of the link [s -> t] in [ls]. *)
Definition occurrences (x : string) (l : list string) : nat :=
  length (filter (λ y, y = x) l).

Definition linkCount (s t : string) (ls : list Link) : nat :=
  length (filter (λ l, source l = s ∧ target l = t) ls).

(** A graph with one node and a link to a node that does not exist. *)
Definition danglingGraph : GraphData :=
  {| nodes := [{| node_id := "a"; originalLabel := 1 |}];
     links := [{| source := "a"; target := "ghost" |}] |}.

(** Two nodes with different initial labels, joined by a link. *)
Definition pairGraph : GraphData :=
  {| nodes := [{| node_id := "a"; originalLabel := 1 |};
               {| node_id := "b"; originalLabel := 2 |}];
     links := [{| source := "a"; target := "b" |}] |}.

(** The same graph with its arrays in the opposite order. *)
Definition reversed (g : GraphData) : GraphData :=
  {| nodes := reverse (nodes g); links := reverse (links g) |}.

(** Two nodes, a link given twice and a self-loop. *)
Definition multiGraph : GraphData :=
  {| nodes := [{| node_id := "a"; originalLabel := 1 |};
               {| node_id := "b"; originalLabel := 1 |}];
     links := [{| source := "a"; target := "b" |};
               {| source := "a"; target := "b" |};
               {| source := "a"; target := "a" |}] |}.

(** ** Notions of the further properties *)

(** What is shown of [uniqueLabels] at a step. *)
Definition uniqueLabelsSpec (s : WLStep) : Prop :=
  uniqueLabels s = hm_label <$> mappings s
  ∧ NoDup (uniqueLabels s)
  ∧ StronglySorted numLe (uniqueLabels s)
  ∧ (∀ l, l ∈ uniqueLabels s
       ↔ is_Some (labelCountsA s !! l) ∨ is_Some (labelCountsB s !! l)).


(** What a step looks like when both graphs have no node. *)
Definition emptyStep (s : WLStep) : Prop :=
  nodeDataA s = ∅ ∧ nodeDataB s = ∅
  ∧ labelCountsA s = ∅ ∧ labelCountsB s = ∅
  ∧ uniqueLabels s = [] ∧ mappings s = []
  ∧ isIsomorphicCandidate s = true.


(** The graph named by a tag. *)
Definition graphOf (gA gB : GraphData) (tag : GraphTag) : GraphData :=
  match tag with GA => gA | GB => gB end.

(** Rank of the initial value [v] among the distinct initial values of the
    two graphs, counted from 1. *)
Definition initialRank (gA gB : GraphData) (v : Z) : Z :=
  1 + Z.of_nat (length (filter (λ w, w < v) (allInitialValues gA gB))).

(** The histogram of graph [tag] in a step. *)
Definition labelCountsAt (s : WLStep) (tag : GraphTag) : gmap string Z :=
  match tag with GA => labelCountsA s | GB => labelCountsB s end.

(** The labels that the nodes of [g] carry at a step, in the order of the
    node array. *)
Definition nodeLabels (s : WLStep) (tag : GraphTag) (g : GraphData)
    : list string :=
  (λ n, labelsOf (nodeDataAt s tag) !!! node_id n) <$> nodes g.

(** Number of nodes of [g] with label [l] at a step. *)
Definition nodesWithLabel (s : WLStep) (tag : GraphTag) (g : GraphData)
    (l : string) : nat :=
  length (filter (λ n, labelAt s tag (node_id n) = Some l) (nodes g)).

(** The histogram of graph [tag] counts the nodes by label; a label that no
    node carries is not a key. *)
Definition histogramOf (gA gB : GraphData) (tag : GraphTag) (s : WLStep)
    : Prop :=
  ∀ l, labelCountsAt s tag !! l
       = if decide (nodesWithLabel s tag (graphOf gA gB tag) l = 0%nat)
         then None
         else Some (Z.of_nat (nodesWithLabel s tag (graphOf gA gB tag) l)).

(** The histogram is the fold of [bump] over the labels of the nodes. *)
Definition countsFromLabels (gA gB : GraphData) (tag : GraphTag) (s : WLStep)
    : Prop :=
  labelCountsAt s tag = foldl bump ∅ (nodeLabels s tag (graphOf gA gB tag)).

(** The previous label that the signature [sig] of a step starts with,
    read from the signature records [items] of the step. *)
Definition selfOf (items : list NodeSig) (sig : string) : string :=
  from_option (λ it, self (ns_expanded it.2)) ""
    (list_find (λ it, ns_signature it = sig) items).

(** What the proofs use of a step of the returned sequence. *)
Record goodStep (gA gB : GraphData) (s : WLStep) : Prop := {
  good_labelledA : labelled (node_id <$> nodes gA) (labelsOf (nodeDataA s));
  good_labelledB : labelled (node_id <$> nodes gB) (labelsOf (nodeDataB s));
  good_countsA : countsFromLabels gA gB GA s;
  good_countsB : countsFromLabels gA gB GB s;
  good_verdict :
    isIsomorphicCandidate s
    = areCountsEqual (labelCountsA s) (labelCountsB s);
  good_uniqueLabels : uniqueLabelsSpec s;
  good_k : 0 ≤ k s
}.

(** Renaming of the node ids by a function [f]. *)
Definition renameNode (f : string → string) (n : Node) : Node :=
  {| node_id := f (node_id n); originalLabel := originalLabel n |}.

Definition renameLink (f : string → string) (l : Link) : Link :=
  {| source := f (source l); target := f (target l) |}.

Definition renameGraph (f : string → string) (g : GraphData) : GraphData :=
  {| nodes := renameNode f <$> nodes g; links := renameLink f <$> links g |}.

(** The ids that a graph mentions: those of its nodes and the ends of its
    links. *)
Definition mentioned (g : GraphData) : list string :=
  (node_id <$> nodes g) ++ (source <$> links g) ++ (target <$> links g).

Definition injectiveOn (f : string → string) (ids : list string) : Prop :=
  ∀ a b, a ∈ ids → b ∈ ids → f a = f b → a = b.

(** A graph in the sense of the data model: distinct node ids, and links
    between nodes of the graph. *)
Definition wellFormed (g : GraphData) : Prop :=
  NoDup (node_id <$> nodes g)
  ∧ Forall (knownLink (node_id <$> nodes g)) (links g).

#[global] Instance wellFormed_dec g : Decision (wellFormed g).
Proof. unfold wellFormed. apply _. Defined.

(** A step at which graph B looks like graph A renamed by [f]: the verdict
    is [true], the histograms are equal, and the node [f id] of B carries
    the label of the node [id] of A. *)
Definition agreeing (gA : GraphData) (f : string → string) (s : WLStep)
    : Prop :=
  isIsomorphicCandidate s = true
  ∧ labelCountsA s = labelCountsB s
  ∧ ∀ id, id ∈ node_id <$> nodes gA →
      is_Some (labelAt s GA id) ∧ labelAt s GB (f id) = labelAt s GA id.

(** The renaming that [createPermutedCopy] applies. *)
Definition newIdOf (draw : nat → nat) (graph : GraphData) (prefix : string)
    (id : string) : string :=
  oldIdToNewId graph prefix (shuffleIndices draw (length (nodes graph))) !!! id.

(** The scenarios whose second graph is a permuted copy of the first. *)
Definition permutedScenarios : list ScenarioType :=
  [ISOMORPHIC_PAIR; ISOMORPHIC_COMPLEX; ISOMORPHIC_TREES;
   ISOMORPHIC_GRID_3X3; ISOMORPHIC_LADDER].

(** A graph all of whose nodes have [d] entries in their neighbour array,
    and a graph all of whose nodes have the initial value [v]. *)
Definition regular (g : GraphData) (d : nat) : Prop :=
  Forall (λ n, length (default []
                 (getAdjacencyList (nodes g) (links g) !! node_id n)) = d)
         (nodes g).

Definition uniformLabel (g : GraphData) (v : Z) : Prop :=
  Forall (λ n, originalLabel n = v) (nodes g).

#[global] Instance regular_dec g d : Decision (regular g d).
Proof. unfold regular. apply _. Defined.

#[global] Instance uniformLabel_dec g v : Decision (uniformLabel g v).
Proof. unfold uniformLabel. apply _. Defined.

(** The histogram of [size] nodes that all carry the label [l]. *)
Definition singleLabel (l : string) (size : nat) : gmap string Z :=
  if decide (size = 0%nat) then ∅ else {[ l := Z.of_nat size ]}.

(** A step at which every node of both graphs carries the numeral of
    [k + 1]. *)
Definition uniformStep (gA gB : GraphData) (s : WLStep) : Prop :=
  let l := toString (k s + 1) in
  hm_label <$> mappings s = [l]
  ∧ labelCountsA s = singleLabel l (length (nodes gA))
  ∧ labelCountsB s = singleLabel l (length (nodes gB))
  ∧ (∀ id, id ∈ node_id <$> nodes gA → labelAt s GA id = Some l)
  ∧ (∀ id, id ∈ node_id <$> nodes gB → labelAt s GB id = Some l)
  ∧ isIsomorphicCandidate s
    = bool_decide (length (nodes gA) = length (nodes gB)).

(** The graph made of two graphs side by side, as graph B of the scenario
    CYCLES is made. *)
Definition graphUnion (g1 g2 : GraphData) : GraphData :=
  {| nodes := nodes g1 ++ nodes g2; links := links g1 ++ links g2 |}.

(** No node id of [g1] is a node id of [g2]. *)
Definition disjointIds (g1 g2 : GraphData) : Prop :=
  Forall (λ i, i ∉ node_id <$> nodes g2) (node_id <$> nodes g1).

#[global] Instance disjointIds_dec g1 g2 : Decision (disjointIds g1 g2).
Proof. unfold disjointIds. apply _. Defined.

(** A step at which both histograms are the single label [k + 1] with the
    count [n], and the verdict is [true]. *)
Definition blindStep (n : nat) (s : WLStep) : Prop :=
  labelCountsA s = {[ toString (k s + 1) := Z.of_nat n ]}
  ∧ labelCountsB s = {[ toString (k s + 1) := Z.of_nat n ]}
  ∧ isIsomorphicCandidate s = true.

(** Sum of a list of numbers. *)
Definition sumZ (l : list Z) : Z := foldr Z.add 0 l.

(** The values of a histogram are positive. *)
Definition positiveCounts (c : gmap string Z) : Prop :=
  ∀ l v, c !! l = Some v → 0 < v.

(** What is shown of the rows of the histogram chart of a step. *)
Definition rowsSpec (gA gB : GraphData) (s : WLStep) : Prop :=
  let rows := statsData s in
  rawLabel <$> rows = hm_label <$> mappings s
  ∧ sumZ (CountA <$> rows) = Z.of_nat (length (nodes gA))
  ∧ sumZ (CountB <$> rows) = Z.of_nat (length (nodes gB))
  ∧ Forall (λ r, 0 ≤ CountA r ∧ 0 ≤ CountB r ∧ 0 < CountA r + CountB r) rows
  ∧ (isIsomorphicCandidate s = true
     ↔ Forall (λ r, CountA r = CountB r) rows).

(** What is shown of the pattern table of a step. *)
Definition patternsSpec (s : WLStep) : Prop :=
  Forall (λ m, inA s m = true ∨ inB s m = true) (mappings s)
  ∧ (isIsomorphicCandidate s = true →
     Forall (λ m, inA s m = true ∧ inB s m = true) (mappings s)).







(** What is shown of the colour of the label of a mapping: the label is
    the numeral of a positive [n]; it is painted with entry [n] of the
    palette when [n < 12] and with a generated colour otherwise; the first
    entry of the palette is never used. *)
Definition paletteSpec (m : HashMapping) : Prop :=
  ∃ n, 0 < n ∧ hm_label m = toString n
       ∧ paletteColor (hm_label m)
         = (if n <? 12 then LABEL_COLORS !! Z.to_nat n else None)
       ∧ (n < 12 → is_Some (paletteColor (hm_label m)))
       ∧ paletteColor (hm_label m) ≠ LABEL_COLORS !! 0%nat.

(** The ids of the nodes of a tree, the root first, and the number of its
    nodes. *)
Fixpoint treeIds (t : TreeNode) : list string :=
  match t with
  | mkTreeNode id _ _ ch =>
      id :: (fix go (l : list TreeNode) : list string :=
               match l with
               | [] => []
               | c :: l' => treeIds c ++ go l'
               end) ch
  end.

Definition forestIds (ts : list TreeNode) : list string := ts ≫= treeIds.

(** An id made by [build] with the value [j] of the counter. *)
Definition numbered (id : string) (j : Z) : Prop :=
  ∃ g, id = g +:+ "-" +:+ toString j.

(** The ids given by [build], in preorder, carry the consecutive values of
    the counter. *)
Definition buildSpec (c : Z) (ids : list string) (c' : Z) : Prop :=
  c ≤ c' ∧ Forall2 numbered ids (seqZ c (c' - c)).


(** The cells of a grid, in row-major order. *)
Definition gridCells (rows cols : nat) : list (nat * nat) :=
  r ← seq 0 rows; c ← seq 0 cols; [(r, c)].

(** A link that joins two nodes of the graph with different initial
    values. *)
Definition bicoloured (g : GraphData) (l : Link) : Prop :=
  ∃ n1 n2, n1 ∈ nodes g ∧ n2 ∈ nodes g
           ∧ node_id n1 = source l ∧ node_id n2 = target l
           ∧ originalLabel n1 ≠ originalLabel n2.

(** The verdicts of the steps 0 to [MAX_K] in each scenario. *)
Definition scenarioVerdicts (type : ScenarioType) : list bool :=
  match type with
  | NON_ISOMORPHIC_SIMPLE => replicate 6 false
  | NON_ISOMORPHIC_DEGREE | GRID_VS_RANDOM => true :: replicate 5 false
  | _ => replicate 6 true
  end.

(** * Properties *)

(** ** Sorting *)

Section sort_facts.
Context {A : Type} (le : A → A → bool).

Lemma sort_insert_perm x l : sort_insert le x l ≡ₚ x :: l.
Proof.
  induction l as [|y l IH]; simpl; [done|].
  destruct (le x y); [done|]. rewrite IH. apply perm_swap.
Qed.

Lemma sort_with_perm l : sort_with le l ≡ₚ l.
Proof.
  induction l as [|x l IH]; simpl; [done|].
  rewrite sort_insert_perm. by f_equiv.
Qed.

Lemma sort_with_length l : length (sort_with le l) = length l.
Proof. by rewrite sort_with_perm. Qed.

Lemma sort_with_elem_of x l : x ∈ sort_with le l ↔ x ∈ l.
Proof. by rewrite sort_with_perm. Qed.

(** The order only has to be total, transitive and antisymmetric on the
    elements that are sorted, described by [P]. *)
Context (P : A → Prop).
Hypothesis le_total : ∀ x y, P x → P y → le x y = true ∨ le y x = true.
Hypothesis le_trans :
  ∀ x y z, P x → P y → P z → le x y = true → le y z = true → le x z = true.

Lemma sort_insert_sorted x l :
  P x → Forall P l →
  StronglySorted (λ a b, le a b = true) l →
  StronglySorted (λ a b, le a b = true) (sort_insert le x l).
Proof.
  intros Hx HP Hs. induction Hs as [|y l Hs IH Hy]; simpl.
  - repeat constructor.
  - apply Forall_cons in HP as [Py HP].
    destruct (le x y) eqn:Hxy.
    + constructor; [by constructor|]. constructor; [done|].
      rewrite Forall_forall in Hy, HP. apply Forall_forall. intros z Hz.
      eapply (le_trans x y z); auto.
    + constructor; [by apply IH|].
      assert (le y x = true) as Hyx.
      { destruct (le_total x y Hx Py); congruence. }
      eapply Permutation_Forall; [symmetry; apply sort_insert_perm|].
      by constructor.
Qed.

Lemma sort_with_sorted l :
  Forall P l → StronglySorted (λ a b, le a b = true) (sort_with le l).
Proof.
  induction 1 as [|x l Hx HP IH]; simpl; [constructor|].
  apply sort_insert_sorted; [done| |done].
  eapply Permutation_Forall; [symmetry; apply sort_with_perm|done].
Qed.

Hypothesis le_antisym :
  ∀ x y, P x → P y → le x y = true → le y x = true → x = y.

Lemma sorted_perm_eq l1 l2 :
  Forall P l1 →
  StronglySorted (λ a b, le a b = true) l1 →
  StronglySorted (λ a b, le a b = true) l2 →
  l1 ≡ₚ l2 → l1 = l2.
Proof.
  intros HP Hs1. revert l2 HP.
  induction Hs1 as [|x l1 Hs1 IH Hx]; intros l2 HP Hs2 Hperm.
  { by apply Permutation_nil_l in Hperm. }
  destruct Hs2 as [|y l2 Hs2 Hy].
  { by apply Permutation_nil_r in Hperm. }
  apply Forall_cons in HP as [Px HP].
  assert (P y) as Py.
  { assert (y ∈ x :: l1) as Hin by (rewrite Hperm; left).
    apply elem_of_cons in Hin as [->|Hin]; [done|].
    by eapply Forall_forall in HP. }
  assert (x = y) as <-.
  { assert (x ∈ y :: l2) as Hin1 by (rewrite <-Hperm; left).
    assert (y ∈ x :: l1) as Hin2 by (rewrite Hperm; left).
    apply elem_of_cons in Hin1 as [?|Hin1]; [done|].
    apply elem_of_cons in Hin2 as [?|Hin2]; [done|].
    apply le_antisym; [done..| |].
    - by eapply Forall_forall in Hx.
    - by eapply Forall_forall in Hy. }
  f_equal. apply IH; [done..|]. by apply (inj (cons x)).
Qed.

Lemma sort_with_perm_eq l1 l2 :
  Forall P l1 → l1 ≡ₚ l2 → sort_with le l1 = sort_with le l2.
Proof.
  intros HP Hperm. apply sorted_perm_eq.
  - eapply Permutation_Forall; [symmetry; apply sort_with_perm|done].
  - by apply sort_with_sorted.
  - apply sort_with_sorted. by rewrite <-Hperm.
  - by rewrite !sort_with_perm.
Qed.
End sort_facts.

(** The default sort of strings. *)
Lemma String_leb_trans (x y z : string) :
  String.leb x y = true → String.leb y z = true → String.leb x z = true.
Proof.
  intros Hxy Hyz. apply Is_true_true.
  apply Is_true_true in Hxy, Hyz.
  change (String.le x z). by trans y.
Qed.

Lemma Array_sort_default_perm l : Array_sort_default l ≡ₚ l.
Proof. apply sort_with_perm. Qed.

Lemma Array_sort_default_sorted l :
  StronglySorted (λ a b, String.leb a b = true) (Array_sort_default l).
Proof.
  apply (sort_with_sorted _ (λ _, True)).
  - intros x y _ _. apply String.leb_total.
  - intros x y z _ _ _. apply String_leb_trans.
  - by apply Forall_forall.
Qed.

Lemma Array_sort_default_perm_eq l1 l2 :
  l1 ≡ₚ l2 → Array_sort_default l1 = Array_sort_default l2.
Proof.
  apply (sort_with_perm_eq _ (λ _, True)).
  - intros x y _ _. apply String.leb_total.
  - intros x y z _ _ _. apply String_leb_trans.
  - intros x y _ _. apply String.leb_antisym.
  - by apply Forall_forall.
Qed.

(** ** [Array.from(new Set(l))] *)

Section Set_facts.
Context `{EqDecision A}.

Lemma Set_fold_spec (l acc : list A) :
  NoDup acc →
  NoDup (foldl Set_add acc l) ∧
  (∀ x, x ∈ foldl Set_add acc l ↔ x ∈ acc ∨ x ∈ l).
Proof.
  revert acc. induction l as [|y l IH]; intros acc Hnd; simpl.
  { split; [done|]. intros x. rewrite elem_of_nil. tauto. }
  unfold Set_add at 2 4. destruct (decide (y ∈ acc)) as [Hy|Hy].
  - destruct (IH acc Hnd) as [? Hin]. split; [done|].
    intros x. rewrite Hin, elem_of_cons.
    split; [tauto|]. intros [?|[->|?]]; auto.
  - destruct (IH (acc ++ [y])) as [? Hin].
    { apply NoDup_app. split_and!; [done| |apply NoDup_singleton].
      intros x Hx ->%list_elem_of_singleton. done. }
    split; [done|]. intros x.
    rewrite Hin, elem_of_app, !elem_of_cons, elem_of_nil. tauto.
Qed.

Lemma Array_from_Set_NoDup (l : list A) : NoDup (Array_from_Set l).
Proof. apply Set_fold_spec, NoDup_nil_2. Qed.

Lemma Array_from_Set_elem_of (l : list A) x : x ∈ Array_from_Set l ↔ x ∈ l.
Proof.
  unfold Array_from_Set.
  destruct (Set_fold_spec l [] (NoDup_nil_2)) as [_ ->].
  rewrite elem_of_nil. tauto.
Qed.

Lemma Array_from_Set_perm (l1 l2 : list A) :
  (∀ x, x ∈ l1 ↔ x ∈ l2) → Array_from_Set l1 ≡ₚ Array_from_Set l2.
Proof.
  intros H. apply NoDup_Permutation; [apply Array_from_Set_NoDup..|].
  intros x. by rewrite !Array_from_Set_elem_of.
Qed.
End Set_facts.

(** ** Numerals: [toString] and [parseInt] *)

Lemma digit_of_pretty_N_char (x : N) :
  (x < 10)%N → digit_of (pretty_N_char x) = Some (Z.of_N x).
Proof.
  intros Hx.
  assert (x = 0 ∨ x = 1 ∨ x = 2 ∨ x = 3 ∨ x = 4 ∨ x = 5
          ∨ x = 6 ∨ x = 7 ∨ x = 8 ∨ x = 9)%N as Hcases by lia.
  repeat (destruct Hcases as [->|Hcases]; [done|]). by subst.
Qed.

Lemma parse_digits_pretty_N_go (x : N) :
  (0 < x)%N →
  ∃ p, ∀ s acc,
    parse_digits (pretty_N_go x s) acc
    = parse_digits s (Some (default 0 acc * p + Z.of_N x)).
Proof.
  induction (N.lt_wf_0 x) as [x _ IH]; intros Hx.
  assert (digit_of (pretty_N_char (x `mod` 10)) = Some (Z.of_N (x `mod` 10)))
    as Hd by (apply digit_of_pretty_N_char, N.mod_lt; done).
  assert (Z.of_N x = 10 * Z.of_N (x `div` 10) + Z.of_N (x `mod` 10)) as Hx10.
  { rewrite (N.div_mod x 10) at 1 by done.
    by rewrite N2Z.inj_add, N2Z.inj_mul. }
  destruct (decide (x `div` 10 = 0)%N) as [Hq|Hq].
  - exists 10. intros s acc. rewrite pretty_N_go_step by done.
    rewrite Hq, pretty_N_go_0. simpl. rewrite Hd. do 2 f_equal.
    rewrite Hq in Hx10. lia.
  - destruct (IH (x `div` 10)%N) as [p Hp];
      [by apply N.div_lt|by apply N.neq_0_lt_0|].
    exists (p * 10). intros s acc. rewrite pretty_N_go_step by done.
    rewrite Hp. simpl. rewrite Hd. do 2 f_equal. lia.
Qed.

Lemma all_digits_pretty_N_go (x : N) (s : string) :
  all_digits s → all_digits (pretty_N_go x s).
Proof.
  revert s. induction (N.lt_wf_0 x) as [x _ IH]; intros s Hs.
  destruct (decide (x = 0)%N) as [->|Hx]; [by rewrite pretty_N_go_0|].
  rewrite pretty_N_go_step by lia. apply IH; [apply N.div_lt; lia|].
  split; [|done]. rewrite digit_of_pretty_N_char; [done|].
  apply N.mod_lt; lia.
Qed.

Lemma toString_pos (n : Z) :
  0 < n → toString n = pretty_N_go (Z.to_N n) "".
Proof. intros Hn. destruct n as [|p|p]; try lia. done. Qed.

Lemma all_digits_toString (n : Z) : 0 < n → all_digits (toString n).
Proof.
  intros Hn. rewrite toString_pos by done. by apply all_digits_pretty_N_go.
Qed.

Lemma parseInt_all_digits (s : string) :
  all_digits s → parseInt s = parse_digits s None.
Proof.
  destruct s as [|c s]; [done|]. intros [[d Hd] _]. unfold parseInt.
  destruct c as [[] [] [] [] [] [] [] []]; try done.
Qed.

(** [parseInt] reads back the numeral that [toString] printed. *)
Lemma parseInt_toString (n : Z) : 0 < n → parseInt (toString n) = Some n.
Proof.
  intros Hn. rewrite parseInt_all_digits by by apply all_digits_toString.
  rewrite toString_pos by done.
  destruct (parse_digits_pretty_N_go (Z.to_N n)) as [p Hp]; [lia|].
  rewrite Hp. simpl. f_equal. lia.
Qed.

Lemma toString_inj (m n : Z) : toString m = toString n → m = n.
Proof. apply (inj pretty). Qed.

(** A label made of digits ends at the first comma of what follows it. *)
Lemma all_digits_comma_inj (a b r r' : string) :
  all_digits a → all_digits b →
  a +:+ String ","%char r = b +:+ String ","%char r' → a = b.
Proof.
  revert b. induction a as [|c a IH]; intros [|c' b] Ha Hb Heq; simpl in *.
  - done.
  - injection Heq as <- _. by destruct Hb as [[? ?] _].
  - injection Heq as -> _. by destruct Ha as [[? ?] _].
  - injection Heq as -> Heq. f_equal. eapply IH; [tauto..|done].
Qed.

(** ** Folds over arrays *)

Lemma foldl_perm_comm {A B} (f : A → B → A) (l1 l2 : list B) :
  (∀ a x y, f (f a x) y = f (f a y) x) →
  l1 ≡ₚ l2 → ∀ a, foldl f a l1 = foldl f a l2.
Proof.
  intros Hf. induction 1 as [|x l1 l2 _ IH|x y l|l1 l2 l3 _ IH1 _ IH2];
    intros a; simpl; [done|apply IH|by rewrite Hf|].
  by rewrite IH1.
Qed.

Section insert_fold.
Context `{Countable K} {X : Type} (key : X → K).

Lemma insertAll_lookup {V} (val : X → V) m l i :
  insertAll key val m l !! i = from_option (Some ∘ val) (m !! i) (lastWith key i l).
Proof.
  unfold insertAll, lastWith.
  induction l as [|x l IH] using rev_ind; [done|].
  rewrite foldl_snoc, filter_app, filter_cons, filter_nil.
  destruct (decide (key x = i)) as [<-|Hne].
  - by rewrite lookup_insert_eq, last_snoc.
  - by rewrite lookup_insert_ne, app_nil_r.
Qed.

Lemma lastWith_Some i l x : lastWith key i l = Some x → x ∈ l ∧ key x = i.
Proof.
  unfold lastWith. intros Hl%last_Some_elem_of.
  apply list_elem_of_filter in Hl. tauto.
Qed.

Lemma lastWith_is_Some i l : is_Some (lastWith key i l) ↔ i ∈ key <$> l.
Proof.
  unfold lastWith. rewrite last_is_Some, list_elem_of_fmap. split.
  - intros Hne. destruct (filter _ l) as [|x l'] eqn:Hf; [done|].
    assert (x ∈ filter (λ x, key x = i) l) as Hx by (rewrite Hf; left).
    apply list_elem_of_filter in Hx as [<- ?]. eauto.
  - intros (x & -> & Hx) Hnil.
    assert (x ∈ filter (λ y, key y = key x) l) as Hin
      by by apply list_elem_of_filter.
    rewrite Hnil in Hin. by apply elem_of_nil in Hin.
Qed.

Lemma lastWith_None i l : lastWith key i l = None ↔ i ∉ key <$> l.
Proof.
  rewrite <-lastWith_is_Some, eq_None_not_Some. done.
Qed.

Lemma lastWith_NoDup l x :
  NoDup (key <$> l) → x ∈ l → lastWith key (key x) l = Some x.
Proof.
  intros Hnd Hx.
  destruct (lastWith key (key x) l) as [y|] eqn:Hl.
  - apply lastWith_Some in Hl as [Hy Hk]. f_equal.
    apply list_elem_of_lookup in Hx as [i Hi].
    apply list_elem_of_lookup in Hy as [j Hj].
    assert (i = j) as ->; [|congruence].
    apply (NoDup_lookup (key <$> l) i j (key x)); [done|..];
      rewrite list_lookup_fmap.
    + by rewrite Hi.
    + rewrite Hj. simpl. by rewrite Hk.
  - apply lastWith_None in Hl. destruct Hl. by apply list_elem_of_fmap_2.
Qed.

Lemma lastWith_perm i l l' :
  NoDup (key <$> l) → l ≡ₚ l' → lastWith key i l = lastWith key i l'.
Proof.
  intros Hnd Hperm.
  assert (NoDup (key <$> l')) as Hnd' by by rewrite <-Hperm.
  destruct (lastWith key i l) as [x|] eqn:Hl.
  - apply lastWith_Some in Hl as [Hx <-]. symmetry.
    apply lastWith_NoDup; [done|]. by rewrite <-Hperm.
  - symmetry. apply lastWith_None. rewrite <-Hperm.
    by apply lastWith_None.
Qed.

Lemma insertAll_perm {V} (val : X → V) l l' :
  NoDup (key <$> l) → l ≡ₚ l' → insertAll key val ∅ l = insertAll key val ∅ l'.
Proof.
  intros Hnd Hperm. apply map_eq. intros i.
  by rewrite !insertAll_lookup, (lastWith_perm i l l').
Qed.
End insert_fold.

(** ** Histograms *)

Lemma total_insert (c : gmap string Z) l v :
  c !! l = None → total (<[l := v]> c) = v + total c.
Proof. intros Hl. unfold total. rewrite map_fold_insert_L; [done| |done]. lia. Qed.

Lemma total_bump c l : total (bump c l) = total c + 1.
Proof.
  unfold bump. destruct (c !! l) as [v|] eqn:Hl; simpl.
  - rewrite <-(insert_delete_id c l v) at 2 by done.
    rewrite <-insert_delete_eq.
    rewrite !total_insert by apply lookup_delete_eq. lia.
  - rewrite total_insert by done. lia.
Qed.

Lemma total_bump_fold ls c :
  total (foldl bump c ls) = total c + Z.of_nat (length ls).
Proof.
  revert c. induction ls as [|l ls IH]; intros c; simpl; [lia|].
  rewrite IH, total_bump. lia.
Qed.

Lemma bump_comm c a b : bump (bump c a) b = bump (bump c b) a.
Proof.
  unfold bump. destruct (decide (a = b)) as [->|Hne]; [done|].
  rewrite !lookup_insert_ne by done. by apply insert_insert_ne.
Qed.

(** ** [areCountsEqual] *)

Lemma Object_keys_perm {V} (c : gmap string V) :
  Object_keys c ≡ₚ (map_to_list c).*1.
Proof. apply sort_with_perm. Qed.

Lemma Object_keys_elem_of {V} (c : gmap string V) k :
  k ∈ Object_keys c ↔ is_Some (c !! k).
Proof.
  rewrite Object_keys_perm, list_elem_of_fmap. split.
  - intros ([k' v] & -> & Hkv). apply elem_of_map_to_list in Hkv. eauto.
  - intros [v Hv]. exists (k, v). split; [done|].
    by apply elem_of_map_to_list.
Qed.

Lemma Object_keys_length {V} (c : gmap string V) :
  length (Object_keys c) = size c.
Proof. by rewrite Object_keys_perm, length_fmap, length_map_to_list. Qed.

(** [areCountsEqual] decides equality of the two histograms. *)
Lemma areCountsEqual_spec (c1 c2 : gmap string Z) :
  areCountsEqual c1 c2 = true ↔ c1 = c2.
Proof.
  unfold areCountsEqual. rewrite !Object_keys_length. split.
  - destruct (size c1 =? size c2)%nat eqn:Hsz; simpl; [|done].
    apply Nat.eqb_eq in Hsz. rewrite forallb_forall. intros Hall.
    apply map_subseteq_size_eq; [|lia].
    apply map_subseteq_spec. intros i v Hi.
    assert (bool_decide (c1 !! i = c2 !! i) = true) as Hd.
    { apply Hall, list_elem_of_In, Object_keys_elem_of. eauto. }
    apply bool_decide_eq_true in Hd. congruence.
  - intros <-. rewrite Nat.eqb_refl. simpl. apply forallb_forall.
    intros k _. by apply bool_decide_eq_true.
Qed.

(** ** [getAdjacencyList] *)

Lemma initial_adj_lookup (ns : list Node) (m : gmap string (list string)) i :
  foldl (λ adj n, <[node_id n := []]> adj) m ns !! i
  = if decide (i ∈ node_id <$> ns) then Some [] else m !! i.
Proof.
  revert m. induction ns as [|n ns IH]; intros m; simpl; [done|].
  rewrite IH. destruct (decide (i = node_id n)) as [->|Hne].
  - rewrite lookup_insert_eq.
    rewrite (decide_True (P := _ ∈ _ :: _)) by left.
    by destruct (decide _).
  - rewrite lookup_insert_ne by done.
    destruct (decide (i ∈ node_id <$> ns)) as [Hin|Hin].
    + by rewrite decide_True by by right.
    + rewrite decide_False; [done|].
      rewrite elem_of_cons. tauto.
Qed.

Lemma addLink_lookup ids adj l i :
  (∀ j, is_Some (adj !! j) ↔ j ∈ ids) →
  addLink adj l !! i
  = (λ ns, ns ++ (if decide (knownLink ids l) then pushes i l else []))
    <$> adj !! i.
Proof.
  intros Hdom. unfold addLink.
  destruct (decide (knownLink ids l)) as [[Hs Ht]|Hk].
  - rewrite decide_True by by rewrite !Hdom.
    rewrite !lookup_alter. unfold pushes.
    destruct (decide (source l = i)) as [Hsi|Hsi],
      (decide (target l = i)) as [Hti|Hti];
      rewrite ?Hsi, ?Hti; repeat case_decide; try congruence;
      destruct (adj !! i); simpl; by rewrite <-?(assoc_L (++)), ?app_nil_r.
  - rewrite decide_False by by rewrite !Hdom.
    destruct (adj !! i); simpl; by rewrite ?app_nil_r.
Qed.

Lemma addLink_fold_lookup ids links adj i :
  (∀ j, is_Some (adj !! j) ↔ j ∈ ids) →
  foldl addLink adj links !! i
  = (λ ns, ns ++ neighbourList ids links i) <$> adj !! i.
Proof.
  unfold neighbourList.
  revert adj. induction links as [|l links IH]; intros adj Hdom; simpl.
  { destruct (adj !! i); simpl; by rewrite ?app_nil_r. }
  rewrite IH.
  - rewrite (addLink_lookup ids) by done. rewrite filter_cons.
    destruct (decide (knownLink ids l)); destruct (adj !! i); simpl;
      by rewrite <-?(assoc_L (++)), ?app_nil_r.
  - intros j. rewrite (addLink_lookup ids) by done.
    by rewrite fmap_is_Some.
Qed.

(** The neighbour array of every node, in closed form. *)
Lemma getAdjacencyList_lookup (ns : list Node) (ls : list Link) i :
  getAdjacencyList ns ls !! i
  = if decide (i ∈ node_id <$> ns)
    then Some (neighbourList (node_id <$> ns) ls i) else None.
Proof.
  unfold getAdjacencyList.
  rewrite (addLink_fold_lookup (node_id <$> ns)).
  - rewrite initial_adj_lookup. by destruct (decide _).
  - intros j. rewrite initial_adj_lookup.
    destruct (decide _) as [Hin|Hin]; [by split; eauto|].
    rewrite lookup_empty. split; [by intros [? ?]|done].
Qed.

(** ** [processStep] in closed form *)

Lemma mint_fold k sm ml c sigs :
  k ≠ 0 →
  foldl (mint k) (sm, ml, c) sigs
  = (insertAll hm_signature hm_label sm (mintFrom c sigs),
     ml ++ mintFrom c sigs, c + Z.of_nat (length sigs)).
Proof.
  intros Hk. apply Z.eqb_neq in Hk.
  revert sm ml c. induction sigs as [|sig sigs IH]; intros sm ml c.
  { simpl. by rewrite app_nil_r, Z.add_0_r. }
  cbn [foldl mint]. rewrite Hk, IH. cbn [mintFrom length].
  rewrite <-(assoc_L (++)). f_equal. lia.
Qed.

Lemma mint_fold_0 st sigs : foldl (mint 0) st sigs = st.
Proof. induction sigs as [|sig sigs IH]; [done|]. by destruct st as [[??]?]. Qed.

Lemma mintFrom_signatures c sigs : hm_signature <$> mintFrom c sigs = sigs.
Proof.
  revert c. induction sigs as [|sig sigs IH]; intros c; [done|].
  simpl. by rewrite IH.
Qed.

Lemma mintFrom_labels c sigs :
  hm_label <$> mintFrom c sigs
  = toString <$> seqZ (c + 1) (Z.of_nat (length sigs)).
Proof.
  revert c. induction sigs as [|sig sigs IH]; intros c; [done|].
  cbn [mintFrom length fmap list_fmap].
  rewrite Nat2Z.inj_succ, seqZ_cons by lia.
  rewrite fmap_cons, Z.pred_succ. f_equal. apply IH.
Qed.

Lemma mintFrom_length c sigs : length (mintFrom c sigs) = length sigs.
Proof. by rewrite <-(mintFrom_signatures c sigs) at 2; rewrite length_fmap. Qed.

Lemma mintFrom_lookup c sigs i sig :
  sigs !! i = Some sig →
  mintFrom c sigs !! i
  = Some {| hm_signature := sig; hm_label := toString (c + 1 + Z.of_nat i);
            hm_color := getColorForLabel (toString (c + 1 + Z.of_nat i)) |}.
Proof.
  revert c i. induction sigs as [|s sigs IH]; intros c [|i] Hi; try done.
  - simpl in *. injection Hi as ->. by rewrite Z.add_0_r.
  - simpl in *. rewrite (IH (c + 1) i Hi).
    by replace (c + 1 + 1 + Z.of_nat i) with (c + 1 + Z.pos (Pos.of_succ_nat i))
      by lia.
Qed.

Lemma addInitial_fold initMap sm ml vals :
  foldl (addInitial initMap) (sm, ml) vals
  = (insertAll bracket (λ val, initMap !!! val) sm vals,
     ml ++ initialMappings initMap vals).
Proof.
  revert sm ml. induction vals as [|v vals IH]; intros sm ml.
  { simpl. by rewrite app_nil_r. }
  cbn [foldl addInitial]. rewrite IH. unfold initialMappings.
  rewrite fmap_cons, <-(assoc_L (++)). done.
Qed.

Lemma record_fold_A sm acc items :
  Forall (λ it, ns_graph it = GA) items →
  foldl (record sm) acc items
  = {| nextLabsA := insertAll ns_id (labelOf sm) (nextLabsA acc) items;
       nextLabsB := nextLabsB acc;
       accNodeDataA := insertAll ns_id (nodeDataOf sm) (accNodeDataA acc) items;
       accNodeDataB := accNodeDataB acc;
       countsA := foldl bump (countsA acc) (labelOf sm <$> items);
       countsB := countsB acc |}.
Proof.
  intros Hall. revert acc.
  induction Hall as [|it items Hit _ IH]; intros acc; [by destruct acc|].
  cbn [foldl]. rewrite IH. unfold record. by rewrite Hit.
Qed.

Lemma record_fold_B sm acc items :
  Forall (λ it, ns_graph it = GB) items →
  foldl (record sm) acc items
  = {| nextLabsA := nextLabsA acc;
       nextLabsB := insertAll ns_id (labelOf sm) (nextLabsB acc) items;
       accNodeDataA := accNodeDataA acc;
       accNodeDataB := insertAll ns_id (nodeDataOf sm) (accNodeDataB acc) items;
       countsA := countsA acc;
       countsB := foldl bump (countsB acc) (labelOf sm <$> items) |}.
Proof.
  intros Hall. revert acc.
  induction Hall as [|it items Hit _ IH]; intros acc; [by destruct acc|].
  cbn [foldl]. rewrite IH. unfold record. by rewrite Hit.
Qed.

Lemma nodeSig_graph k adj prev tag n : ns_graph (nodeSig k adj prev tag n) = tag.
Proof. unfold nodeSig. by destruct (k =? 0). Qed.

Lemma nodeSig_id k adj prev tag n : ns_id (nodeSig k adj prev tag n) = node_id n.
Proof. unfold nodeSig. by destruct (k =? 0). Qed.

Lemma generateSig_graph k ns adj prev tag :
  Forall (λ it, ns_graph it = tag) (generateSig k ns adj prev tag).
Proof.
  apply Forall_forall. intros it (n & -> & _)%list_elem_of_fmap.
  apply nodeSig_graph.
Qed.

Section step_facts.
Variables (gA gB : GraphData).
Variables (aA aB : gmap string (list string)).
Variables (sorted : list Z) (imap : gmap Z string).
Variables (kk c : Z) (pA pB : gmap string string).

Local Abbreviation sA := (sigsA gA aA kk pA).
Local Abbreviation sB := (sigsB gB aB kk pB).
Local Abbreviation uS := (uniqueSigs gA gB aA aB kk pA pB).
Local Abbreviation sm := (stepMap gA gB aA aB sorted imap kk c pA pB).
Local Abbreviation cA := (stepCountsA gA gB aA aB sorted imap kk c pA pB).
Local Abbreviation cB := (stepCountsB gA gB aA aB sorted imap kk c pA pB).

Lemma processStep_unfold lA lB :
  processStep gA gB aA aB sorted imap kk c lA lB pA pB
  = {| step :=
         {| k := kk;
            nodeDataA := insertAll ns_id (nodeDataOf sm) ∅ sA;
            nodeDataB := insertAll ns_id (nodeDataOf sm) ∅ sB;
            labelCountsA := cA;
            labelCountsB := cB;
            uniqueLabels :=
              Array_sort byParseInt
                (Array_from_Set
                   (Object_keys cA ++ Object_keys cB));
            mappings := stepMappings gA gB aA aB sorted imap kk c pA pB;
            isIsomorphicCandidate := areCountsEqual cA cB |};
       nextLabelsA := insertAll ns_id (labelOf sm) ∅ sA;
       nextLabelsB := insertAll ns_id (labelOf sm) ∅ sB;
       counterAfter :=
         if decide (kk = 0) then c else c + Z.of_nat (length uS) |}.
Proof.
  unfold processStep, stepCountsA, stepCountsB, stepMap, stepMappings.
  fold sA sB. fold uS.
  destruct (decide (kk = 0)) as [->|Hk].
  - rewrite mint_fold_0. cbn [Z.eqb]. rewrite addInitial_fold.
    cbv beta iota. rewrite foldl_app.
    rewrite (record_fold_A _ _ (sigsA gA aA 0 pA)) by apply generateSig_graph.
    rewrite (record_fold_B _ _ (sigsB gB aB 0 pB)) by apply generateSig_graph.
    done.
  - rewrite mint_fold by done.
    apply Z.eqb_neq in Hk. rewrite Hk.
    cbv beta iota. rewrite foldl_app.
    rewrite (record_fold_A _ _ sA) by apply generateSig_graph.
    rewrite (record_fold_B _ _ sB) by apply generateSig_graph.
    done.
Qed.
End step_facts.

(** ** The loop of [runWLAlgorithm] *)

Lemma runLoop_nonpos gA gB n : n ≤ 0 → runLoop gA gB n = afterStep0 gA gB.
Proof. intros Hn. unfold runLoop. by rewrite seqZ_nil. Qed.

Lemma runLoop_succ gA gB n :
  0 ≤ n → runLoop gA gB (n + 1) = iteration gA gB (runLoop gA gB n) (n + 1).
Proof.
  intros Hn. unfold runLoop.
  rewrite seqZ_app, foldl_app by lia.
  rewrite (seqZ_cons _ 1), (seqZ_nil (Z.succ _)) by lia.
  simpl. f_equal. lia.
Qed.

(** Induction over the loop: a property of the state that holds after
    step 0 and is kept by an iteration [kk ≥ 1] holds after the loop. *)
Lemma runLoop_ind gA gB (P : Z → LoopState → Prop) :
  P 0 (afterStep0 gA gB) →
  (∀ n st, 0 ≤ n → P n st → P (n + 1) (iteration gA gB st (n + 1))) →
  ∀ n, P (Z.max 0 n) (runLoop gA gB n).
Proof.
  intros H0 Hstep n. destruct (decide (n ≤ 0)) as [Hn|Hn].
  { rewrite runLoop_nonpos, Z.max_l by done. done. }
  rewrite Z.max_r by lia.
  assert (0 ≤ n) as Hn' by lia. clear Hn. revert n Hn'.
  apply natlike_ind.
  - by rewrite runLoop_nonpos.
  - intros n Hn IH. rewrite <-Z.add_1_r, runLoop_succ by done.
    by apply Hstep.
Qed.

(** ** Strings *)

Lemma string_length_app (s t : string) :
  String.length (s +:+ t) = (String.length s + String.length t)%nat.
Proof. induction s as [|c s IH]; simpl; [done|]. by rewrite IH. Qed.

Lemma string_app_inj_r (t s1 s2 : string) : s1 +:+ t = s2 +:+ t → s1 = s2.
Proof.
  revert s2. induction s1 as [|c s1 IH]; intros [|c' s2] Heq; simpl in Heq.
  - done.
  - apply (f_equal String.length) in Heq.
    rewrite ?string_length_app in Heq. simpl in Heq.
    rewrite ?string_length_app in Heq. lia.
  - apply (f_equal String.length) in Heq.
    rewrite ?string_length_app in Heq. simpl in Heq.
    rewrite ?string_length_app in Heq. lia.
  - injection Heq as -> Heq. f_equal. by apply IH.
Qed.

Lemma bracket_inj (a b : Z) : bracket a = bracket b → a = b.
Proof.
  unfold bracket. intros Heq%(inj (String.app "[")).
  by apply string_app_inj_r, toString_inj in Heq.
Qed.

(** ** More on [insertAll] *)

Section insert_fold_more.
Context `{Countable K} {X V : Type}.

Lemma insertAll_fmap {Y} (key : X → K) (val : X → V) (f : Y → X) m l :
  insertAll key val m (f <$> l) = insertAll (key ∘ f) (val ∘ f) m l.
Proof. unfold insertAll. by rewrite foldl_fmap. Qed.

Lemma insertAll_ext (key key' : X → K) (val val' : X → V) m l :
  (∀ x, x ∈ l → key x = key' x ∧ val x = val' x) →
  insertAll key val m l = insertAll key' val' m l.
Proof.
  unfold insertAll. revert m.
  induction l as [|x l IH]; intros m Hext; simpl; [done|].
  destruct (Hext x) as [-> ->]; [left|].
  apply IH. intros y Hy. apply Hext. by right.
Qed.

Lemma fmap_insertAll {W} (g : V → W) (key : X → K) (val : X → V) m l :
  g <$> insertAll key val m l = insertAll key (g ∘ val) (g <$> m) l.
Proof.
  unfold insertAll. revert m.
  induction l as [|x l IH]; intros m; simpl; [done|].
  by rewrite IH, fmap_insert.
Qed.

Lemma insertAll_lookup_NoDup (key : X → K) (val : X → V) l x :
  NoDup (key <$> l) → x ∈ l → insertAll key val ∅ l !! key x = Some (val x).
Proof.
  intros Hnd Hx. by rewrite insertAll_lookup, lastWith_NoDup.
Qed.

Lemma insertAll_lookup_None (key : X → K) (val : X → V) l i :
  i ∉ key <$> l → insertAll key val ∅ l !! i = None.
Proof.
  intros Hi. apply (lastWith_None key) in Hi.
  by rewrite insertAll_lookup, Hi.
Qed.

Lemma insertAll_is_Some (key : X → K) (val : X → V) l i :
  is_Some (insertAll key val ∅ l !! i) ↔ i ∈ key <$> l.
Proof.
  rewrite insertAll_lookup, <-(lastWith_is_Some key).
  destruct (lastWith key i l); simpl; [by split; eauto|].
  rewrite lookup_empty. done.
Qed.
End insert_fold_more.

(** ** The initialisation phase *)

Lemma initLabel_fold m c vals :
  foldl initLabel (m, c) vals
  = (insertAll fst snd m (numberFrom c vals), c + Z.of_nat (length vals)).
Proof.
  revert m c. induction vals as [|v vals IH]; intros m c.
  { simpl. by rewrite Z.add_0_r. }
  cbn [foldl initLabel]. rewrite IH. cbn [numberFrom length].
  f_equal. lia.
Qed.

Lemma numberFrom_fst c vals : (numberFrom c vals).*1 = vals.
Proof.
  revert c. induction vals as [|v vals IH]; intros c; [done|].
  simpl. by rewrite IH.
Qed.

Lemma numberFrom_lookup c vals i v :
  vals !! i = Some v →
  numberFrom c vals !! i = Some (v, toString (c + 1 + Z.of_nat i)).
Proof.
  revert c i. induction vals as [|w vals IH]; intros c [|i] Hi; try done.
  - simpl in *. injection Hi as ->. by rewrite Z.add_0_r.
  - simpl in *. rewrite (IH (c + 1) i Hi).
    by replace (c + 1 + 1 + Z.of_nat i) with (c + 1 + Z.pos (Pos.of_succ_nat i))
      by lia.
Qed.

Section init_facts.
Variables (gA gB : GraphData).

Lemma allInitialValues_elem_of v :
  v ∈ allInitialValues gA gB
  ↔ v ∈ originalLabel <$> nodes gA ∨ v ∈ originalLabel <$> nodes gB.
Proof.
  unfold allInitialValues. by rewrite Array_from_Set_elem_of, elem_of_app.
Qed.

Lemma sortedInitLabels_elem_of v :
  v ∈ sortedInitLabels gA gB
  ↔ v ∈ originalLabel <$> nodes gA ∨ v ∈ originalLabel <$> nodes gB.
Proof.
  unfold sortedInitLabels, Array_sort.
  by rewrite sort_with_elem_of, allInitialValues_elem_of.
Qed.

Lemma sortedInitLabels_NoDup : NoDup (sortedInitLabels gA gB).
Proof.
  unfold sortedInitLabels, Array_sort. rewrite sort_with_perm.
  apply Array_from_Set_NoDup.
Qed.

Lemma initPhase_eq :
  initPhase gA gB
  = (insertAll fst snd ∅ (numberFrom 0 (sortedInitLabels gA gB)),
     Z.of_nat (length (sortedInitLabels gA gB))).
Proof. unfold initPhase. by rewrite initLabel_fold. Qed.

(** The [i]-th smallest initial value is mapped to the numeral [i + 1]. *)
Lemma initLabelMap_lookup i v :
  sortedInitLabels gA gB !! i = Some v →
  initLabelMap gA gB !! v = Some (toString (1 + Z.of_nat i)).
Proof.
  intros Hi. unfold initLabelMap. rewrite initPhase_eq. simpl.
  pose proof (numberFrom_lookup 0 _ _ _ Hi) as Hn.
  apply (insertAll_lookup_NoDup fst snd _ (v, toString (0 + 1 + Z.of_nat i))).
  - rewrite numberFrom_fst. apply sortedInitLabels_NoDup.
  - by eapply list_elem_of_lookup_2.
Qed.

Lemma initLabelMap_total v :
  v ∈ sortedInitLabels gA gB →
  ∃ i, sortedInitLabels gA gB !! i = Some v
       ∧ initLabelMap gA gB !!! v = toString (1 + Z.of_nat i).
Proof.
  intros [i Hi]%list_elem_of_lookup. exists i. split; [done|].
  by rewrite lookup_total_alt, (initLabelMap_lookup i).
Qed.
End init_facts.

(** ** One refinement step *)

Lemma insertAll_generateSig {V} (val : NodeSig → V) kk ns ad p tag id :
  insertAll ns_id val ∅ (generateSig kk ns ad p tag) !! id
  = (λ n, val (nodeSig kk ad p tag n)) <$> lastWith node_id id ns.
Proof.
  unfold generateSig. rewrite insertAll_fmap.
  rewrite (insertAll_ext _ node_id _ (λ n, val (nodeSig kk ad p tag n))).
  - rewrite insertAll_lookup. by destruct (lastWith node_id id ns).
  - intros n _. split; [apply nodeSig_id|done].
Qed.

Section step_labels.
Variables (gA gB : GraphData).
Variables (aA aB : gmap string (list string)).
Variables (sorted : list Z) (imap : gmap Z string).
Variables (kk c : Z) (pA pB : gmap string string).

Local Abbreviation sA := (sigsA gA aA kk pA).
Local Abbreviation sB := (sigsB gB aB kk pB).
Local Abbreviation uS := (uniqueSigs gA gB aA aB kk pA pB).
Local Abbreviation sm := (stepMap gA gB aA aB sorted imap kk c pA pB).

Lemma uniqueSigs_NoDup : NoDup uS.
Proof.
  unfold uniqueSigs. rewrite Array_sort_default_perm.
  apply Array_from_Set_NoDup.
Qed.

Lemma uniqueSigs_elem_of sig :
  sig ∈ uS ↔ ∃ item, item ∈ sA ++ sB ∧ ns_signature item = sig.
Proof.
  unfold uniqueSigs.
  rewrite Array_sort_default_perm, Array_from_Set_elem_of, list_elem_of_fmap.
  split; intros (item & ? & ?); eauto.
Qed.

Lemma uniqueSigs_sorted :
  StronglySorted (λ a b, String.leb a b = true) uS.
Proof. apply Array_sort_default_sorted. Qed.

Hypothesis Hk : kk ≠ 0.

Lemma stepMap_lookup i sig :
  uS !! i = Some sig → sm !! sig = Some (toString (c + 1 + Z.of_nat i)).
Proof.
  intros Hi. unfold stepMap. rewrite decide_False by done.
  pose proof (mintFrom_lookup c _ _ _ Hi) as Hm.
  apply (insertAll_lookup_NoDup hm_signature hm_label (mintFrom c uS)
           (Build_HashMapping sig (toString (c + 1 + Z.of_nat i))
              (getColorForLabel (toString (c + 1 + Z.of_nat i))))).
  - rewrite mintFrom_signatures. apply uniqueSigs_NoDup.
  - by eapply list_elem_of_lookup_2.
Qed.

Lemma labelOf_item item :
  item ∈ sA ++ sB →
  ∃ i, uS !! i = Some (ns_signature item)
       ∧ labelOf sm item = toString (c + 1 + Z.of_nat i).
Proof.
  intros Hitem.
  assert (ns_signature item ∈ uS) as [i Hi]%list_elem_of_lookup
    by (apply uniqueSigs_elem_of; eauto).
  exists i. split; [done|].
  unfold labelOf. by rewrite lookup_total_alt, (stepMap_lookup i).
Qed.

(** Two nodes get the same new label only if they have the same
    signature. *)
Lemma labelOf_inj item1 item2 :
  item1 ∈ sA ++ sB → item2 ∈ sA ++ sB →
  labelOf sm item1 = labelOf sm item2 →
  ns_signature item1 = ns_signature item2.
Proof.
  intros (i & Hi & ->)%labelOf_item (j & Hj & ->)%labelOf_item Heq.
  apply toString_inj in Heq. assert (i = j) as -> by lia. congruence.
Qed.

Lemma stepMappings_nonzero :
  stepMappings gA gB aA aB sorted imap kk c pA pB = mintFrom c uS.
Proof. unfold stepMappings. by rewrite decide_False. Qed.
End step_labels.

(** ** Step 0 *)

Section step0.
Variables (gA gB : GraphData).
Variables (aA aB : gmap string (list string)).
Variables (c : Z) (pA pB : gmap string string).

Local Abbreviation sorted := (sortedInitLabels gA gB).
Local Abbreviation imap := (initLabelMap gA gB).
Local Abbreviation sm := (stepMap gA gB aA aB sorted imap 0 c pA pB).

Lemma stepMap0_lookup v :
  v ∈ sorted → sm !! bracket v = Some (imap !!! v).
Proof.
  intros Hv. unfold stepMap. rewrite decide_True by done.
  apply (insertAll_lookup_NoDup bracket (λ v, imap !!! v)); [|done].
  apply NoDup_fmap_2_strong; [|apply sortedInitLabels_NoDup].
  intros ?? _ _. apply bracket_inj.
Qed.

Lemma labelOf0 ad p tag n :
  originalLabel n ∈ sorted →
  labelOf sm (nodeSig 0 ad p tag n) = imap !!! originalLabel n.
Proof.
  intros Hn. unfold labelOf, nodeSig. change (0 =? 0) with true.
  cbn [ns_signature]. fold (bracket (originalLabel n)).
  by rewrite lookup_total_alt, stepMap0_lookup.
Qed.
End step0.

(** ** The sequence of steps as a trace *)

Lemma processStep_labelsA gA gB aA aB sorted imap kk c lA lB pA pB :
  labelsOf (nodeDataA (step (processStep gA gB aA aB sorted imap kk c lA lB pA pB)))
  = nextLabelsA (processStep gA gB aA aB sorted imap kk c lA lB pA pB).
Proof.
  rewrite processStep_unfold. cbn [step nodeDataA nextLabelsA].
  unfold labelsOf. by rewrite fmap_insertAll, fmap_empty.
Qed.

Lemma processStep_labelsB gA gB aA aB sorted imap kk c lA lB pA pB :
  labelsOf (nodeDataB (step (processStep gA gB aA aB sorted imap kk c lA lB pA pB)))
  = nextLabelsB (processStep gA gB aA aB sorted imap kk c lA lB pA pB).
Proof.
  rewrite processStep_unfold. cbn [step nodeDataB nextLabelsB].
  unfold labelsOf. by rewrite fmap_insertAll, fmap_empty.
Qed.

Lemma initialLabelsA_eq gA gB :
  initialLabelsA gA gB
  = insertAll node_id (λ n, initLabelMap gA gB !!! originalLabel n) ∅ (nodes gA).
Proof. done. Qed.

Lemma initialLabelsB_eq gA gB :
  initialLabelsB gA gB
  = insertAll node_id (λ n, initLabelMap gA gB !!! originalLabel n) ∅ (nodes gB).
Proof. done. Qed.

(** The labels of step 0 are the initial labels. *)
Lemma step0_labelsA gA gB :
  labelsOf (nodeDataA (step (result0 gA gB))) = initialLabelsA gA gB.
Proof.
  unfold result0, processStepOf. rewrite processStep_labelsA.
  rewrite processStep_unfold. cbn [nextLabelsA].
  rewrite initialLabelsA_eq. unfold sigsA, generateSig.
  rewrite insertAll_fmap. apply insertAll_ext. intros n Hn.
  unfold compose. split.
  - apply nodeSig_id.
  - apply labelOf0, sortedInitLabels_elem_of. left.
    by apply list_elem_of_fmap_2.
Qed.

Lemma step0_labelsB gA gB :
  labelsOf (nodeDataB (step (result0 gA gB))) = initialLabelsB gA gB.
Proof.
  unfold result0, processStepOf. rewrite processStep_labelsB.
  rewrite processStep_unfold. cbn [nextLabelsB].
  rewrite initialLabelsB_eq. unfold sigsB, generateSig.
  rewrite insertAll_fmap. apply insertAll_ext. intros n Hn.
  unfold compose. split.
  - apply nodeSig_id.
  - apply labelOf0, sortedInitLabels_elem_of. right.
    by apply list_elem_of_fmap_2.
Qed.

Lemma step0_mappings gA gB :
  mappings (step (result0 gA gB))
  = initialMappings (initLabelMap gA gB) (sortedInitLabels gA gB).
Proof.
  unfold result0, processStepOf. rewrite processStep_unfold.
  cbn [step mappings]. unfold stepMappings. by rewrite decide_True.
Qed.

Lemma allMappings_snoc ss s : allMappings (ss ++ [s]) = allMappings ss ++ mappings s.
Proof.
  unfold allMappings. rewrite bind_app. simpl. by rewrite app_nil_r.
Qed.

Lemma mintedSoFar_snoc ss s :
  mintedSoFar (ss ++ [s]) = mintedSoFar ss + Z.of_nat (length (mappings s)).
Proof.
  unfold mintedSoFar. rewrite allMappings_snoc, length_app. lia.
Qed.

Lemma afterStep0_inv gA gB : LoopInv gA gB 0 (afterStep0 gA gB).
Proof.
  split; cbn [afterStep0 ls_steps currentLabelsA currentLabelsB globalLabelCounter].
  - constructor.
  - unfold result0, processStepOf. by rewrite processStep_unfold.
  - exists (step (result0 gA gB)). split_and!; [done| |..].
    + unfold result0, processStepOf. by rewrite processStep_unfold.
    + by rewrite step0_labelsA.
    + by rewrite step0_labelsB.
  - unfold mintedSoFar, allMappings. simpl. rewrite app_nil_r.
    rewrite step0_mappings. unfold initialMappings. rewrite length_fmap.
    unfold result0, processStepOf. rewrite processStep_unfold.
    cbn [counterAfter]. rewrite decide_True by done.
    by rewrite initPhase_eq.
Qed.

Lemma iteration_inv gA gB n st :
  0 ≤ n → LoopInv gA gB n st →
  LoopInv gA gB (n + 1) (iteration gA gB st (n + 1)).
Proof.
  intros Hn [Htr Hks (s & Hlast & Hk & HlA & HlB) Hc].
  assert (step (processStep gA gB (adjA gA) (adjB gB)
                  (sortedInitLabels gA gB) (initLabelMap gA gB) (n + 1)
                  (globalLabelCounter st) (currentLabelsA st)
                  (currentLabelsB st) (currentLabelsA st) (currentLabelsB st))
          = nextStep gA gB (ls_steps st) s) as Hstep.
  { unfold nextStep, processStepOf. by rewrite Hk, Hc, HlA, HlB. }
  split; unfold iteration, loopBody;
    cbn [ls_steps currentLabelsA currentLabelsB globalLabelCounter].
  - rewrite Hstep. by constructor.
  - rewrite fmap_app, Hks, processStep_unfold. cbn [fmap list_fmap step k].
    rewrite (seqZ_app 0 (n + 1) 1) by lia. by f_equal.
  - eexists. split_and!; [apply last_snoc|..].
    + by rewrite processStep_unfold.
    + by rewrite processStep_labelsA.
    + by rewrite processStep_labelsB.
  - rewrite mintedSoFar_snoc, <-Hc. rewrite processStep_unfold.
    cbn [counterAfter step mappings].
    rewrite decide_False by lia.
    rewrite stepMappings_nonzero by lia. by rewrite mintFrom_length.
Qed.

Lemma runLoop_inv gA gB n : LoopInv gA gB (Z.max 0 n) (runLoop gA gB n).
Proof.
  apply (runLoop_ind gA gB (LoopInv gA gB)).
  - apply afterStep0_inv.
  - apply iteration_inv.
Qed.

Lemma runWLAlgorithm_Trace gA gB n : Trace gA gB (steps (runWLAlgorithm gA gB n)).
Proof. apply runLoop_inv. Qed.

Lemma Trace_Forall gA gB (P : WLStep → Prop) ss :
  (∀ kk c lA lB pA pB, P (step (processStepOf gA gB kk c lA lB pA pB))) →
  Trace gA gB ss → Forall P ss.
Proof.
  intros HP. induction 1 as [|ss s _ IH _].
  - repeat constructor. apply HP.
  - apply Forall_app. split; [done|]. repeat constructor. apply HP.
Qed.

(** ** Histogram comparison (claim C3) *)

(** C3.  At every step of the returned sequence, [isIsomorphicCandidate] is
    true exactly when the two histograms have the same keys with the same
    counts, that is when every label has the same entry (a count, or none)
    in [labelCountsA] and in [labelCountsB]. *)
Theorem candidate_iff_equal_histograms gA gB maxK :
  Forall (λ s, isIsomorphicCandidate s = true
               ↔ ∀ l, labelCountsA s !! l = labelCountsB s !! l)
         (steps (runWLAlgorithm gA gB maxK)).
Proof.
  apply (Trace_Forall gA gB); [|apply runWLAlgorithm_Trace].
  intros kk c lA lB pA pB. unfold processStepOf.
  rewrite processStep_unfold.
  cbn [step isIsomorphicCandidate labelCountsA labelCountsB].
  rewrite areCountsEqual_spec. split; [by intros ->|apply map_eq].
Qed.

(** ** The horizon (claim C8) *)

Lemma horizon_steps_aux gA gB maxK :
  k <$> steps (runWLAlgorithm gA gB maxK) = seqZ 0 (Z.max 0 maxK + 1)
  ∧ length (steps (runWLAlgorithm gA gB maxK)) = S (Z.to_nat maxK).
Proof.
  destruct (runLoop_inv gA gB maxK) as [_ Hks _ _].
  cbn [runWLAlgorithm steps]. split; [done|].
  rewrite <-(length_fmap k), Hks, length_seqZ. lia.
Qed.

(** C8, as amended.  [runWLAlgorithm] has no failure for the horizon: every
    call returns.  For [maxK >= 0] the returned sequence has exactly
    [maxK + 1] records, carrying [k = 0, 1, ..., maxK] in order; for
    [maxK < 0] the loop body never runs and the sequence is the single
    record of step 0. *)
Theorem horizon_steps gA gB maxK :
  ∃ r, call_runWLAlgorithm gA gB maxK = Returns r
       ∧ k <$> steps r = seqZ 0 (Z.max 0 maxK + 1)
       ∧ length (steps r) = S (Z.to_nat maxK).
Proof.
  eexists. split; [done|]. apply horizon_steps_aux.
Qed.

(** C8 as stated fails: with [maxK = -1] the call does not fail with
    [InvalidHorizon]; it returns one usable step. *)
Lemma negative_horizon_returns :
  call_runWLAlgorithm cyclesA cyclesB (-1) ≠ Throws "InvalidHorizon"
  ∧ ∃ r, call_runWLAlgorithm cyclesA cyclesB (-1) = Returns r
         ∧ length (steps r) = 1%nat.
Proof. split; [done|]. eexists. split; [done|]. done. Qed.

(** ** Links to unknown nodes (claim C7) *)

Lemma neighbourList_pruned ids ls i :
  neighbourList ids (filter (knownLink ids) ls) i = neighbourList ids ls i.
Proof.
  unfold neighbourList. f_equal.
  induction ls as [|l ls IH]; [done|].
  rewrite filter_cons. destruct (decide (knownLink ids l)); [|done].
  rewrite filter_cons, decide_True by done. by rewrite IH.
Qed.

Lemma getAdjacencyList_pruned ns ls :
  getAdjacencyList ns (filter (knownLink (node_id <$> ns)) ls)
  = getAdjacencyList ns ls.
Proof.
  apply map_eq. intros i. rewrite !getAdjacencyList_lookup.
  by rewrite neighbourList_pruned.
Qed.

(** The result depends on the links through the adjacency lists only. *)
Lemma runWLAlgorithm_adj gA gB gA' gB' maxK :
  nodes gA' = nodes gA → nodes gB' = nodes gB →
  adjA gA' = adjA gA → adjB gB' = adjB gB →
  runWLAlgorithm gA' gB' maxK = runWLAlgorithm gA gB maxK.
Proof.
  intros HnA HnB HaA HaB.
  unfold runWLAlgorithm, runLoop, iteration, afterStep0, result0,
    processStepOf, initialLabelsA, initialLabelsB, initLabelMap, initPhase,
    sortedInitLabels, allInitialValues, loopBody, processStep.
  by rewrite HnA, HnB, HaA, HaB.
Qed.

(** C7, as amended.  A link whose source or target is not a node id of its
    graph does not make the call fail: [getAdjacencyList] skips it, the call
    returns, and the result is the one for the graphs without such links. *)
Theorem dangling_links_ignored gA gB maxK :
  call_runWLAlgorithm gA gB maxK
  = Returns (runWLAlgorithm (pruneLinks gA) (pruneLinks gB) maxK)
  ∧ length (steps (runWLAlgorithm gA gB maxK)) = S (Z.to_nat maxK).
Proof.
  split.
  - unfold call_runWLAlgorithm. f_equal. symmetry.
    apply runWLAlgorithm_adj; try done;
      unfold adjA, adjB, pruneLinks; cbn [nodes links];
      apply getAdjacencyList_pruned.
  - destruct (horizon_steps_aux gA gB maxK) as [_ ?]. done.
Qed.

(** ** Conservation (claim C4) *)

Lemma bump_lookup c x l :
  bump c x !! l = if decide (x = l) then Some (default 0 (c !! x) + 1) else c !! l.
Proof.
  unfold bump. destruct (decide (x = l)) as [->|Hne].
  - by rewrite lookup_insert_eq.
  - by rewrite lookup_insert_ne.
Qed.

Lemma bump_fold_is_Some ls c l :
  is_Some (foldl bump c ls !! l) ↔ is_Some (c !! l) ∨ l ∈ ls.
Proof.
  revert c. induction ls as [|x ls IH]; intros c; simpl.
  { rewrite elem_of_nil. tauto. }
  rewrite IH, bump_lookup, elem_of_cons.
  destruct (decide (x = l)) as [->|Hne].
  - split; [auto|]. intros _. left. eauto.
  - split; [tauto|]. intros [?|[?|?]]; [tauto|congruence|tauto].
Qed.

Lemma total_empty : total ∅ = 0.
Proof. apply map_fold_empty. Qed.

Lemma generateSig_length kk ns ad p tag :
  length (generateSig kk ns ad p tag) = length ns.
Proof. apply length_fmap. Qed.

Lemma nodeData_counted sm kk ns ad p tag id d :
  insertAll ns_id (nodeDataOf sm) ∅ (generateSig kk ns ad p tag) !! id = Some d →
  nd_id d = id
  ∧ is_Some (foldl bump ∅ (labelOf sm <$> generateSig kk ns ad p tag)
             !! nd_label d).
Proof.
  rewrite insertAll_generateSig.
  destruct (lastWith node_id id ns) as [n|] eqn:Hl; [|done].
  apply lastWith_Some in Hl as [Hn <-]. intros [= <-]. split.
  - apply nodeSig_id.
  - apply bump_fold_is_Some. right. cbn [nd_label nodeDataOf].
    apply list_elem_of_fmap_2. unfold generateSig.
    by apply list_elem_of_fmap_2.
Qed.

Lemma nodeData_is_Some sm kk ns ad p tag id :
  is_Some (insertAll ns_id (nodeDataOf sm) ∅ (generateSig kk ns ad p tag) !! id)
  ↔ id ∈ node_id <$> ns.
Proof.
  by rewrite insertAll_generateSig, fmap_is_Some, lastWith_is_Some.
Qed.

(** C4.  At every step the counts of [labelCountsA] add up to the number
    of nodes of graph A and those of [labelCountsB] to the number of nodes of
    graph B; the keys of the per-graph node map of the step are exactly the
    node ids of the graph, each with one record (so with one label), and that
    label is a key of the histogram. *)
Theorem conservation gA gB maxK :
  Forall (conserved gA gB) (steps (runWLAlgorithm gA gB maxK)).
Proof.
  apply (Trace_Forall gA gB); [|apply runWLAlgorithm_Trace].
  intros kk c lA lB pA pB. unfold processStepOf, conserved.
  rewrite processStep_unfold.
  cbn [step labelCountsA labelCountsB nodeDataA nodeDataB].
  unfold stepCountsA, stepCountsB, sigsA, sigsB.
  rewrite !total_bump_fold, !length_fmap, !generateSig_length, total_empty.
  split_and!; try done.
  - apply nodeData_is_Some.
  - apply nodeData_is_Some.
  - apply nodeData_counted.
  - apply nodeData_counted.
Qed.

(** ** Uniqueness of label identifiers (claim C6) *)

Lemma initialMappings_labels gA gB :
  hm_label <$> initialMappings (initLabelMap gA gB) (sortedInitLabels gA gB)
  = toString <$> seqZ 1 (Z.of_nat (length (sortedInitLabels gA gB))).
Proof.
  apply list_eq. intros i. unfold initialMappings.
  rewrite <-list_fmap_compose, !list_lookup_fmap.
  destruct (sortedInitLabels gA gB !! i) as [v|] eqn:Hi; simpl.
  - rewrite lookup_seqZ_lt by (apply lookup_lt_Some in Hi; lia). simpl.
    by rewrite lookup_total_alt, (initLabelMap_lookup gA gB i).
  - rewrite lookup_seqZ_ge; [done|]. apply lookup_ge_None in Hi. lia.
Qed.

Lemma nextStep_mappings gA gB ss s :
  0 ≤ k s →
  mappings (nextStep gA gB ss s)
  = mintFrom (mintedSoFar ss)
      (uniqueSigs gA gB (adjA gA) (adjB gB) (k s + 1)
         (labelsOf (nodeDataA s)) (labelsOf (nodeDataB s))).
Proof.
  intros Hk. unfold nextStep, processStepOf. rewrite processStep_unfold.
  cbn [step mappings]. by rewrite stepMappings_nonzero by lia.
Qed.

Lemma nextStep_k gA gB ss s : k (nextStep gA gB ss s) = k s + 1.
Proof. unfold nextStep, processStepOf. by rewrite processStep_unfold. Qed.

Lemma Trace_k_nonneg gA gB ss :
  Trace gA gB ss → Forall (λ s, 0 ≤ k s) ss.
Proof.
  induction 1 as [|ss s _ IH Hlast].
  - repeat constructor. unfold result0, processStepOf.
    by rewrite processStep_unfold.
  - apply Forall_app. split; [done|]. repeat constructor.
    rewrite nextStep_k. apply last_Some_elem_of in Hlast.
    rewrite Forall_forall in IH. specialize (IH s Hlast). simpl in IH. lia.
Qed.

Lemma Trace_last_k_nonneg gA gB ss s :
  Trace gA gB ss → last ss = Some s → 0 ≤ k s.
Proof.
  intros Htr Hlast%last_Some_elem_of.
  apply Trace_k_nonneg in Htr. rewrite Forall_forall in Htr. by apply Htr.
Qed.

(** The identifiers handed out during the steps [ss] are the numerals
    1, 2, ..., in the order of the mappings. *)
Lemma Trace_labels gA gB ss :
  Trace gA gB ss →
  hm_label <$> allMappings ss = toString <$> seqZ 1 (mintedSoFar ss).
Proof.
  induction 1 as [|ss s Htr IH Hlast].
  - unfold mintedSoFar, allMappings. simpl. rewrite app_nil_r.
    rewrite step0_mappings, initialMappings_labels.
    unfold initialMappings. by rewrite length_fmap.
  - rewrite mintedSoFar_snoc, allMappings_snoc, fmap_app, IH.
    rewrite nextStep_mappings by by eapply Trace_last_k_nonneg.
    rewrite mintFrom_labels, mintFrom_length.
    rewrite (seqZ_app 1), fmap_app by (unfold mintedSoFar; lia).
    do 3 f_equal. lia.
Qed.

(** ** Labels are numerals *)

Lemma byParseInt_le m n :
  0 < m → 0 < n →
  cmp_le byParseInt (toString m) (toString n) = bool_decide (m ≤ n).
Proof.
  intros Hm Hn. unfold cmp_le, byParseInt.
  rewrite !parseInt_toString by done. simpl.
  destruct (Z.leb_spec (m - n) 0); symmetry.
  - apply bool_decide_eq_true. lia.
  - apply bool_decide_eq_false. lia.
Qed.

Lemma byParseInt_total a b :
  is_label a → is_label b →
  cmp_le byParseInt a b = true ∨ cmp_le byParseInt b a = true.
Proof.
  intros (m & Hm & ->) (n & Hn & ->). rewrite !byParseInt_le by done.
  rewrite !bool_decide_eq_true. lia.
Qed.

Lemma byParseInt_trans a b c :
  is_label a → is_label b → is_label c →
  cmp_le byParseInt a b = true → cmp_le byParseInt b c = true →
  cmp_le byParseInt a c = true.
Proof.
  intros (m & Hm & ->) (n & Hn & ->) (p & Hp & ->).
  rewrite !byParseInt_le by done. rewrite !bool_decide_eq_true. lia.
Qed.

Lemma byParseInt_antisym a b :
  is_label a → is_label b →
  cmp_le byParseInt a b = true → cmp_le byParseInt b a = true → a = b.
Proof.
  intros (m & Hm & ->) (n & Hn & ->). rewrite !byParseInt_le by done.
  rewrite !bool_decide_eq_true. intros ??. f_equal. lia.
Qed.

Lemma byParseInt_numLe a b :
  is_label a → is_label b → cmp_le byParseInt a b = true → numLe a b.
Proof.
  intros (m & Hm & ->) (n & Hn & ->). rewrite byParseInt_le by done.
  rewrite bool_decide_eq_true. intros Hle. exists m, n.
  by rewrite !parseInt_toString.
Qed.

(** Sorting labels with the comparator [parseInt(a) - parseInt(b)] puts
    them in ascending numeric order. *)
Lemma Array_sort_byParseInt_sorted ls :
  Forall is_label ls → StronglySorted numLe (Array_sort byParseInt ls).
Proof.
  intros Hls.
  assert (Forall is_label (Array_sort byParseInt ls)) as Hls'.
  { eapply Permutation_Forall; [symmetry; apply sort_with_perm|done]. }
  pose proof (sort_with_sorted (cmp_le byParseInt) is_label
                byParseInt_total byParseInt_trans ls Hls) as Hs.
  fold (Array_sort byParseInt ls) in Hs.
  induction Hs as [|a l Hs IH Ha]; [constructor|].
  apply Forall_cons in Hls' as [Hla Hl]. constructor; [by apply IH|].
  rewrite Forall_forall in Ha, Hl. apply Forall_forall. intros b Hb.
  apply byParseInt_numLe; auto.
Qed.

Lemma Array_sort_byParseInt_perm_eq l1 l2 :
  Forall is_label l1 → l1 ≡ₚ l2 →
  Array_sort byParseInt l1 = Array_sort byParseInt l2.
Proof.
  apply (sort_with_perm_eq _ is_label).
  - apply byParseInt_total.
  - apply byParseInt_trans.
  - apply byParseInt_antisym.
Qed.

Lemma labelled_is_label ids p id :
  labelled ids p → id ∈ ids → is_label (p !!! id).
Proof.
  intros Hp Hid. destruct (Hp id Hid) as (n & Hn & Hl).
  exists n. split; [lia|]. by rewrite lookup_total_alt, Hl.
Qed.

(** The neighbours of a node are nodes of the graph. *)
Lemma neighbourList_known ids ls i j : j ∈ neighbourList ids ls i → j ∈ ids.
Proof.
  unfold neighbourList. rewrite list_elem_of_bind.
  intros (l & Hj & [[Hs Ht] _]%list_elem_of_filter).
  unfold pushes in Hj. apply elem_of_app in Hj.
  destruct Hj as [Hj|Hj]; case_decide; try (by apply elem_of_nil in Hj);
    apply list_elem_of_singleton in Hj; by subst.
Qed.

Lemma adjacency_known ns ls i j :
  j ∈ default [] (getAdjacencyList ns ls !! i) → j ∈ node_id <$> ns.
Proof.
  rewrite getAdjacencyList_lookup.
  destruct (decide _); simpl; [apply neighbourList_known|].
  by intros ?%elem_of_nil.
Qed.

Lemma neighbour_labels ns ls p i :
  labelled (node_id <$> ns) p →
  Forall is_label
    ((λ nid, p !!! nid) <$> default [] (getAdjacencyList ns ls !! i)).
Proof.
  intros Hp. apply Forall_fmap, Forall_forall. intros j Hj.
  eapply labelled_is_label; [done|]. by eapply adjacency_known.
Qed.

Lemma initialLabels_labelled gA gB ns :
  (∀ n, n ∈ ns → originalLabel n ∈ sortedInitLabels gA gB) →
  labelled (node_id <$> ns)
    (insertAll node_id (λ n, initLabelMap gA gB !!! originalLabel n) ∅ ns).
Proof.
  intros Hns id Hid. rewrite insertAll_lookup.
  apply (lastWith_is_Some node_id) in Hid as [n Hl]. rewrite Hl. simpl.
  apply lastWith_Some in Hl as [Hn _].
  destruct (initLabelMap_total gA gB (originalLabel n)) as (i & _ & ->);
    [by apply Hns|].
  exists (1 + Z.of_nat i). split; [lia|done].
Qed.

Lemma step0_labelled gA gB :
  labelled (node_id <$> nodes gA) (labelsOf (nodeDataA (step (result0 gA gB))))
  ∧ labelled (node_id <$> nodes gB) (labelsOf (nodeDataB (step (result0 gA gB)))).
Proof.
  rewrite step0_labelsA, step0_labelsB, initialLabelsA_eq, initialLabelsB_eq.
  split; apply initialLabels_labelled; intros n Hn;
    apply sortedInitLabels_elem_of; [left|right]; by apply list_elem_of_fmap_2.
Qed.

Section next_labels.
Variables (gA gB : GraphData).
Variables (aA aB : gmap string (list string)).
Variables (sorted : list Z) (imap : gmap Z string).
Variables (kk c : Z) (pA pB : gmap string string).
Hypothesis Hk : kk ≠ 0.
Hypothesis Hc : 0 ≤ c.

Local Abbreviation sA := (sigsA gA aA kk pA).
Local Abbreviation sB := (sigsB gB aB kk pB).
Local Abbreviation sm := (stepMap gA gB aA aB sorted imap kk c pA pB).

Lemma nextLabels_labelled (g : GraphData) ad p tag :
  (∀ n, n ∈ nodes g → nodeSig kk ad p tag n ∈ sA ++ sB) →
  labelled (node_id <$> nodes g)
    (insertAll ns_id (labelOf sm) ∅ (generateSig kk (nodes g) ad p tag)).
Proof.
  intros Hin id Hid. rewrite insertAll_generateSig.
  apply (lastWith_is_Some node_id) in Hid as [n Hl]. rewrite Hl. simpl.
  apply lastWith_Some in Hl as [Hn _].
  destruct (labelOf_item gA gB aA aB sorted imap kk c pA pB Hk _ (Hin n Hn))
    as (i & _ & ->).
  exists (c + 1 + Z.of_nat i). split; [lia|done].
Qed.

Lemma nextLabelsA_labelled :
  labelled (node_id <$> nodes gA) (insertAll ns_id (labelOf sm) ∅ sA).
Proof.
  apply nextLabels_labelled. intros n Hn. apply elem_of_app. left.
  by apply list_elem_of_fmap_2.
Qed.

Lemma nextLabelsB_labelled :
  labelled (node_id <$> nodes gB) (insertAll ns_id (labelOf sm) ∅ sB).
Proof.
  apply nextLabels_labelled. intros n Hn. apply elem_of_app. right.
  by apply list_elem_of_fmap_2.
Qed.
End next_labels.

Lemma mintedSoFar_nonneg ss : 0 ≤ mintedSoFar ss.
Proof. unfold mintedSoFar. lia. Qed.

Lemma nextStep_labelled gA gB ss s :
  0 ≤ k s →
  labelled (node_id <$> nodes gA) (labelsOf (nodeDataA (nextStep gA gB ss s)))
  ∧ labelled (node_id <$> nodes gB) (labelsOf (nodeDataB (nextStep gA gB ss s))).
Proof.
  intros Hk. unfold nextStep, processStepOf.
  rewrite processStep_labelsA, processStep_labelsB, processStep_unfold.
  cbn [nextLabelsA nextLabelsB]. split.
  - apply nextLabelsA_labelled; [lia|apply mintedSoFar_nonneg].
  - apply nextLabelsB_labelled; [lia|apply mintedSoFar_nonneg].
Qed.

(** At every step all nodes of both graphs carry a label identifier. *)
Lemma Trace_labelled gA gB ss :
  Trace gA gB ss →
  Forall (λ s, labelled (node_id <$> nodes gA) (labelsOf (nodeDataA s))
               ∧ labelled (node_id <$> nodes gB) (labelsOf (nodeDataB s))) ss.
Proof.
  induction 1 as [|ss s Htr IH Hlast].
  - repeat constructor; apply step0_labelled.
  - apply Forall_app. split; [done|]. constructor; [|constructor].
    apply nextStep_labelled. by eapply Trace_last_k_nonneg.
Qed.

(** Two consecutive steps of a trace. *)
Lemma Trace_lookup_succ gA gB ss i s s' :
  Trace gA gB ss → ss !! i = Some s → ss !! S i = Some s' →
  s' = nextStep gA gB (take (S i) ss) s.
Proof.
  intros Htr. revert i s s'.
  induction Htr as [|ss l Htr IH Hlast]; intros i s s' Hi Hsi.
  { by destruct i. }
  destruct (decide (S i < length ss)%nat) as [Hlt|Hge].
  - rewrite lookup_app_l in Hi, Hsi by lia.
    rewrite take_app_le by lia. by apply IH.
  - assert (S i = length ss) as Hlen.
    { apply lookup_lt_Some in Hsi. rewrite length_app in Hsi. simpl in Hsi. lia. }
    rewrite lookup_app_l in Hi by lia.
    rewrite lookup_app_r, Hlen, Nat.sub_diag in Hsi by lia.
    injection Hsi as <-.
    rewrite Hlen, take_app_length.
    rewrite last_lookup in Hlast.
    replace (pred (length ss)) with i in Hlast by lia. congruence.
Qed.

Lemma nodeData_lookup_inv sm kk ns ad p tag id d :
  insertAll ns_id (nodeDataOf sm) ∅ (generateSig kk ns ad p tag) !! id = Some d →
  ∃ n, n ∈ ns ∧ node_id n = id ∧ d = nodeDataOf sm (nodeSig kk ad p tag n).
Proof.
  rewrite insertAll_generateSig.
  destruct (lastWith node_id id ns) as [n|] eqn:Hl; [|done].
  apply lastWith_Some in Hl as [Hn Hid]. intros [= <-]. eauto.
Qed.

(** The label given to a node at a step is one of the identifiers listed
    in the mappings of that step, next to the signature of the node when the
    step is a refinement step. *)
Lemma step_label_minted gA gB kk c lA lB pA pB id d :
  let s := step (processStepOf gA gB kk c lA lB pA pB) in
  nodeDataA s !! id = Some d ∨ nodeDataB s !! id = Some d →
  ∃ m, m ∈ mappings s ∧ hm_label m = nd_label d
       ∧ (kk ≠ 0 → hm_signature m = nd_signature d).
Proof.
  unfold processStepOf. rewrite processStep_unfold.
  cbn [step nodeDataA nodeDataB mappings]. intros Hd.
  set (sA := sigsA gA (adjA gA) kk pA) in *.
  set (sB := sigsB gB (adjB gB) kk pB) in *.
  assert (∃ n tag ad p, (n ∈ nodes gA ∨ n ∈ nodes gB)
            ∧ nodeSig kk ad p tag n ∈ sA ++ sB
            ∧ d = nodeDataOf
                    (stepMap gA gB (adjA gA) (adjB gB) (sortedInitLabels gA gB)
                       (initLabelMap gA gB) kk c pA pB)
                    (nodeSig kk ad p tag n))
    as (n & tag & ad & p & Hn & Hitem & ->).
  { destruct Hd as [Hd|Hd];
      apply nodeData_lookup_inv in Hd as (n & Hn & _ & ->);
      exists n; do 3 eexists; (split; [|split; [|done]]); auto;
      apply elem_of_app; [left|right]; by apply list_elem_of_fmap_2. }
  cbn [nodeDataOf nd_label nd_signature].
  destruct (decide (kk = 0)) as [->|Hk].
  - assert (originalLabel n ∈ sortedInitLabels gA gB) as Hv.
    { apply sortedInitLabels_elem_of.
      destruct Hn; [left|right]; by apply list_elem_of_fmap_2. }
    rewrite labelOf0 by done. unfold stepMappings. rewrite decide_True by done.
    eexists. split; [|split; [|done]].
    + unfold initialMappings. by apply list_elem_of_fmap_2.
    + done.
  - destruct (labelOf_item gA gB _ _ (sortedInitLabels gA gB)
                (initLabelMap gA gB) kk c pA pB Hk _ Hitem) as (i & Hi & ->).
    rewrite stepMappings_nonzero by done.
    pose proof (mintFrom_lookup c _ _ _ Hi) as Hm.
    eexists. split; [by eapply list_elem_of_lookup_2|]. done.
Qed.

(** Inside a step, two nodes (of either graph) with the same label have the
    same signature. *)
Lemma step_label_signature gA gB kk c lA lB pA pB id d id' d' :
  let s := step (processStepOf gA gB kk c lA lB pA pB) in
  nodeDataA s !! id = Some d ∨ nodeDataB s !! id = Some d →
  nodeDataA s !! id' = Some d' ∨ nodeDataB s !! id' = Some d' →
  nd_label d = nd_label d' → nd_signature d = nd_signature d'.
Proof.
  unfold processStepOf. rewrite processStep_unfold.
  cbn [step nodeDataA nodeDataB]. intros Hd Hd'.
  set (sA := sigsA gA (adjA gA) kk pA) in *.
  set (sB := sigsB gB (adjB gB) kk pB) in *.
  set (sm := stepMap _ _ _ _ _ _ _ _ _ _) in *.
  assert (∀ id d,
            insertAll ns_id (nodeDataOf sm) ∅ sA !! id = Some d
            ∨ insertAll ns_id (nodeDataOf sm) ∅ sB !! id = Some d →
            ∃ n tag ad p, (n ∈ nodes gA ∨ n ∈ nodes gB)
              ∧ nodeSig kk ad p tag n ∈ sA ++ sB
              ∧ d = nodeDataOf sm (nodeSig kk ad p tag n)) as Hitem.
  { intros i e [He|He];
      apply nodeData_lookup_inv in He as (n & Hn & _ & ->);
      exists n; do 3 eexists; (split; [|split; [|done]]); auto;
      apply elem_of_app; [left|right]; by apply list_elem_of_fmap_2. }
  destruct (Hitem id d Hd) as (n & tag & ad & p & Hn & Hin & ->).
  destruct (Hitem id' d' Hd') as (n' & tag' & ad' & p' & Hn' & Hin' & ->).
  cbn [nodeDataOf nd_label nd_signature]. subst sm.
  destruct (decide (kk = 0)) as [->|Hk].
  - assert (∀ m, m ∈ nodes gA ∨ m ∈ nodes gB →
              originalLabel m ∈ sortedInitLabels gA gB) as Hv.
    { intros m Hm. apply sortedInitLabels_elem_of.
      destruct Hm; [left|right]; by apply list_elem_of_fmap_2. }
    rewrite !labelOf0 by auto.
    destruct (initLabelMap_total gA gB _ (Hv n Hn)) as (i & Hi & ->).
    destruct (initLabelMap_total gA gB _ (Hv n' Hn')) as (j & Hj & ->).
    intros Heq%toString_inj. assert (i = j) as -> by lia.
    unfold nodeSig. change (0 =? 0) with true. cbn [ns_signature].
    congruence.
  - by apply labelOf_inj.
Qed.

(** C6.  The identifiers listed in the mappings of all the steps of a run,
    taken in order, are the numerals 1, 2, 3, ... without repetition: inside
    a step two signatures never share an identifier, and an identifier
    handed out at one step does not appear in the mappings of another step.
    The label of a node at a step is always an identifier of the mappings of
    that same step, and inside a step two nodes with the same label have the
    same signature. *)
Theorem label_ids_unique gA gB maxK :
  let ss := steps (runWLAlgorithm gA gB maxK) in
  NoDup (hm_label <$> allMappings ss)
  ∧ hm_label <$> allMappings ss = toString <$> seqZ 1 (mintedSoFar ss)
  ∧ Forall (λ s, ∀ id d,
              nodeDataA s !! id = Some d ∨ nodeDataB s !! id = Some d →
              nd_label d ∈ hm_label <$> mappings s) ss
  ∧ Forall (λ s, ∀ id d id' d',
              nodeDataA s !! id = Some d ∨ nodeDataB s !! id = Some d →
              nodeDataA s !! id' = Some d' ∨ nodeDataB s !! id' = Some d' →
              nd_label d = nd_label d' → nd_signature d = nd_signature d') ss.
Proof.
  intros ss. pose proof (runWLAlgorithm_Trace gA gB maxK) as Htr. fold ss in Htr.
  pose proof (Trace_labels gA gB ss Htr) as Hl. split_and!.
  - rewrite Hl. apply NoDup_fmap_2_strong; [|apply NoDup_seqZ].
    intros ?? _ _. apply toString_inj.
  - done.
  - apply (Trace_Forall gA gB); [|done].
    intros kk c lA lB pA pB id d Hd.
    destruct (step_label_minted gA gB kk c lA lB pA pB id d Hd)
      as (m & Hm & <- & _).
    by apply list_elem_of_fmap_2.
  - apply (Trace_Forall gA gB); [|done].
    intros kk c lA lB pA pB id d id' d'.
    apply step_label_signature.
Qed.

(** ** Signatures of a refinement step (claim C2) *)

Lemma nodeSig_nonzero kk ad p tag n :
  kk ≠ 0 →
  nodeSig kk ad p tag n
  = let nl := Array_sort byParseInt
                ((λ nid, p !!! nid) <$> default [] (ad !! node_id n)) in
    {| ns_graph := tag; ns_id := node_id n;
       ns_signature := signatureString (p !!! node_id n) nl;
       ns_expanded := {| self := p !!! node_id n; neighbors := nl |} |}.
Proof. intros Hk%Z.eqb_neq. unfold nodeSig. by rewrite Hk. Qed.

Lemma nodeSig_nonzero_same_id kk ad p tag n n' :
  kk ≠ 0 → node_id n = node_id n' →
  nodeSig kk ad p tag n = nodeSig kk ad p tag n'.
Proof. intros Hk Hid. rewrite !nodeSig_nonzero by done. by rewrite Hid. Qed.

Lemma nodeData_signedBy sm kk ns ls p id d :
  kk ≠ 0 → labelled (node_id <$> ns) p →
  insertAll ns_id (nodeDataOf sm) ∅
    (generateSig kk ns (getAdjacencyList ns ls) p GA) !! id = Some d
  ∨ insertAll ns_id (nodeDataOf sm) ∅
      (generateSig kk ns (getAdjacencyList ns ls) p GB) !! id = Some d →
  signedBy (getAdjacencyList ns ls) p id d.
Proof.
  intros Hk Hp Hd.
  assert (∃ n tag, n ∈ ns ∧ node_id n = id
            ∧ d = nodeDataOf sm (nodeSig kk (getAdjacencyList ns ls) p tag n))
    as (n & tag & Hn & <- & ->).
  { destruct Hd as [Hd|Hd];
      apply nodeData_lookup_inv in Hd as (n & ? & ? & ?); eauto. }
  rewrite nodeSig_nonzero by done. unfold signedBy.
  cbn [nodeDataOf nd_expandedSignature nd_signature ns_expanded ns_signature
       self neighbors].
  assert (node_id n ∈ node_id <$> ns) as Hid by by apply list_elem_of_fmap_2.
  split_and!.
  - destruct (Hp _ Hid) as (m & _ & Hm). by rewrite lookup_total_alt, Hm.
  - apply Forall_forall. intros j Hj%adjacency_known.
    destruct (Hp _ Hj) as (m & _ & Hm). eauto.
  - apply sort_with_perm.
  - by eapply Array_sort_byParseInt_sorted, neighbour_labels.
  - done.
Qed.

Lemma String_leb_ne_ltb (a b : string) :
  String.leb a b = true → a ≠ b → String.ltb a b = true.
Proof.
  unfold String.leb, String.ltb. intros Hle Hne.
  destruct (String.compare a b) eqn:Hc; try done.
  by apply String.compare_eq_iff in Hc.
Qed.

Lemma sorted_NoDup_strict (l : list string) :
  StronglySorted (λ a b, String.leb a b = true) l → NoDup l →
  StronglySorted (λ a b, String.ltb a b = true) l.
Proof.
  induction 1 as [|a l Hs IH Ha]; intros Hnd; [constructor|].
  apply NoDup_cons in Hnd as [Hal Hnd]. constructor; [by apply IH|].
  rewrite Forall_forall in Ha. apply Forall_forall. intros b Hb.
  apply String_leb_ne_ltb; [by apply Ha|]. by intros ->.
Qed.

Lemma nextStep_refines gA gB ss s :
  0 ≤ k s →
  labelled (node_id <$> nodes gA) (labelsOf (nodeDataA s)) →
  labelled (node_id <$> nodes gB) (labelsOf (nodeDataB s)) →
  refines gA gB (mintedSoFar ss) s (nextStep gA gB ss s).
Proof.
  intros Hk HlA HlB. assert (k s + 1 ≠ 0) as Hk1 by lia.
  unfold refines. split_and!.
  - intros id d Hd. unfold nextStep, processStepOf in Hd.
    rewrite processStep_unfold in Hd. cbn [step nodeDataA] in Hd.
    eapply nodeData_signedBy; [done..|]. left. exact Hd.
  - intros id d Hd. unfold nextStep, processStepOf in Hd.
    rewrite processStep_unfold in Hd. cbn [step nodeDataB] in Hd.
    eapply nodeData_signedBy; [done..|]. right. exact Hd.
  - intros sig. rewrite nextStep_mappings, mintFrom_signatures by done.
    rewrite uniqueSigs_elem_of. unfold nextStep, processStepOf.
    rewrite processStep_unfold. cbn [step nodeDataA nodeDataB].
    set (sm := stepMap _ _ _ _ _ _ _ _ _ _). split.
    + intros (item & Hitem & <-). apply elem_of_app in Hitem.
      destruct Hitem as [Hitem|Hitem];
        apply list_elem_of_fmap in Hitem as (n & -> & Hn);
        exists (node_id n).
      * assert (node_id n ∈ node_id <$> nodes gA) as Hid
          by by apply list_elem_of_fmap_2.
        apply (nodeData_is_Some sm (k s + 1) _ (adjA gA)
                 (labelsOf (nodeDataA s)) GA) in Hid as [d Hd].
        exists d. split; [by left|].
        apply nodeData_lookup_inv in Hd as (n' & _ & Hid & ->).
        cbn [nodeDataOf nd_signature].
        by rewrite (nodeSig_nonzero_same_id _ _ _ _ n' n).
      * assert (node_id n ∈ node_id <$> nodes gB) as Hid
          by by apply list_elem_of_fmap_2.
        apply (nodeData_is_Some sm (k s + 1) _ (adjB gB)
                 (labelsOf (nodeDataB s)) GB) in Hid as [d Hd].
        exists d. split; [by right|].
        apply nodeData_lookup_inv in Hd as (n' & _ & Hid & ->).
        cbn [nodeDataOf nd_signature].
        by rewrite (nodeSig_nonzero_same_id _ _ _ _ n' n).
    + intros (id & d & [Hd|Hd] & <-);
        apply nodeData_lookup_inv in Hd as (n & Hn & _ & ->);
        eexists; (split; [|done]); apply elem_of_app; [left|right];
        by apply list_elem_of_fmap_2.
  - rewrite nextStep_mappings, mintFrom_signatures by done.
    apply sorted_NoDup_strict; [apply uniqueSigs_sorted|apply uniqueSigs_NoDup].
  - rewrite nextStep_mappings by done.
    rewrite mintFrom_length. apply mintFrom_labels.
  - intros id d Hd.
    destruct (step_label_minted gA gB _ _ _ _ _ _ id d Hd) as (m & ? & ? & Hs).
    exists m. split_and!; [done| |done]. by apply Hs.
Qed.

Lemma nextStep_everyNodeSigned gA gB ss s :
  0 ≤ k s →
  labelled (node_id <$> nodes gA) (labelsOf (nodeDataA s)) →
  labelled (node_id <$> nodes gB) (labelsOf (nodeDataB s)) →
  everyNodeSigned gA gB s (nextStep gA gB ss s).
Proof.
  intros Hk HlA HlB.
  destruct (nextStep_refines gA gB ss s Hk HlA HlB)
    as (HsA & HsB & Hsig & _).
  assert (∀ id, is_Some (nodeDataA (nextStep gA gB ss s) !! id)
                ↔ id ∈ node_id <$> nodes gA) as HkA.
  { intros id. unfold nextStep, processStepOf. rewrite processStep_unfold.
    cbn [step nodeDataA]. apply nodeData_is_Some. }
  assert (∀ id, is_Some (nodeDataB (nextStep gA gB ss s) !! id)
                ↔ id ∈ node_id <$> nodes gB) as HkB.
  { intros id. unfold nextStep, processStepOf. rewrite processStep_unfold.
    cbn [step nodeDataB]. apply nodeData_is_Some. }
  assert (∀ id d, nodeDataA (nextStep gA gB ss s) !! id = Some d
                  ∨ nodeDataB (nextStep gA gB ss s) !! id = Some d →
                  nd_id d = id) as Hid.
  { intros id d. unfold nextStep, processStepOf. rewrite processStep_unfold.
    cbn [step nodeDataA nodeDataB].
    intros [(n & _ & <- & ->)%nodeData_lookup_inv
           |(n & _ & <- & ->)%nodeData_lookup_inv]; apply nodeSig_id. }
  unfold everyNodeSigned. split_and!.
  - intros n Hn.
    destruct (proj2 (HkA (node_id n))) as [d Hd];
      [by apply list_elem_of_fmap_2|].
    exists d. split_and!; [done|apply Hid; by left|by apply HsA].
  - intros n Hn.
    destruct (proj2 (HkB (node_id n))) as [d Hd];
      [by apply list_elem_of_fmap_2|].
    exists d. split_and!; [done|apply Hid; by right|by apply HsB].
  - intros id. apply HkA.
  - intros id. apply HkB.
  - intros sig. rewrite Hsig. split.
    + intros (id & d & [Hd|Hd] & Hs).
      * left. assert (id ∈ node_id <$> nodes gA) as Hin by (apply HkA; eauto).
        apply list_elem_of_fmap in Hin as (n & -> & Hn). eauto.
      * right. assert (id ∈ node_id <$> nodes gB) as Hin by (apply HkB; eauto).
        apply list_elem_of_fmap in Hin as (n & -> & Hn). eauto.
    + intros [(n & d & _ & Hd & Hs)|(n & d & _ & Hd & Hs)]; eauto 6.
Qed.

(** C2.  For two consecutive steps [s] (at index [i]) and [s'] (at index
    [i + 1], a refinement step) of the returned sequence: every node of
    graph A and of graph B has a record at [s'], filed under its id, and
    there is no other record; that record carries the signature built from
    the node's own label at [s] and the labels at [s] of its neighbours,
    that list being in ascending numeric order of the labels; the signatures
    of the mappings of [s'] are exactly the signatures of the nodes of both
    graphs, without repetition and in ascending lexicographic order; their
    identifiers are the next values of the counter, in that order; and each
    node is labelled with the identifier listed next to its signature. *)
Theorem refinement_step_signatures gA gB maxK i s s' :
  let ss := steps (runWLAlgorithm gA gB maxK) in
  ss !! i = Some s → ss !! S i = Some s' →
  k s' = Z.of_nat (S i)
  ∧ everyNodeSigned gA gB s s'
  ∧ refines gA gB (mintedSoFar (take (S i) ss)) s s'.
Proof.
  intros ss Hi Hsi.
  pose proof (runWLAlgorithm_Trace gA gB maxK) as Htr. fold ss in Htr.
  pose proof (Trace_lookup_succ gA gB ss i s s' Htr Hi Hsi) as ->.
  pose proof (Trace_labelled gA gB ss Htr) as Hl.
  rewrite Forall_forall in Hl.
  destruct (Hl s) as [HlA HlB]; [by eapply list_elem_of_lookup_2|].
  destruct (horizon_steps_aux gA gB maxK) as [Hks _]. fold ss in Hks.
  assert (k s = Z.of_nat i) as Hk.
  { apply (f_equal (λ l, l !! i)) in Hks.
    rewrite list_lookup_fmap, Hi in Hks. simpl in Hks. symmetry in Hks.
    apply lookup_seqZ in Hks as [-> _]. lia. }
  split_and!.
  - rewrite nextStep_k. lia.
  - apply nextStep_everyNodeSigned; [lia|done..].
  - apply nextStep_refines; [lia|done..].
Qed.

(** ** Refinement never merges classes (claim C5) *)

Lemma NoDup_fmap_elem_inj {A B} (f : A → B) (l : list A) x y :
  NoDup (f <$> l) → x ∈ l → y ∈ l → f x = f y → x = y.
Proof.
  intros Hnd [i Hi]%list_elem_of_lookup [j Hj]%list_elem_of_lookup Hf.
  assert (i = j) as ->; [|congruence].
  apply (NoDup_lookup (f <$> l) i j (f x)); [done|..];
    rewrite list_lookup_fmap.
  - by rewrite Hi.
  - rewrite Hj. simpl. by rewrite Hf.
Qed.

Lemma signatureString_self_inj a b l l' :
  is_label a → is_label b →
  signatureString a l = signatureString b l' → a = b.
Proof.
  intros (m & Hm & ->) (n & Hn & ->). unfold signatureString.
  intros Heq%(inj (String.app "(")).
  eapply (all_digits_comma_inj _ _ ("[" +:+ join "," l +:+ "])")
            ("[" +:+ join "," l' +:+ "])"));
    [by apply all_digits_toString..|exact Heq].
Qed.

(** One refinement step: two nodes that receive the same label had the
    same label before. *)
Lemma refines_never_merges gA gB c s s' t1 t2 id1 id2 :
  refines gA gB c s s' →
  labelled (node_id <$> nodes gA) (labelsOf (nodeDataA s)) →
  labelled (node_id <$> nodes gB) (labelsOf (nodeDataB s)) →
  id1 ∈ nodeIds gA gB t1 → id2 ∈ nodeIds gA gB t2 →
  is_Some (labelAt s' t1 id1) →
  labelAt s' t1 id1 = labelAt s' t2 id2 →
  labelAt s t1 id1 = labelAt s t2 id2.
Proof.
  intros (HsA & HsB & _ & _ & Hlab & Hmint) HlA HlB Hid1 Hid2 [l Hl1] Heq.
  assert (labelAt s' t2 id2 = Some l) as Hl2 by congruence.
  unfold labelAt, labelsOf in Hl1, Hl2.
  rewrite lookup_fmap in Hl1, Hl2.
  destruct (nodeDataAt s' t1 !! id1) as [d1|] eqn:Hd1; [|done].
  destruct (nodeDataAt s' t2 !! id2) as [d2|] eqn:Hd2; [|done].
  simpl in Hl1, Hl2. injection Hl1 as Hl1. injection Hl2 as Hl2.
  assert (∀ t id d, id ∈ nodeIds gA gB t → nodeDataAt s' t !! id = Some d →
            (nodeDataA s' !! id = Some d ∨ nodeDataB s' !! id = Some d)
            ∧ labelAt s t id = Some (self (nd_expandedSignature d))
            ∧ is_label (self (nd_expandedSignature d))
            ∧ nd_signature d
              = signatureString (self (nd_expandedSignature d))
                  (neighbors (nd_expandedSignature d))) as Hsig.
  { intros t id d Hid Hd. destruct t; simpl in Hd, Hid.
    - destruct (HsA id d Hd) as (Hself & _ & _ & _ & Hsg).
      split_and!; [by left|done| |done].
      destruct (HlA id Hid) as (n & Hn & Hp). exists n. split; [done|].
      congruence.
    - destruct (HsB id d Hd) as (Hself & _ & _ & _ & Hsg).
      split_and!; [by right|done| |done].
      destruct (HlB id Hid) as (n & Hn & Hp). exists n. split; [done|].
      congruence. }
  destruct (Hsig t1 id1 d1 Hid1 Hd1) as (Hin1 & -> & Hlb1 & Hsg1).
  destruct (Hsig t2 id2 d2 Hid2 Hd2) as (Hin2 & -> & Hlb2 & Hsg2).
  destruct (Hmint id1 d1 Hin1) as (m1 & Hm1 & Hms1 & Hml1).
  destruct (Hmint id2 d2 Hin2) as (m2 & Hm2 & Hms2 & Hml2).
  assert (m1 = m2) as <-.
  { apply (NoDup_fmap_elem_inj hm_label (mappings s'));
      [|done|done|by rewrite Hml1, Hml2, Hl1, Hl2].
    rewrite Hlab. apply NoDup_fmap_2_strong; [|apply NoDup_seqZ].
    intros ?? _ _. apply toString_inj. }
  f_equal. eapply signatureString_self_inj; [done..|].
  by rewrite <-Hsg1, <-Hsg2, <-Hms1.
Qed.

Lemma Trace_labelAt_is_Some gA gB ss s t id :
  Trace gA gB ss → s ∈ ss → id ∈ nodeIds gA gB t → is_Some (labelAt s t id).
Proof.
  intros Htr Hs Hid. apply Trace_labelled in Htr.
  rewrite Forall_forall in Htr. destruct (Htr s Hs) as [HlA HlB].
  unfold labelAt. destruct t; simpl in *.
  - destruct (HlA id Hid) as (n & _ & ->). eauto.
  - destruct (HlB id Hid) as (n & _ & ->). eauto.
Qed.

Lemma Trace_never_merges gA gB ss t1 t2 id1 id2 :
  Trace gA gB ss →
  id1 ∈ nodeIds gA gB t1 → id2 ∈ nodeIds gA gB t2 →
  ∀ d i si sj,
    ss !! i = Some si → ss !! (i + S d)%nat = Some sj →
    labelAt sj t1 id1 = labelAt sj t2 id2 →
    labelAt si t1 id1 = labelAt si t2 id2.
Proof.
  intros Htr Hid1 Hid2.
  assert (∀ i s s', ss !! i = Some s → ss !! S i = Some s' →
            labelAt s' t1 id1 = labelAt s' t2 id2 →
            labelAt s t1 id1 = labelAt s t2 id2) as Hone.
  { intros i s s' Hi Hsi.
    pose proof (Trace_lookup_succ gA gB ss i s s' Htr Hi Hsi) as ->.
    pose proof (Trace_labelled gA gB ss Htr) as Hl.
    rewrite Forall_forall in Hl.
    destruct (Hl s) as [HlA HlB]; [by eapply list_elem_of_lookup_2|].
    pose proof (Trace_k_nonneg gA gB ss Htr) as Hk.
    rewrite Forall_forall in Hk.
    eapply refines_never_merges; [|done..|].
    - apply nextStep_refines; [|done..].
      apply Hk. by eapply list_elem_of_lookup_2.
    - eapply Trace_labelAt_is_Some; [done| |done].
      by eapply list_elem_of_lookup_2. }
  induction d as [|d IH]; intros i si sj Hi Hj Heq.
  - rewrite Nat.add_1_r in Hj. by eapply Hone.
  - destruct (ss !! (i + S d)%nat) as [sm|] eqn:Hm.
    + eapply IH; [done..|]. eapply (Hone (i + S d)%nat); [done| |done].
      by replace (S (i + S d)) with (i + S (S d))%nat by lia.
    + apply lookup_ge_None in Hm. apply lookup_lt_Some in Hj. lia.
Qed.

(** C5.  For two steps at indices [i < j] of the returned sequence and two
    nodes, each of graph A or of graph B: both nodes have a label at step
    [j], and if their labels differ at step [i] then they differ at step
    [j]. *)
Theorem never_merge gA gB maxK i j si sj t1 t2 id1 id2 :
  let ss := steps (runWLAlgorithm gA gB maxK) in
  (i < j)%nat → ss !! i = Some si → ss !! j = Some sj →
  id1 ∈ nodeIds gA gB t1 → id2 ∈ nodeIds gA gB t2 →
  labelAt si t1 id1 ≠ labelAt si t2 id2 →
  is_Some (labelAt sj t1 id1) ∧ is_Some (labelAt sj t2 id2)
  ∧ labelAt sj t1 id1 ≠ labelAt sj t2 id2.
Proof.
  intros ss Hij Hi Hj Hid1 Hid2 Hne.
  pose proof (runWLAlgorithm_Trace gA gB maxK) as Htr. fold ss in Htr.
  assert (sj ∈ ss) as Hsj by by eapply list_elem_of_lookup_2.
  split_and!; [by eapply Trace_labelAt_is_Some..|].
  intros Heq. apply Hne.
  eapply (Trace_never_merges gA gB ss t1 t2 id1 id2 Htr Hid1 Hid2
            (j - S i) i si sj); [done| |done].
  by replace (i + S (j - S i))%nat with j by lia.
Qed.

(** ** The scenario of the two cycles (claim C9) *)

Lemma cyclesA_no_triangle a0 a1 a2 :
  a0 ∈ node_id <$> nodes cyclesA → a1 ∈ node_id <$> nodes cyclesA →
  a2 ∈ node_id <$> nodes cyclesA →
  ¬ (adjacent cyclesA a0 a1 ∧ adjacent cyclesA a1 a2 ∧ adjacent cyclesA a0 a2).
Proof.
  assert (Forall (λ a0, Forall (λ a1, Forall (λ a2,
            ¬ (adjacent cyclesA a0 a1 ∧ adjacent cyclesA a1 a2
               ∧ adjacent cyclesA a0 a2))
          (node_id <$> nodes cyclesA)) (node_id <$> nodes cyclesA))
          (node_id <$> nodes cyclesA)) as Hall.
  { apply (bool_decide_unpack _). vm_compute. exact I. }
  intros H0 H1 H2. rewrite Forall_forall in Hall.
  specialize (Hall a0 H0). rewrite Forall_forall in Hall.
  specialize (Hall a1 H1). rewrite Forall_forall in Hall. by apply Hall.
Qed.

Lemma cycles_not_isomorphic : ¬ isomorphic cyclesA cyclesB.
Proof.
  intros (f & _ & Hsurj & _ & _ & Hadj).
  assert (∀ b, bool_decide (b ∈ node_id <$> nodes cyclesB) = true →
            ∃ a, a ∈ node_id <$> nodes cyclesA ∧ f a = b) as Hpre.
  { intros b Hb%bool_decide_eq_true. by apply Hsurj. }
  destruct (Hpre "B_C3a_0"%string) as (a0 & H0 & Hf0); [by vm_compute|].
  destruct (Hpre "B_C3a_1"%string) as (a1 & H1 & Hf1); [by vm_compute|].
  destruct (Hpre "B_C3a_2"%string) as (a2 & H2 & Hf2); [by vm_compute|].
  apply (cyclesA_no_triangle a0 a1 a2 H0 H1 H2).
  split_and!; apply Hadj; try done; rewrite ?Hf0, ?Hf1, ?Hf2;
    apply (bool_decide_unpack _); vm_compute; exact I.
Qed.

(** C9.  For the 6-cycle against the two 3-cycles, all initial labels 1 and
    [maxK = 5]: the sequence has the steps [k = 0 .. 5]; at step [k] the
    histogram of A and the histogram of B each consist of the single label
    [k + 1] with count 6, and [isIsomorphicCandidate] is true; yet the two
    graphs are not isomorphic. *)
Theorem cycles_indistinguishable :
  (λ s, (k s, labelCountsA s, labelCountsB s, isIsomorphicCandidate s))
    <$> steps (runWLAlgorithm cyclesA cyclesB 5)
  = (λ n, (n, {[toString (n + 1) := 6]}, {[toString (n + 1) := 6]}, true))
    <$> seqZ 0 6
  ∧ ¬ isomorphic cyclesA cyclesB.
Proof.
  split; [|apply cycles_not_isomorphic]. vm_compute. reflexivity.
Qed.

(** ** Adjacency with multiplicity (claim C10) *)

Lemma occurrences_app x l1 l2 :
  occurrences x (l1 ++ l2) = (occurrences x l1 + occurrences x l2)%nat.
Proof. unfold occurrences. by rewrite filter_app, length_app. Qed.

Lemma occurrences_pushes i j l :
  occurrences j (pushes i l)
  = ((if decide (source l = i ∧ target l = j) then 1 else 0)
     + (if decide (source l = j ∧ target l = i) then 1 else 0))%nat.
Proof.
  unfold pushes. rewrite occurrences_app. unfold occurrences.
  destruct (decide (source l = i)), (decide (target l = i));
    rewrite ?filter_cons, ?filter_nil;
    repeat case_decide; simpl; try done; intuition congruence.
Qed.

Lemma occurrences_neighbourList ids ls i j :
  i ∈ ids → j ∈ ids →
  occurrences j (neighbourList ids ls i)
  = (linkCount i j ls + linkCount j i ls)%nat.
Proof.
  intros Hi Hj. unfold neighbourList, linkCount.
  induction ls as [|l ls IH]; [done|].
  rewrite !filter_cons. destruct (decide (knownLink ids l)) as [Hl|Hl].
  - rewrite bind_cons, occurrences_app, occurrences_pushes, IH.
    repeat case_decide; simpl; lia.
  - rewrite IH. unfold knownLink in Hl.
    repeat case_decide; simpl; try lia; exfalso; apply Hl;
      repeat match goal with H : _ ∧ _ |- _ => destruct H end;
      split; congruence.
Qed.

Lemma occurrences_fmap (f : string → string) x l :
  (occurrences x l ≤ occurrences (f x) (f <$> l))%nat.
Proof.
  unfold occurrences. induction l as [|y l IH]; [done|].
  rewrite fmap_cons, !filter_cons.
  repeat case_decide; simpl; try lia. congruence.
Qed.

Lemma occurrences_perm x l1 l2 : l1 ≡ₚ l2 → occurrences x l1 = occurrences x l2.
Proof. unfold occurrences. by intros ->. Qed.

(** C10.  For a graph with nodes [ns] and links [ls]: a link whose two ends
    are node ids pushes its target on the neighbour list of its source and
    its source on the list of its target, so node [j] occurs in the
    neighbour list of node [i] once for every link [i -> j] and once for
    every link [j -> i] (twice for a self-loop); at a refinement step the
    neighbour part of the signature of a node is, up to order, the list of
    the previous labels of its neighbour list, so the label of [j] occurs in
    the signature of [i] at least that many times. *)
Theorem adjacency_multiplicity ns ls kk p tag n j :
  let adj := getAdjacencyList ns ls in
  let e := ns_expanded (nodeSig kk adj p tag n) in
  n ∈ ns → j ∈ node_id <$> ns → kk ≠ 0 →
  (∀ a l, (∀ i, is_Some (a !! i) ↔ i ∈ node_id <$> ns) →
     knownLink (node_id <$> ns) l →
     ∀ i, addLink a l !! i = (λ nl, nl ++ pushes i l) <$> a !! i)
  ∧ occurrences j (default [] (adj !! node_id n))
    = (linkCount (node_id n) j ls + linkCount j (node_id n) ls)%nat
  ∧ neighbors e ≡ₚ (λ nid, p !!! nid) <$> default [] (adj !! node_id n)
  ∧ (linkCount (node_id n) j ls + linkCount j (node_id n) ls
     ≤ occurrences (p !!! j) (neighbors e))%nat.
Proof.
  intros adj e Hn Hj Hk.
  assert (node_id n ∈ node_id <$> ns) as Hi by by apply list_elem_of_fmap_2.
  assert (occurrences j (default [] (adj !! node_id n))
          = (linkCount (node_id n) j ls + linkCount j (node_id n) ls)%nat)
    as Hocc.
  { unfold adj. rewrite getAdjacencyList_lookup, decide_True by done.
    by apply occurrences_neighbourList. }
  assert (neighbors e ≡ₚ (λ nid, p !!! nid) <$> default [] (adj !! node_id n))
    as Hperm.
  { unfold e. rewrite nodeSig_nonzero by done. apply sort_with_perm. }
  split_and!; [|done|done|].
  - intros a l Hdom Hl i. rewrite (addLink_lookup _ _ _ _ Hdom).
    by rewrite decide_True.
  - rewrite <-Hocc, (occurrences_perm _ _ _ Hperm).
    apply (occurrences_fmap (λ nid, p !!! nid)).
Qed.

(** ** Independence of the order of the input arrays (claim C1) *)

Lemma neighbourList_perm ids ids' ls ls' i :
  ids ≡ₚ ids' → ls ≡ₚ ls' →
  neighbourList ids ls i ≡ₚ neighbourList ids' ls' i.
Proof.
  intros Hids Hls. unfold neighbourList.
  rewrite (list_filter_iff (knownLink ids) (knownLink ids')).
  - by rewrite Hls.
  - intros l. unfold knownLink. by rewrite Hids.
Qed.

Lemma getAdjacencyList_perm ns ns' ls ls' i :
  ns ≡ₚ ns' → ls ≡ₚ ls' →
  default [] (getAdjacencyList ns ls !! i)
  ≡ₚ default [] (getAdjacencyList ns' ls' !! i).
Proof.
  intros Hns Hls. rewrite !getAdjacencyList_lookup.
  assert (node_id <$> ns ≡ₚ node_id <$> ns') as Hids by by rewrite Hns.
  destruct (decide (i ∈ node_id <$> ns)) as [Hi|Hi].
  - rewrite decide_True by by rewrite <-Hids. simpl.
    by apply neighbourList_perm.
  - rewrite decide_False by by rewrite <-Hids. done.
Qed.

(** The signature of a node does not depend on the order of its neighbour
    list, the previous labels being label identifiers. *)
Lemma nodeSig_adj_perm kk ad ad' p tag n :
  (kk ≠ 0 → Forall is_label ((λ nid, p !!! nid) <$> default [] (ad !! node_id n))) →
  default [] (ad !! node_id n) ≡ₚ default [] (ad' !! node_id n) →
  nodeSig kk ad p tag n = nodeSig kk ad' p tag n.
Proof.
  intros Hl Hperm. destruct (decide (kk = 0)) as [->|Hk]; [done|].
  rewrite !nodeSig_nonzero by done. cbv zeta.
  rewrite (Array_sort_byParseInt_perm_eq _
             ((λ nid, p !!! nid) <$> default [] (ad' !! node_id n)));
    [done|by apply Hl|by rewrite Hperm].
Qed.

Lemma generateSig_perm kk ns ns' ad ad' p tag :
  ns ≡ₚ ns' →
  (∀ n, n ∈ ns →
     (kk ≠ 0 →
      Forall is_label ((λ nid, p !!! nid) <$> default [] (ad !! node_id n)))
     ∧ default [] (ad !! node_id n) ≡ₚ default [] (ad' !! node_id n)) →
  generateSig kk ns ad p tag ≡ₚ generateSig kk ns' ad' p tag.
Proof.
  intros Hns Had. unfold generateSig. rewrite <-Hns.
  rewrite (list_fmap_ext (nodeSig kk ad p tag) (nodeSig kk ad' p tag) ns);
    [done|].
  intros i n Hn%list_elem_of_lookup_2. destruct (Had n Hn).
  by apply nodeSig_adj_perm.
Qed.

Lemma generateSig_ids kk ns ad p tag :
  ns_id <$> generateSig kk ns ad p tag = node_id <$> ns.
Proof.
  unfold generateSig. rewrite <-list_fmap_compose.
  apply list_fmap_ext. intros i n _. apply nodeSig_id.
Qed.

Section processStep_perm.
Variables (gA gB gA' gB' : GraphData).
Variables (aA aB aA' aB' : gmap string (list string)).
Variables (sorted : list Z) (imap : gmap Z string).
Variables (kk c : Z) (pA pB : gmap string string).
Hypothesis HndA : NoDup (node_id <$> nodes gA).
Hypothesis HndB : NoDup (node_id <$> nodes gB).
Hypothesis HsA : sigsA gA aA kk pA ≡ₚ sigsA gA' aA' kk pA.
Hypothesis HsB : sigsB gB aB kk pB ≡ₚ sigsB gB' aB' kk pB.

Lemma uniqueSigs_perm :
  uniqueSigs gA gB aA aB kk pA pB = uniqueSigs gA' gB' aA' aB' kk pA pB.
Proof.
  unfold uniqueSigs. apply Array_sort_default_perm_eq, Array_from_Set_perm.
  intros sig. by rewrite HsA, HsB.
Qed.

Lemma stepMap_perm :
  stepMap gA gB aA aB sorted imap kk c pA pB
  = stepMap gA' gB' aA' aB' sorted imap kk c pA pB.
Proof. unfold stepMap. by rewrite uniqueSigs_perm. Qed.

Lemma stepMappings_perm :
  stepMappings gA gB aA aB sorted imap kk c pA pB
  = stepMappings gA' gB' aA' aB' sorted imap kk c pA pB.
Proof. unfold stepMappings. by rewrite uniqueSigs_perm. Qed.

Lemma stepCountsA_perm :
  stepCountsA gA gB aA aB sorted imap kk c pA pB
  = stepCountsA gA' gB' aA' aB' sorted imap kk c pA pB.
Proof.
  unfold stepCountsA. rewrite stepMap_perm.
  apply foldl_perm_comm; [apply bump_comm|]. by rewrite HsA.
Qed.

Lemma stepCountsB_perm :
  stepCountsB gA gB aA aB sorted imap kk c pA pB
  = stepCountsB gA' gB' aA' aB' sorted imap kk c pA pB.
Proof.
  unfold stepCountsB. rewrite stepMap_perm.
  apply foldl_perm_comm; [apply bump_comm|]. by rewrite HsB.
Qed.

Lemma processStep_perm lA lB lA' lB' :
  processStep gA gB aA aB sorted imap kk c lA lB pA pB
  = processStep gA' gB' aA' aB' sorted imap kk c lA' lB' pA pB.
Proof.
  rewrite !processStep_unfold.
  rewrite stepCountsA_perm, stepCountsB_perm, stepMappings_perm,
    stepMap_perm, uniqueSigs_perm.
  assert (∀ {V} (val : NodeSig → V),
            insertAll ns_id val ∅ (sigsA gA aA kk pA)
            = insertAll ns_id val ∅ (sigsA gA' aA' kk pA)) as HiA.
  { intros V val. apply insertAll_perm; [|done].
    unfold sigsA. by rewrite generateSig_ids. }
  assert (∀ {V} (val : NodeSig → V),
            insertAll ns_id val ∅ (sigsB gB aB kk pB)
            = insertAll ns_id val ∅ (sigsB gB' aB' kk pB)) as HiB.
  { intros V val. apply insertAll_perm; [|done].
    unfold sigsB. by rewrite generateSig_ids. }
  by rewrite !HiA, !HiB.
Qed.
End processStep_perm.

Lemma sortedInitLabels_perm gA gB gA' gB' :
  nodes gA ≡ₚ nodes gA' → nodes gB ≡ₚ nodes gB' →
  sortedInitLabels gA gB = sortedInitLabels gA' gB'.
Proof.
  intros HA HB. unfold sortedInitLabels, Array_sort.
  apply (sort_with_perm_eq _ (λ _, True)).
  - intros x y _ _. unfold cmp_le. rewrite !Z.leb_le. lia.
  - intros x y z _ _ _. unfold cmp_le. rewrite !Z.leb_le. lia.
  - intros x y _ _. unfold cmp_le. rewrite !Z.leb_le. lia.
  - by apply Forall_forall.
  - unfold allInitialValues. apply Array_from_Set_perm.
    intros v. by rewrite HA, HB.
Qed.

Lemma sigs_perm g g' kk p tag :
  nodes g ≡ₚ nodes g' → links g ≡ₚ links g' →
  (kk ≠ 0 → labelled (node_id <$> nodes g) p) →
  generateSig kk (nodes g) (getAdjacencyList (nodes g) (links g)) p tag
  ≡ₚ generateSig kk (nodes g') (getAdjacencyList (nodes g') (links g')) p tag.
Proof.
  intros Hn Hl Hp. apply generateSig_perm; [done|].
  intros n _. split.
  - intros Hk. by apply neighbour_labels, Hp.
  - by apply getAdjacencyList_perm.
Qed.

Section run_perm.
Variables (gA gB gA' gB' : GraphData).
Hypothesis HndA : NoDup (node_id <$> nodes gA).
Hypothesis HndB : NoDup (node_id <$> nodes gB).
Hypothesis HnA : nodes gA ≡ₚ nodes gA'.
Hypothesis HlA : links gA ≡ₚ links gA'.
Hypothesis HnB : nodes gB ≡ₚ nodes gB'.
Hypothesis HlB : links gB ≡ₚ links gB'.

Lemma processStepOf_perm kk c lA lB lA' lB' pA pB :
  (kk ≠ 0 → labelled (node_id <$> nodes gA) pA) →
  (kk ≠ 0 → labelled (node_id <$> nodes gB) pB) →
  processStepOf gA gB kk c lA lB pA pB
  = processStepOf gA' gB' kk c lA' lB' pA pB.
Proof.
  intros HpA HpB. unfold processStepOf.
  rewrite <-(sortedInitLabels_perm gA gB gA' gB') by done.
  unfold initLabelMap, initPhase.
  rewrite <-(sortedInitLabels_perm gA gB gA' gB') by done.
  apply processStep_perm; [done..| |].
  - by apply sigs_perm.
  - by apply sigs_perm.
Qed.

Lemma initialLabels_perm :
  initialLabelsA gA gB = initialLabelsA gA' gB'
  ∧ initialLabelsB gA gB = initialLabelsB gA' gB'.
Proof.
  rewrite !initialLabelsA_eq, !initialLabelsB_eq.
  unfold initLabelMap, initPhase.
  rewrite <-(sortedInitLabels_perm gA gB gA' gB') by done.
  split; by apply insertAll_perm.
Qed.

Lemma afterStep0_perm : afterStep0 gA gB = afterStep0 gA' gB'.
Proof.
  unfold afterStep0, result0. destruct initialLabels_perm as [<- <-].
  unfold initPhase.
  rewrite <-(sortedInitLabels_perm gA gB gA' gB') by done.
  by rewrite (processStepOf_perm 0 _ _ _
                (initialLabelsA gA gB) (initialLabelsB gA gB)).
Qed.

Lemma iteration_perm st kk :
  kk ≠ 0 →
  labelled (node_id <$> nodes gA) (currentLabelsA st) →
  labelled (node_id <$> nodes gB) (currentLabelsB st) →
  iteration gA gB st kk = iteration gA' gB' st kk.
Proof.
  intros Hk HpA HpB. unfold iteration, loopBody.
  fold (processStepOf gA gB). fold (processStepOf gA' gB').
  by rewrite (processStepOf_perm kk _ _ _
                (currentLabelsA st) (currentLabelsB st)).
Qed.

Lemma runLoop_labelled n :
  labelled (node_id <$> nodes gA) (currentLabelsA (runLoop gA gB n))
  ∧ labelled (node_id <$> nodes gB) (currentLabelsB (runLoop gA gB n)).
Proof.
  destruct (runLoop_inv gA gB n) as [Htr _ (s & Hlast & _ & -> & ->) _].
  apply Trace_labelled in Htr. rewrite Forall_forall in Htr.
  apply Htr. by apply last_Some_elem_of.
Qed.

Lemma runLoop_perm n : runLoop gA gB n = runLoop gA' gB' n.
Proof.
  destruct (decide (n ≤ 0)) as [Hn|Hn].
  { rewrite !runLoop_nonpos by done. apply afterStep0_perm. }
  assert (0 ≤ n) as Hn' by lia. clear Hn. revert n Hn'.
  apply natlike_ind.
  - rewrite !runLoop_nonpos by done. apply afterStep0_perm.
  - intros n Hn IH. rewrite <-Z.add_1_r, !runLoop_succ by done.
    rewrite <-IH. destruct (runLoop_labelled n).
    apply iteration_perm; [lia|done..].
Qed.
End run_perm.

(** C1.  [runWLAlgorithm] is a function of its three arguments: its
    counter is a local variable that starts at 0 in every call, so two runs
    on the same inputs give the same sequence.  Moreover, for graphs whose
    node ids are distinct (the data model), the result does not change when
    the node arrays and the link arrays are given in another order: the same
    steps, with the same label of every node, the same histograms, the same
    mappings and the same verdicts. *)
Theorem order_independent gA gB gA' gB' maxK :
  NoDup (node_id <$> nodes gA) → NoDup (node_id <$> nodes gB) →
  nodes gA ≡ₚ nodes gA' → links gA ≡ₚ links gA' →
  nodes gB ≡ₚ nodes gB' → links gB ≡ₚ links gB' →
  runWLAlgorithm gA' gB' maxK = runWLAlgorithm gA gB maxK.
Proof.
  intros HndA HndB HnA HlA HnB HlB. unfold runWLAlgorithm.
  by rewrite (runLoop_perm gA gB gA' gB').
Qed.

(** ** Concrete runs *)

(** C7 as stated fails: a graph with a link to an unknown node does not
    make the call fail with [InvalidGraphReference]; the call returns the
    record of step 0. *)
Lemma dangling_edge_returns :
  Exists (λ l, ¬ knownLink (node_id <$> nodes danglingGraph) l)
         (links danglingGraph)
  ∧ call_runWLAlgorithm danglingGraph danglingGraph 0
    ≠ Throws "InvalidGraphReference"
  ∧ ∃ r, call_runWLAlgorithm danglingGraph danglingGraph 0 = Returns r
         ∧ length (steps r) = 1%nat.
Proof.
  split_and!.
  - apply (bool_decide_unpack _). vm_compute. exact I.
  - done.
  - eexists. split; [done|]. done.
Qed.

(** The order of the arrays of [pairGraph] does not change the result. *)
Lemma order_independent_witness :
  NoDup (node_id <$> nodes pairGraph)
  ∧ nodes pairGraph ≡ₚ nodes (reversed pairGraph)
  ∧ links pairGraph ≡ₚ links (reversed pairGraph)
  ∧ runWLAlgorithm (reversed pairGraph) (reversed pairGraph) 2
    = runWLAlgorithm pairGraph pairGraph 2.
Proof.
  assert (NoDup (node_id <$> nodes pairGraph)) as Hnd
    by (apply (bool_decide_unpack _); vm_compute; exact I).
  assert (nodes pairGraph ≡ₚ nodes (reversed pairGraph)) as Hn
    by (symmetry; apply reverse_Permutation).
  assert (links pairGraph ≡ₚ links (reversed pairGraph)) as Hl
    by (symmetry; apply reverse_Permutation).
  split_and!; [done..|].
  exact (order_independent pairGraph pairGraph (reversed pairGraph)
           (reversed pairGraph) 2 Hnd Hnd Hn Hl Hn Hl).
Defined.

(** Steps 0 and 1 of the run on [pairGraph]. *)
Lemma refinement_step_signatures_witness :
  ∃ s s',
    steps (runWLAlgorithm pairGraph pairGraph 1) !! 0%nat = Some s
    ∧ steps (runWLAlgorithm pairGraph pairGraph 1) !! 1%nat = Some s'
    ∧ k s' = 1
    ∧ everyNodeSigned pairGraph pairGraph s s'
    ∧ refines pairGraph pairGraph
        (mintedSoFar (take 1 (steps (runWLAlgorithm pairGraph pairGraph 1))))
        s s'.
Proof.
  eexists _, _. split; [reflexivity|]. split; [reflexivity|].
  exact (refinement_step_signatures pairGraph pairGraph 1 0 _ _
           eq_refl eq_refl).
Defined.

(** The two nodes of [pairGraph] differ at step 0, hence at step 2. *)
Lemma never_merge_witness :
  ∃ s0 s2,
    steps (runWLAlgorithm pairGraph pairGraph 2) !! 0%nat = Some s0
    ∧ steps (runWLAlgorithm pairGraph pairGraph 2) !! 2%nat = Some s2
    ∧ labelAt s0 GA "a" ≠ labelAt s0 GB "b"
    ∧ labelAt s2 GA "a" ≠ labelAt s2 GB "b".
Proof.
  eexists _, _. split; [reflexivity|]. split; [reflexivity|].
  assert ("a" ∈ nodeIds pairGraph pairGraph GA) as Ha
    by (apply (bool_decide_unpack _); vm_compute; exact I).
  assert ("b" ∈ nodeIds pairGraph pairGraph GB) as Hb
    by (apply (bool_decide_unpack _); vm_compute; exact I).
  assert (labelAt (step (result0 pairGraph pairGraph)) GA "a"
          ≠ labelAt (step (result0 pairGraph pairGraph)) GB "b") as Hne
    by (vm_compute; discriminate).
  split; [exact Hne|].
  refine (proj2 (proj2 (never_merge pairGraph pairGraph 2 0 2 _ _ GA GB
                          "a" "b" _ eq_refl eq_refl Ha Hb Hne))).
  lia.
Defined.

(** In [multiGraph] node [b] is pushed twice on the list of [a] and [a]
    twice on its own list. *)
Lemma adjacency_multiplicity_witness :
  let a := {| node_id := "a"; originalLabel := 1 |} in
  let adj := getAdjacencyList (nodes multiGraph) (links multiGraph) in
  let p : gmap string string := {[ "a" := "1"; "b" := "1" ]} in
  a ∈ nodes multiGraph
  ∧ occurrences "b" (default [] (adj !! "a")) = 2%nat
  ∧ occurrences "a" (default [] (adj !! "a")) = 2%nat
  ∧ (2 ≤ occurrences (p !!! "b")
           (neighbors (ns_expanded (nodeSig 1 adj p GA a))))%nat.
Proof.
  intros a adj p.
  assert (a ∈ nodes multiGraph) as Ha
    by (apply (bool_decide_unpack _); vm_compute; exact I).
  assert ("b" ∈ node_id <$> nodes multiGraph) as Hb
    by (apply (bool_decide_unpack _); vm_compute; exact I).
  assert ("a" ∈ node_id <$> nodes multiGraph) as Haa
    by (apply (bool_decide_unpack _); vm_compute; exact I).
  assert (1 ≠ 0) as H1 by lia.
  destruct (adjacency_multiplicity (nodes multiGraph) (links multiGraph)
              1 p GA a "b" Ha Hb H1) as (_ & Hocc & _ & Hle).
  destruct (adjacency_multiplicity (nodes multiGraph) (links multiGraph)
              1 p GA a "a" Ha Haa H1) as (_ & Hocc' & _ & _).
  split_and!; [done|exact Hocc|exact Hocc'|exact Hle].
Defined.

(** * Further properties of the refinement sequence *)

(** Induction over the steps of a trace. *)
Lemma Trace_Forall_steps gA gB (P : WLStep → Prop) ss :
  P (step (result0 gA gB)) →
  (∀ ss s, Trace gA gB ss → last ss = Some s → P (nextStep gA gB ss s)) →
  Trace gA gB ss → Forall P ss.
Proof.
  intros H0 Hnext. induction 1 as [|ss s Htr IH Hlast].
  - by repeat constructor.
  - apply Forall_app. split; [done|]. repeat constructor. by apply Hnext.
Qed.

(** ** [uniqueLabels] *)

Lemma numerals_sorted m len :
  0 < m →
  StronglySorted (λ a b, cmp_le byParseInt a b = true)
    (toString <$> seqZ m (Z.of_nat len)).
Proof.
  revert m. induction len as [|len IH]; intros m Hm.
  { rewrite seqZ_nil by lia. constructor. }
  rewrite seqZ_cons by lia. rewrite fmap_cons.
  replace (Z.pred (Z.of_nat (S len))) with (Z.of_nat len) by lia.
  constructor; [apply IH; lia|].
  apply Forall_fmap, Forall_forall. intros x Hx%elem_of_seqZ. simpl.
  rewrite byParseInt_le by lia. apply bool_decide_eq_true. lia.
Qed.

Lemma numerals_labels m len :
  0 < m → Forall is_label (toString <$> seqZ m len).
Proof.
  intros Hm. apply Forall_fmap, Forall_forall. intros x Hx%elem_of_seqZ.
  exists x. split; [lia|done].
Qed.

Lemma numerals_NoDup m len : NoDup (toString <$> seqZ m len).
Proof.
  apply NoDup_fmap_2_strong; [|apply NoDup_seqZ].
  intros ?? _ _. apply toString_inj.
Qed.

Lemma sorted_labels_numLe l :
  Forall is_label l →
  StronglySorted (λ a b, cmp_le byParseInt a b = true) l →
  StronglySorted numLe l.
Proof.
  intros Hl Hs. induction Hs as [|a l Hs IH Ha]; [constructor|].
  apply Forall_cons in Hl as [Hla Hl]. constructor; [by apply IH|].
  rewrite Forall_forall in Ha, Hl. apply Forall_forall. intros b Hb.
  apply byParseInt_numLe; auto.
Qed.

(** Sorting the distinct elements of [l] numerically gives the list of
    numerals [c + 1, c + 2, ...] when these are the elements of [l]. *)
Lemma sort_set_numerals c len l :
  0 ≤ c →
  (∀ x, x ∈ l ↔ x ∈ toString <$> seqZ (c + 1) (Z.of_nat len)) →
  Array_sort byParseInt (Array_from_Set l)
  = toString <$> seqZ (c + 1) (Z.of_nat len).
Proof.
  intros Hc Hl.
  assert (Array_from_Set l ≡ₚ toString <$> seqZ (c + 1) (Z.of_nat len)) as Hp.
  { apply NoDup_Permutation;
      [apply Array_from_Set_NoDup|apply numerals_NoDup|].
    intros x. by rewrite Array_from_Set_elem_of. }
  assert (Forall is_label (Array_from_Set l)) as Hlab.
  { rewrite Hp. apply numerals_labels. lia. }
  apply (sorted_perm_eq (cmp_le byParseInt) is_label).
  - apply byParseInt_antisym.
  - eapply Permutation_Forall; [symmetry; apply sort_with_perm|done].
  - by apply (sort_with_sorted _ is_label byParseInt_total byParseInt_trans).
  - apply numerals_sorted. lia.
  - unfold Array_sort. by rewrite sort_with_perm.
Qed.

Section uniqueLabels_facts.
Variables (gA gB : GraphData).
Variables (aA aB : gmap string (list string)).
Variables (sorted : list Z) (imap : gmap Z string).
Variables (kk c : Z) (pA pB : gmap string string).

Local Abbreviation sA := (sigsA gA aA kk pA).
Local Abbreviation sB := (sigsB gB aB kk pB).
Local Abbreviation sm := (stepMap gA gB aA aB sorted imap kk c pA pB).
Local Abbreviation cA := (stepCountsA gA gB aA aB sorted imap kk c pA pB).
Local Abbreviation cB := (stepCountsB gA gB aA aB sorted imap kk c pA pB).

Lemma stepCounts_keys x :
  x ∈ Object_keys cA ++ Object_keys cB
  ↔ ∃ item, item ∈ sA ++ sB ∧ labelOf sm item = x.
Proof.
  rewrite elem_of_app, !Object_keys_elem_of.
  unfold stepCountsA, stepCountsB. rewrite !bump_fold_is_Some.
  rewrite !lookup_empty, !list_elem_of_fmap. split.
  - intros [[[? [=]]|(item & -> & Hi)]|[[? [=]]|(item & -> & Hi)]];
      exists item; (split; [|done]); apply elem_of_app; auto.
  - intros (item & [Hi|Hi]%elem_of_app & <-); [left|right]; right; eauto.
Qed.
End uniqueLabels_facts.

Section used_labels.
Variables (gA gB : GraphData).
Variables (aA aB : gmap string (list string)).
Variables (sorted : list Z) (imap : gmap Z string).
Variables (kk c : Z) (pA pB : gmap string string).
Hypothesis Hk : kk ≠ 0.

Local Abbreviation sA := (sigsA gA aA kk pA).
Local Abbreviation sB := (sigsB gB aB kk pB).
Local Abbreviation uS := (uniqueSigs gA gB aA aB kk pA pB).
Local Abbreviation sm := (stepMap gA gB aA aB sorted imap kk c pA pB).

(** At a refinement step every identifier that is handed out labels a
    node. *)
Lemma used_labels_nonzero x :
  (∃ item, item ∈ sA ++ sB ∧ labelOf sm item = x)
  ↔ x ∈ toString <$> seqZ (c + 1) (Z.of_nat (length uS)).
Proof.
  rewrite list_elem_of_fmap. split.
  - intros (item & Hitem & <-).
    destruct (labelOf_item gA gB aA aB sorted imap kk c pA pB Hk _ Hitem)
      as (i & Hi & ->).
    exists (c + 1 + Z.of_nat i). split; [done|].
    apply elem_of_seqZ. apply lookup_lt_Some in Hi. lia.
  - intros (y & -> & Hy%elem_of_seqZ).
    destruct (lookup_lt_is_Some_2 uS (Z.to_nat (y - (c + 1)))) as [sig Hi];
      [lia|].
    assert (sig ∈ uS) as Hsig by by eapply list_elem_of_lookup_2.
    apply uniqueSigs_elem_of in Hsig as (item & Hitem & Hs).
    exists item. split; [done|].
    unfold labelOf. rewrite Hs, lookup_total_alt.
    rewrite (stepMap_lookup gA gB aA aB sorted imap kk c pA pB Hk _ _ Hi).
    simpl. f_equal. lia.
Qed.
End used_labels.

Lemma used_labels_zero gA gB aA aB c pA pB x :
  (∃ item, item ∈ sigsA gA aA 0 pA ++ sigsB gB aB 0 pB
           ∧ labelOf (stepMap gA gB aA aB (sortedInitLabels gA gB)
                        (initLabelMap gA gB) 0 c pA pB) item = x)
  ↔ x ∈ toString <$> seqZ 1 (Z.of_nat (length (sortedInitLabels gA gB))).
Proof.
  rewrite <-initialMappings_labels. unfold initialMappings.
  rewrite <-list_fmap_compose, list_elem_of_fmap.
  assert (∀ n, n ∈ nodes gA ∨ n ∈ nodes gB →
            originalLabel n ∈ sortedInitLabels gA gB) as Hv.
  { intros n Hn. apply sortedInitLabels_elem_of.
    destruct Hn; [left|right]; by apply list_elem_of_fmap_2. }
  split.
  - intros (item & Hitem & <-). apply elem_of_app in Hitem.
    destruct Hitem as [Hitem|Hitem];
      apply list_elem_of_fmap in Hitem as (n & -> & Hn);
      exists (originalLabel n); (split; [|by auto]);
      rewrite labelOf0; auto.
  - intros (v & -> & Hin). simpl.
    apply sortedInitLabels_elem_of in Hin as Hin'.
    destruct Hin' as [Hn|Hn];
      apply list_elem_of_fmap in Hn as (n & -> & Hn).
    + exists (nodeSig 0 aA pA GA n). split.
      * apply elem_of_app. left. by apply list_elem_of_fmap_2.
      * by apply labelOf0.
    + exists (nodeSig 0 aB pB GB n). split.
      * apply elem_of_app. right. by apply list_elem_of_fmap_2.
      * by apply labelOf0.
Qed.

Lemma uniqueLabelsSpec_intro s c len :
  0 ≤ c →
  hm_label <$> mappings s = toString <$> seqZ (c + 1) (Z.of_nat len) →
  uniqueLabels s
  = Array_sort byParseInt
      (Array_from_Set (Object_keys (labelCountsA s) ++ Object_keys (labelCountsB s))) →
  (∀ x, x ∈ Object_keys (labelCountsA s) ++ Object_keys (labelCountsB s)
     ↔ x ∈ toString <$> seqZ (c + 1) (Z.of_nat len)) →
  uniqueLabelsSpec s.
Proof.
  intros Hc Hm Hu Hkeys.
  assert (uniqueLabels s = toString <$> seqZ (c + 1) (Z.of_nat len)) as Heq.
  { rewrite Hu. by apply sort_set_numerals. }
  unfold uniqueLabelsSpec. rewrite Hm, Heq. split_and!.
  - done.
  - apply numerals_NoDup.
  - apply sorted_labels_numLe; [apply numerals_labels|apply numerals_sorted];
      lia.
  - intros l. rewrite <-Hkeys, elem_of_app, !Object_keys_elem_of. done.
Qed.

Lemma Trace_uniqueLabelsSpec gA gB ss :
  Trace gA gB ss → Forall uniqueLabelsSpec ss.
Proof.
  apply Trace_Forall_steps.
  - eapply (uniqueLabelsSpec_intro _ 0); [lia|..].
    + rewrite step0_mappings. apply initialMappings_labels.
    + unfold result0, processStepOf. by rewrite processStep_unfold.
    + intros x. unfold result0, processStepOf. rewrite processStep_unfold.
      cbn [step labelCountsA labelCountsB].
      rewrite stepCounts_keys. apply used_labels_zero.
  - intros ss' s Htr Hlast.
    pose proof (Trace_last_k_nonneg gA gB ss' s Htr Hlast) as Hk.
    eapply (uniqueLabelsSpec_intro _ (mintedSoFar ss'));
      [apply mintedSoFar_nonneg|..].
    + rewrite nextStep_mappings by done.
      rewrite mintFrom_labels. done.
    + unfold nextStep, processStepOf. by rewrite processStep_unfold.
    + intros x. unfold nextStep, processStepOf. rewrite processStep_unfold.
      cbn [step labelCountsA labelCountsB].
      rewrite stepCounts_keys. apply used_labels_nonzero. lia.
Qed.

(** X1.  At every step of the returned sequence [uniqueLabels]
    is the list of the identifiers of the step's mappings: it has no
    repetition, it is in ascending numeric order, and its elements are
    exactly the labels that are keys of [labelCountsA] or of
    [labelCountsB]. *)
Theorem uniqueLabels_are_mapping_labels gA gB maxK :
  Forall uniqueLabelsSpec (steps (runWLAlgorithm gA gB maxK)).
Proof. apply (Trace_uniqueLabelsSpec gA gB), runWLAlgorithm_Trace. Qed.

(** ** Graphs of different sizes, empty graphs *)

Lemma stepCounts_total gA gB aA aB sorted imap kk c pA pB :
  total (stepCountsA gA gB aA aB sorted imap kk c pA pB)
  = Z.of_nat (length (nodes gA))
  ∧ total (stepCountsB gA gB aA aB sorted imap kk c pA pB)
    = Z.of_nat (length (nodes gB)).
Proof.
  unfold stepCountsA, stepCountsB, sigsA, sigsB.
  rewrite !total_bump_fold, total_empty, !length_fmap, !generateSig_length.
  split; lia.
Qed.

(** X2.  Two graphs with different numbers of nodes are rejected at
    every step, the first one included. *)
Theorem different_sizes_rejected gA gB maxK :
  length (nodes gA) ≠ length (nodes gB) →
  Forall (λ s, isIsomorphicCandidate s = false)
         (steps (runWLAlgorithm gA gB maxK)).
Proof.
  intros Hlen. apply (Trace_Forall gA gB); [|apply runWLAlgorithm_Trace].
  intros kk c lA lB pA pB. unfold processStepOf.
  rewrite processStep_unfold. cbn [step isIsomorphicCandidate].
  apply not_true_is_false. intros Heq%areCountsEqual_spec.
  destruct (stepCounts_total gA gB (adjA gA) (adjB gB)
              (sortedInitLabels gA gB) (initLabelMap gA gB) kk c pA pB)
    as [HA HB].
  rewrite Heq in HA. lia.
Qed.

Lemma sortedInitLabels_empty gA gB :
  nodes gA = [] → nodes gB = [] → sortedInitLabels gA gB = [].
Proof.
  intros HA HB. unfold sortedInitLabels, allInitialValues.
  by rewrite HA, HB.
Qed.

(** X3.  Two graphs without nodes (whatever their links) give, at
    every step, empty node maps, empty histograms, no label, no mapping and
    the verdict [true]. *)
Theorem empty_graphs_steps gA gB maxK :
  nodes gA = [] → nodes gB = [] →
  Forall emptyStep (steps (runWLAlgorithm gA gB maxK)).
Proof.
  intros HA HB. apply (Trace_Forall gA gB); [|apply runWLAlgorithm_Trace].
  intros kk c lA lB pA pB. unfold processStepOf, emptyStep.
  rewrite processStep_unfold.
  cbn [step nodeDataA nodeDataB labelCountsA labelCountsB uniqueLabels
       mappings isIsomorphicCandidate].
  unfold stepCountsA, stepCountsB, stepMappings, uniqueSigs, sigsA, sigsB,
    generateSig.
  rewrite HA, HB, sortedInitLabels_empty by done.
  split_and!; try done.
  by destruct (decide (kk = 0)).
Qed.

Lemma different_sizes_rejected_witness :
  length (nodes cyclesA) ≠ length (nodes pairGraph)
  ∧ Forall (λ s, isIsomorphicCandidate s = false)
           (steps (runWLAlgorithm cyclesA pairGraph 1)).
Proof.
  assert (length (nodes cyclesA) ≠ length (nodes pairGraph)) as H
    by (vm_compute; lia).
  split; [exact H|exact (different_sizes_rejected cyclesA pairGraph 1 H)].
Defined.

Lemma empty_graphs_steps_witness :
  Forall emptyStep
    (steps (runWLAlgorithm {| nodes := []; links := links pairGraph |}
              {| nodes := []; links := [] |} 2)).
Proof.
  exact (empty_graphs_steps {| nodes := []; links := links pairGraph |}
           {| nodes := []; links := [] |} 2 eq_refl eq_refl).
Defined.

(** ** The labels of step 0 *)

Lemma Trace_head gA gB ss :
  Trace gA gB ss → ss !! 0%nat = Some (step (result0 gA gB)).
Proof.
  induction 1 as [|ss s Htr IH Hlast]; [done|].
  rewrite lookup_app_l; [done|]. by apply lookup_lt_Some in IH.
Qed.

Lemma filter_none {A} (P : A → Prop) `{∀ x, Decision (P x)} (l : list A) :
  Forall (λ x, ¬ P x) l → filter P l = [].
Proof.
  induction 1 as [|x l Hx _ IH]; [done|]. by rewrite filter_cons_False.
Qed.

Lemma sorted_index_rank (l : list Z) i v :
  StronglySorted Z.le l → NoDup l → l !! i = Some v →
  length (filter (λ w, w < v) l) = i.
Proof.
  intros Hs. revert i. induction Hs as [|a l Hs IH Ha]; intros i Hnd Hi;
    [done|].
  apply NoDup_cons in Hnd as [Hal Hnd]. rewrite Forall_forall in Ha.
  destruct i as [|i]; simpl in Hi.
  - injection Hi as ->. rewrite filter_cons_False by lia.
    rewrite filter_none; [done|]. apply Forall_forall.
    intros w Hw. specialize (Ha w Hw). lia.
  - assert (v ∈ l) as Hv by by eapply list_elem_of_lookup_2.
    assert (a < v) as Hlt.
    { specialize (Ha v Hv). assert (a ≠ v) by (by intros ->). lia. }
    rewrite filter_cons_True by done. simpl. f_equal. by apply IH.
Qed.

Lemma StronglySorted_weaken {A} (R R' : relation A) (l : list A) :
  (∀ x y, R x y → R' x y) → StronglySorted R l → StronglySorted R' l.
Proof.
  intros HR. induction 1 as [|x l Hs IH Hx]; constructor; [done|].
  eapply Forall_impl; [done|]. intros y. apply HR.
Qed.

Lemma sortedInitLabels_sorted gA gB :
  StronglySorted Z.le (sortedInitLabels gA gB).
Proof.
  unfold sortedInitLabels, Array_sort.
  eapply StronglySorted_weaken;
    [|apply (sort_with_sorted _ (λ _, True))].
  - intros a b. unfold cmp_le. simpl. intros H%Z.leb_le. lia.
  - intros x y _ _. unfold cmp_le. simpl.
    destruct (decide (x ≤ y)); [left|right]; apply Z.leb_le; lia.
  - intros x y z _ _ _. unfold cmp_le. simpl.
    rewrite !Z.leb_le. lia.
  - by apply Forall_forall.
Qed.

Lemma initLabelMap_rank gA gB v :
  v ∈ sortedInitLabels gA gB →
  initLabelMap gA gB !!! v = toString (initialRank gA gB v).
Proof.
  intros Hv. destruct (initLabelMap_total gA gB v Hv) as (i & Hi & ->).
  f_equal. unfold initialRank. f_equal. f_equal.
  rewrite <-(sorted_index_rank (sortedInitLabels gA gB) i v);
    [|apply sortedInitLabels_sorted|apply sortedInitLabels_NoDup|done].
  apply Permutation_length. apply filter_Permutation.
  unfold sortedInitLabels, Array_sort. by rewrite sort_with_perm.
Qed.

(** X4.  At step 0 a node carries the numeral of the rank of its
    initial value among the distinct initial values of the two graphs: the
    smallest value gives label 1, the next one label 2, and so on, in both
    graphs alike. *)
Theorem initial_label_is_rank gA gB maxK tag n :
  NoDup (nodeIds gA gB tag) → n ∈ nodes (graphOf gA gB tag) →
  ∃ s0, steps (runWLAlgorithm gA gB maxK) !! 0%nat = Some s0
        ∧ labelAt s0 tag (node_id n)
          = Some (toString (initialRank gA gB (originalLabel n))).
Proof.
  intros Hnd Hn. exists (step (result0 gA gB)). split.
  { apply Trace_head, runWLAlgorithm_Trace. }
  assert (originalLabel n ∈ sortedInitLabels gA gB) as Hv.
  { apply sortedInitLabels_elem_of.
    destruct tag; [left|right]; by apply list_elem_of_fmap_2. }
  unfold labelAt, nodeDataAt. destruct tag; simpl in Hnd, Hn.
  - rewrite step0_labelsA, initialLabelsA_eq.
    rewrite (insertAll_lookup_NoDup node_id _ _ n) by done.
    by rewrite initLabelMap_rank.
  - rewrite step0_labelsB, initialLabelsB_eq.
    rewrite (insertAll_lookup_NoDup node_id _ _ n) by done.
    by rewrite initLabelMap_rank.
Qed.

Lemma initial_label_is_rank_witness :
  let b := {| node_id := "b"; originalLabel := 2 |} in
  NoDup (nodeIds pairGraph multiGraph GA)
  ∧ b ∈ nodes (graphOf pairGraph multiGraph GA)
  ∧ ∃ s0, steps (runWLAlgorithm pairGraph multiGraph 1) !! 0%nat = Some s0
          ∧ labelAt s0 GA "b" = Some "2".
Proof.
  intros b.
  assert (NoDup (nodeIds pairGraph multiGraph GA)) as Hnd
    by (apply (bool_decide_unpack _); vm_compute; exact I).
  assert (b ∈ nodes (graphOf pairGraph multiGraph GA)) as Hb
    by (apply (bool_decide_unpack _); vm_compute; exact I).
  split_and!; [done..|].
  exact (initial_label_is_rank pairGraph multiGraph 1 GA b Hnd Hb).
Defined.

(** ** The histograms count the nodes by label *)

Lemma occurrences_cons x y l :
  occurrences x (y :: l)
  = ((if decide (y = x) then 1 else 0) + occurrences x l)%nat.
Proof.
  unfold occurrences. rewrite filter_cons. by destruct (decide (y = x)).
Qed.

Lemma occurrences_0 x l : occurrences x l = 0%nat ↔ x ∉ l.
Proof.
  induction l as [|y l IH]; [by split; [intros _; apply not_elem_of_nil|]|].
  rewrite occurrences_cons, not_elem_of_cons.
  destruct (decide (y = x)) as [->|Hne]; [split; [lia|tauto]|].
  simpl. rewrite IH. split; [split; [congruence|done]|tauto].
Qed.

Lemma bump_fold_lookup_gen ls c l :
  foldl bump c ls !! l
  = if decide (l ∈ ls)
    then Some (default 0 (c !! l) + Z.of_nat (occurrences l ls))
    else c !! l.
Proof.
  revert c. induction ls as [|x ls IH]; intros c; cbn [foldl].
  { destruct (decide (l ∈ [])) as [Hin|_]; [|done].
    by apply elem_of_nil in Hin. }
  rewrite IH, occurrences_cons, bump_lookup.
  destruct (decide (x = l)) as [->|Hne].
  - rewrite (decide_True (P := l ∈ l :: ls)) by apply list_elem_of_here.
    destruct (decide (l ∈ ls)) as [Hin|Hin]; simpl.
    + f_equal; lia.
    + apply occurrences_0 in Hin. rewrite Hin. f_equal; lia.
  - destruct (decide (l ∈ ls)) as [Hin|Hin].
    + rewrite decide_True by by apply list_elem_of_further.
      simpl. done.
    + rewrite decide_False; [done|].
      rewrite not_elem_of_cons. split; [congruence|done].
Qed.

Lemma bump_fold_lookup ls l :
  foldl bump ∅ ls !! l
  = if decide (occurrences l ls = 0%nat) then None
    else Some (Z.of_nat (occurrences l ls)).
Proof.
  rewrite bump_fold_lookup_gen, lookup_empty. simpl.
  destruct (decide (l ∈ ls)) as [Hin|Hin].
  - rewrite decide_False; [done|]. by intros H%occurrences_0.
  - rewrite decide_True; [done|]. by apply occurrences_0.
Qed.

Lemma occurrences_count_occ x l :
  occurrences x l = count_occ String.string_dec l x.
Proof.
  induction l as [|y l IH]; [done|].
  rewrite occurrences_cons, IH. simpl.
  destruct (String.string_dec y x), (decide (y = x)); done || lia.
Qed.

(** Two folds of [bump] agree exactly when the lists are permutations of
    one another. *)
Lemma bump_fold_eq_perm l1 l2 :
  foldl bump ∅ l1 = foldl bump ∅ l2 ↔ l1 ≡ₚ l2.
Proof.
  split.
  - intros Heq. apply (Permutation_count_occ String.string_dec). intros x.
    rewrite <-!occurrences_count_occ.
    assert (foldl bump ∅ l1 !! x = foldl bump ∅ l2 !! x) as Hx
      by by rewrite Heq.
    rewrite !bump_fold_lookup in Hx.
    repeat destruct (decide _); simplify_eq; lia.
  - intros Hp. apply foldl_perm_comm; [|done].
    intros a x y. apply bump_comm.
Qed.

Lemma length_filter_fmap {A B} (f : A → B) (P : B → Prop)
    `{∀ x, Decision (P x)} (l : list A) :
  length (filter P (f <$> l)) = length (filter (P ∘ f) l).
Proof.
  induction l as [|x l IH]; [done|].
  rewrite fmap_cons, !filter_cons. unfold compose at 1.
  destruct (decide (P (f x))); simpl; by rewrite IH.
Qed.

Lemma length_filter_ext {A} (P Q : A → Prop) `{∀ x, Decision (P x)}
    `{∀ x, Decision (Q x)} (l : list A) :
  (∀ x, x ∈ l → P x ↔ Q x) →
  length (filter P l) = length (filter Q l).
Proof.
  induction l as [|x l IH]; intros HPQ; [done|].
  rewrite !filter_cons.
  assert (P x ↔ Q x) as Hx by apply HPQ, list_elem_of_here.
  assert (length (filter P l) = length (filter Q l)) as Hl.
  { apply IH. intros y Hy. by apply HPQ, list_elem_of_further. }
  destruct (decide (P x)), (decide (Q x)); simpl; tauto || lia.
Qed.

(** With distinct node ids the label recorded for a node is the one that
    was counted for it. *)
Lemma counted_labels sm kk ns ad p tag :
  NoDup (node_id <$> ns) →
  labelOf sm <$> generateSig kk ns ad p tag
  = (λ n, insertAll ns_id (labelOf sm) ∅ (generateSig kk ns ad p tag)
          !!! node_id n) <$> ns.
Proof.
  intros Hnd. unfold generateSig at 1. rewrite <-list_fmap_compose.
  apply list_fmap_ext. intros i n Hn%list_elem_of_lookup_2. unfold compose.
  rewrite lookup_total_alt, insertAll_generateSig.
  by rewrite (lastWith_NoDup node_id ns n).
Qed.

Lemma step_countsFromLabels gA gB tag kk c lA lB pA pB :
  NoDup (nodeIds gA gB tag) →
  countsFromLabels gA gB tag (step (processStepOf gA gB kk c lA lB pA pB)).
Proof.
  intros Hnd. unfold countsFromLabels, nodeLabels, processStepOf.
  destruct tag; cbn [nodeDataAt labelCountsAt graphOf nodeIds] in *.
  - rewrite processStep_labelsA, processStep_unfold.
    cbn [step labelCountsA nextLabelsA].
    unfold stepCountsA, sigsA. by rewrite counted_labels.
  - rewrite processStep_labelsB, processStep_unfold.
    cbn [step labelCountsB nextLabelsB].
    unfold stepCountsB, sigsB. by rewrite counted_labels.
Qed.

Lemma Trace_countsFromLabels gA gB tag ss :
  NoDup (nodeIds gA gB tag) → Trace gA gB ss →
  Forall (countsFromLabels gA gB tag) ss.
Proof.
  intros Hnd. apply Trace_Forall. intros. by apply step_countsFromLabels.
Qed.

Lemma countsFromLabels_histogramOf gA gB tag s :
  labelled (nodeIds gA gB tag) (labelsOf (nodeDataAt s tag)) →
  countsFromLabels gA gB tag s → histogramOf gA gB tag s.
Proof.
  intros Hlab Hc l. rewrite Hc, bump_fold_lookup.
  assert (occurrences l (nodeLabels s tag (graphOf gA gB tag))
          = nodesWithLabel s tag (graphOf gA gB tag) l) as ->; [|done].
  unfold occurrences, nodeLabels, nodesWithLabel.
  rewrite length_filter_fmap. apply length_filter_ext.
  intros n Hn. unfold compose, labelAt.
  destruct (Hlab (node_id n)) as (x & _ & Hx).
  { unfold nodeIds. destruct tag; by apply list_elem_of_fmap_2. }
  rewrite lookup_total_alt, Hx. simpl. split; congruence.
Qed.

(** X5.  When the node ids of a graph are distinct, its histogram
    at every step maps a label to the number of nodes that carry it, and has
    no key for a label that no node carries. *)
Theorem histogram_counts_nodes gA gB maxK tag :
  NoDup (nodeIds gA gB tag) →
  Forall (histogramOf gA gB tag) (steps (runWLAlgorithm gA gB maxK)).
Proof.
  intros Hnd.
  pose proof (runWLAlgorithm_Trace gA gB maxK) as Htr.
  pose proof (Trace_countsFromLabels gA gB tag _ Hnd Htr) as Hc.
  pose proof (Trace_labelled gA gB _ Htr) as Hl.
  rewrite Forall_forall in Hc, Hl. apply Forall_forall. intros s Hs.
  apply countsFromLabels_histogramOf; [|by apply Hc].
  destruct (Hl s Hs) as [HA HB]. by destruct tag.
Qed.

Lemma histogram_counts_nodes_witness :
  NoDup (nodeIds multiGraph pairGraph GB)
  ∧ Forall (histogramOf multiGraph pairGraph GB)
           (steps (runWLAlgorithm multiGraph pairGraph 2)).
Proof.
  assert (NoDup (nodeIds multiGraph pairGraph GB)) as Hnd
    by (apply (bool_decide_unpack _); vm_compute; exact I).
  split; [done|].
  exact (histogram_counts_nodes multiGraph pairGraph 2 GB Hnd).
Defined.

(** ** From one step to the next: the verdict and the number of labels *)

Lemma step_verdict gA gB ss :
  Trace gA gB ss →
  Forall (λ s, isIsomorphicCandidate s
               = areCountsEqual (labelCountsA s) (labelCountsB s)) ss.
Proof.
  apply Trace_Forall. intros. unfold processStepOf.
  by rewrite processStep_unfold.
Qed.

(** Two lists whose images under [f1], [f2] are permutations of one
    another have images under [g1], [g2] that are permutations too, when
    equal [f]-images force equal [g]-images. *)
Lemma fmap_perm_transfer {A1 A2 B C} (f1 : A1 → B) (f2 : A2 → B)
    (g1 : A1 → C) (g2 : A2 → C) (l1 : list A1) (l2 : list A2) :
  (∀ x y, x ∈ l1 → y ∈ l2 → f1 x = f2 y → g1 x = g2 y) →
  f1 <$> l1 ≡ₚ f2 <$> l2 → g1 <$> l1 ≡ₚ g2 <$> l2.
Proof.
  intros Hfg Hp.
  apply Permutation_map_inv in Hp as (l3 & Heq & Hp3).
  rewrite Hp3.
  assert (∀ y, y ∈ l3 → y ∈ l2) as Hin by (intros y; by rewrite Hp3).
  clear Hp3. revert l3 Heq Hin.
  induction l1 as [|x l1 IH]; intros [|y l3] Heq Hin; try done.
  simpl in Heq. injection Heq as Hxy Heq. simpl.
  rewrite (Hfg x y);
    [|apply list_elem_of_here|apply Hin, list_elem_of_here|done].
  constructor. apply IH; [|done|].
  - intros x' y' Hx'. apply Hfg. by apply list_elem_of_further.
  - intros y' Hy'. by apply Hin, list_elem_of_further.
Qed.

Section step_to_step.
Variables (gA gB : GraphData).
Variables (kk c : Z) (pA pB : gmap string string).
Hypothesis Hk : kk ≠ 0.
Hypothesis HlA : labelled (node_id <$> nodes gA) pA.
Hypothesis HlB : labelled (node_id <$> nodes gB) pB.

Local Abbreviation aA := (adjA gA).
Local Abbreviation aB := (adjB gB).
Local Abbreviation sorted := (sortedInitLabels gA gB).
Local Abbreviation imap := (initLabelMap gA gB).
Local Abbreviation sA := (sigsA gA aA kk pA).
Local Abbreviation sB := (sigsB gB aB kk pB).
Local Abbreviation uS := (uniqueSigs gA gB aA aB kk pA pB).
Local Abbreviation sm := (stepMap gA gB aA aB sorted imap kk c pA pB).

(** The signature of a node starts with its previous label, and previous
    labels are numerals: equal signatures come from equal previous
    labels. *)
Lemma signature_self t1 t2 a1 a2 p1 p2 n1 n2 :
  is_label (p1 !!! node_id n1) → is_label (p2 !!! node_id n2) →
  ns_signature (nodeSig kk a1 p1 t1 n1) = ns_signature (nodeSig kk a2 p2 t2 n2) →
  p1 !!! node_id n1 = p2 !!! node_id n2.
Proof.
  intros H1 H2. rewrite !nodeSig_nonzero by done. simpl.
  by apply signatureString_self_inj.
Qed.

Lemma prev_labelA n : n ∈ nodes gA → is_label (pA !!! node_id n).
Proof.
  intros Hn. eapply labelled_is_label; [done|]. by apply list_elem_of_fmap_2.
Qed.

Lemma prev_labelB n : n ∈ nodes gB → is_label (pB !!! node_id n).
Proof.
  intros Hn. eapply labelled_is_label; [done|]. by apply list_elem_of_fmap_2.
Qed.

(** If the new histograms agree, the multisets of the previous labels
    agree. *)
Lemma equal_counts_before :
  stepCountsA gA gB aA aB sorted imap kk c pA pB
  = stepCountsB gA gB aA aB sorted imap kk c pA pB →
  (λ n, pA !!! node_id n) <$> nodes gA ≡ₚ (λ n, pB !!! node_id n) <$> nodes gB.
Proof.
  unfold stepCountsA, stepCountsB. intros Heq%bump_fold_eq_perm.
  unfold sigsA, sigsB, generateSig in Heq.
  rewrite <-!list_fmap_compose in Heq.
  eapply fmap_perm_transfer; [|exact Heq].
  intros n m Hn Hm Hlab. unfold compose in Hlab.
  apply (labelOf_inj gA gB aA aB sorted imap kk c pA pB Hk) in Hlab.
  - apply signature_self in Hlab;
      [done|by apply prev_labelA|by apply prev_labelB].
  - apply elem_of_app. left. by apply list_elem_of_fmap_2.
  - apply elem_of_app. right. by apply list_elem_of_fmap_2.
Qed.

Lemma selfOf_item t a p n :
  nodeSig kk a p t n ∈ sA ++ sB → is_label (p !!! node_id n) →
  selfOf (sA ++ sB) (ns_signature (nodeSig kk a p t n)) = p !!! node_id n.
Proof.
  intros Hin Hlab. unfold selfOf.
  destruct (list_find _ _) as [[i it]|] eqn:Hf.
  - apply list_find_Some in Hf as (Hi%list_elem_of_lookup_2 & Hsig & _).
    simpl. symmetry.
    apply elem_of_app in Hi as [Hi|Hi];
      apply list_elem_of_fmap in Hi as (m & -> & Hm).
    + rewrite (signature_self t GA a aA p pA n m Hlab);
        [|by apply prev_labelA|done].
      by rewrite nodeSig_nonzero.
    + rewrite (signature_self t GB a aB p pB n m Hlab);
        [|by apply prev_labelB|done].
      by rewrite nodeSig_nonzero.
  - apply list_find_None in Hf. rewrite Forall_forall in Hf.
    by destruct (Hf _ Hin).
Qed.

(** Every previous label is the previous label of a signature of the
    step: there are at least as many signatures as labels in use. *)
Lemma labels_le_signatures (ls : list string) :
  NoDup ls →
  (∀ l, l ∈ ls →
     (∃ n, n ∈ nodes gA ∧ pA !!! node_id n = l)
     ∨ (∃ n, n ∈ nodes gB ∧ pB !!! node_id n = l)) →
  (length ls ≤ length uS)%nat.
Proof.
  intros Hnd Hls.
  rewrite <-(length_fmap (selfOf (sA ++ sB)) uS).
  apply submseteq_length, NoDup_submseteq; [done|].
  intros l Hl. apply list_elem_of_fmap.
  destruct (Hls l Hl) as [(n & Hn & <-)|(n & Hn & <-)].
  - assert (nodeSig kk aA pA GA n ∈ sA ++ sB) as Hin.
    { apply elem_of_app. left. by apply list_elem_of_fmap_2. }
    exists (ns_signature (nodeSig kk aA pA GA n)). split.
    + symmetry. apply selfOf_item; [done|by apply prev_labelA].
    + apply uniqueSigs_elem_of. eauto.
  - assert (nodeSig kk aB pB GB n ∈ sA ++ sB) as Hin.
    { apply elem_of_app. right. by apply list_elem_of_fmap_2. }
    exists (ns_signature (nodeSig kk aB pB GB n)). split.
    + symmetry. apply selfOf_item; [done|by apply prev_labelB].
    + apply uniqueSigs_elem_of. eauto.
Qed.
End step_to_step.

Lemma Trace_goodStep gA gB ss :
  NoDup (node_id <$> nodes gA) → NoDup (node_id <$> nodes gB) →
  Trace gA gB ss → Forall (goodStep gA gB) ss.
Proof.
  intros HndA HndB Htr.
  pose proof (Trace_labelled gA gB ss Htr) as H1.
  pose proof (Trace_countsFromLabels gA gB GA ss HndA Htr) as H2.
  pose proof (Trace_countsFromLabels gA gB GB ss HndB Htr) as H3.
  pose proof (step_verdict gA gB ss Htr) as H4.
  pose proof (Trace_uniqueLabelsSpec gA gB ss Htr) as H5.
  pose proof (Trace_k_nonneg gA gB ss Htr) as H6.
  rewrite Forall_forall in H1, H2, H3, H4, H5, H6.
  apply Forall_forall. intros s Hs. destruct (H1 s Hs).
  split; auto.
Qed.

Lemma nextStep_verdict gA gB ss s :
  goodStep gA gB s →
  isIsomorphicCandidate (nextStep gA gB ss s) = true →
  isIsomorphicCandidate s = true.
Proof.
  intros [HlA HlB HcA HcB Hv _ Hk] Hnext.
  unfold nextStep, processStepOf in Hnext.
  rewrite processStep_unfold in Hnext. cbn [step isIsomorphicCandidate] in Hnext.
  apply areCountsEqual_spec in Hnext.
  apply equal_counts_before in Hnext; [|lia|done..].
  rewrite Hv. apply areCountsEqual_spec.
  unfold countsFromLabels in HcA, HcB. simpl in HcA, HcB.
  rewrite HcA, HcB. by apply bump_fold_eq_perm.
Qed.

Lemma nextStep_more_labels gA gB ss s :
  goodStep gA gB s →
  (length (mappings s) ≤ length (mappings (nextStep gA gB ss s)))%nat.
Proof.
  intros [HlA HlB HcA HcB _ (Hu & Hnd & _ & Hkeys) Hk].
  rewrite nextStep_mappings, mintFrom_length by done.
  rewrite <-(length_fmap hm_label), <-Hu.
  apply (labels_le_signatures _ _ _ _ _); [lia|done..|].
  intros l [Hl|Hl]%Hkeys.
  - left. unfold countsFromLabels in HcA. simpl in HcA.
    rewrite HcA in Hl. apply bump_fold_is_Some in Hl as [[? [=]]|Hl].
    apply list_elem_of_fmap in Hl as (n & -> & Hn). eauto.
  - right. unfold countsFromLabels in HcB. simpl in HcB.
    rewrite HcB in Hl. apply bump_fold_is_Some in Hl as [[? [=]]|Hl].
    apply list_elem_of_fmap in Hl as (n & -> & Hn). eauto.
Qed.

(** A property that holds from one step to the next holds between any two
    steps of a trace. *)
Lemma Trace_chain gA gB (R : WLStep → WLStep → Prop) ss :
  Trace gA gB ss →
  (∀ s, R s s) → (∀ s1 s2 s3, R s1 s2 → R s2 s3 → R s1 s3) →
  (∀ ss' s, s ∈ ss → R s (nextStep gA gB ss' s)) →
  ∀ i j si sj, (i ≤ j)%nat → ss !! i = Some si → ss !! j = Some sj → R si sj.
Proof.
  intros Htr Hrefl Htrans Hstep i j si sj Hij Hi.
  revert sj. induction Hij as [|j Hij IH]; intros sj Hj.
  { assert (si = sj) as -> by congruence. apply Hrefl. }
  destruct (lookup_lt_is_Some_2 ss j) as [s Hs].
  { apply lookup_lt_Some in Hj. lia. }
  eapply Htrans; [by apply IH|].
  rewrite (Trace_lookup_succ gA gB ss j s sj Htr Hs Hj).
  apply Hstep. by eapply list_elem_of_lookup_2.
Qed.

(** X6.  With distinct node ids, once a step rejects the pair every
    later step rejects it: the verdict never goes back from [false] to
    [true]. *)
Theorem verdict_never_recovers gA gB maxK i j si sj :
  let ss := steps (runWLAlgorithm gA gB maxK) in
  NoDup (node_id <$> nodes gA) → NoDup (node_id <$> nodes gB) →
  (i ≤ j)%nat → ss !! i = Some si → ss !! j = Some sj →
  isIsomorphicCandidate si = false → isIsomorphicCandidate sj = false.
Proof.
  intros ss HndA HndB Hij Hi Hj.
  pose proof (runWLAlgorithm_Trace gA gB maxK) as Htr.
  pose proof (Trace_goodStep gA gB _ HndA HndB Htr) as Hgood.
  rewrite Forall_forall in Hgood.
  apply (Trace_chain gA gB
           (λ s s', isIsomorphicCandidate s = false →
                    isIsomorphicCandidate s' = false) _ Htr)
    with (i := i) (j := j); auto.
  intros ss' s Hs Hfalse. apply not_true_is_false. intros Htrue.
  apply nextStep_verdict in Htrue; [congruence|by apply Hgood].
Qed.

(** X7.  With distinct node ids, the number of labels in use (the
    number of mappings of a step) never decreases from a step to a later
    one. *)
Theorem label_count_monotone gA gB maxK i j si sj :
  let ss := steps (runWLAlgorithm gA gB maxK) in
  NoDup (node_id <$> nodes gA) → NoDup (node_id <$> nodes gB) →
  (i ≤ j)%nat → ss !! i = Some si → ss !! j = Some sj →
  (length (mappings si) ≤ length (mappings sj))%nat.
Proof.
  intros ss HndA HndB Hij Hi Hj.
  pose proof (runWLAlgorithm_Trace gA gB maxK) as Htr.
  pose proof (Trace_goodStep gA gB _ HndA HndB Htr) as Hgood.
  rewrite Forall_forall in Hgood.
  apply (Trace_chain gA gB
           (λ s s', (length (mappings s) ≤ length (mappings s'))%nat) _ Htr)
    with (i := i) (j := j); auto.
  - intros. lia.
  - intros ss' s Hs. apply nextStep_more_labels. by apply Hgood.
Qed.

Lemma verdict_never_recovers_witness :
  NoDup (node_id <$> nodes pairGraph) ∧ NoDup (node_id <$> nodes multiGraph)
  ∧ ∃ s0 s1,
      steps (runWLAlgorithm pairGraph multiGraph 1) !! 0%nat = Some s0
      ∧ steps (runWLAlgorithm pairGraph multiGraph 1) !! 1%nat = Some s1
      ∧ isIsomorphicCandidate s0 = false
      ∧ isIsomorphicCandidate s1 = false.
Proof.
  assert (NoDup (node_id <$> nodes pairGraph)) as HndA
    by (apply (bool_decide_unpack _); vm_compute; exact I).
  assert (NoDup (node_id <$> nodes multiGraph)) as HndB
    by (apply (bool_decide_unpack _); vm_compute; exact I).
  split_and!; [done..|].
  eexists _, _. split; [reflexivity|]. split; [reflexivity|].
  assert (isIsomorphicCandidate (step (result0 pairGraph multiGraph)) = false)
    as H0 by (vm_compute; reflexivity).
  split; [exact H0|].
  refine (verdict_never_recovers pairGraph multiGraph 1 0 1 _ _ HndA HndB _
            eq_refl eq_refl H0).
  lia.
Defined.

Lemma label_count_monotone_witness :
  NoDup (node_id <$> nodes multiGraph) ∧ NoDup (node_id <$> nodes cyclesB)
  ∧ ∃ s0 s1,
      steps (runWLAlgorithm multiGraph cyclesB 1) !! 0%nat = Some s0
      ∧ steps (runWLAlgorithm multiGraph cyclesB 1) !! 1%nat = Some s1
      ∧ (length (mappings s0) ≤ length (mappings s1))%nat.
Proof.
  assert (NoDup (node_id <$> nodes multiGraph)) as HndA
    by (apply (bool_decide_unpack _); vm_compute; exact I).
  assert (NoDup (node_id <$> nodes cyclesB)) as HndB
    by (apply (bool_decide_unpack _); vm_compute; exact I).
  split_and!; [done..|].
  eexists _, _. split; [reflexivity|]. split; [reflexivity|].
  refine (label_count_monotone multiGraph cyclesB 1 0 1 _ _ HndA HndB _
            eq_refl eq_refl).
  lia.
Defined.

(** ** Renamed copies *)

(** Induction over the steps of a trace, with the property of the previous
    step at hand. *)
Lemma Trace_Forall_ind gA gB (P : WLStep → Prop) ss :
  P (step (result0 gA gB)) →
  (∀ ss s, Trace gA gB ss → s ∈ ss → P s → P (nextStep gA gB ss s)) →
  Trace gA gB ss → Forall P ss.
Proof.
  intros H0 Hnext. induction 1 as [|ss s Htr IH Hlast].
  - by repeat constructor.
  - apply Forall_app. split; [done|]. repeat constructor.
    assert (s ∈ ss) as Hs.
    { rewrite last_lookup in Hlast. by eapply list_elem_of_lookup_2. }
    apply Hnext; [done..|]. rewrite Forall_forall in IH. by apply IH.
Qed.

Section rename_adjacency.
Variables (f : string → string) (ids all : list string).
Hypothesis Hinj : injectiveOn f all.
Hypothesis Hids : ∀ i, i ∈ ids → i ∈ all.

Lemma rename_elem_of i : i ∈ all → f i ∈ f <$> ids ↔ i ∈ ids.
Proof.
  intros Hi. split.
  - intros (j & Hfj & Hj)%list_elem_of_fmap.
    by rewrite (Hinj i j Hi (Hids j Hj) Hfj).
  - apply list_elem_of_fmap_2.
Qed.

Lemma rename_knownLink l :
  source l ∈ all → target l ∈ all →
  knownLink (f <$> ids) (renameLink f l) ↔ knownLink ids l.
Proof.
  intros Hs Ht. unfold knownLink. simpl.
  by rewrite !rename_elem_of.
Qed.

Lemma rename_pushes i l :
  i ∈ all → source l ∈ all → target l ∈ all →
  pushes (f i) (renameLink f l) = f <$> pushes i l.
Proof.
  intros Hi Hs Ht. unfold pushes. simpl. rewrite fmap_app.
  f_equal.
  - destruct (decide (source l = i)) as [<-|Hne].
    + by rewrite decide_True.
    + rewrite decide_False; [done|]. intros Heq. by apply Hne, Hinj.
  - destruct (decide (target l = i)) as [<-|Hne].
    + by rewrite decide_True.
    + rewrite decide_False; [done|]. intros Heq. by apply Hne, Hinj.
Qed.

Lemma rename_neighbourList ls i :
  i ∈ all → Forall (λ l, source l ∈ all ∧ target l ∈ all) ls →
  neighbourList (f <$> ids) (renameLink f <$> ls) (f i)
  = f <$> neighbourList ids ls i.
Proof.
  intros Hi. unfold neighbourList.
  induction 1 as [|l ls [Hs Ht] _ IH]; [done|].
  rewrite fmap_cons, !filter_cons.
  destruct (decide (knownLink ids l)) as [Hk|Hk].
  - rewrite decide_True by by apply rename_knownLink.
    rewrite !bind_cons, fmap_app, IH. by rewrite rename_pushes.
  - rewrite decide_False; [done|]. by rewrite rename_knownLink.
Qed.
End rename_adjacency.

Lemma mentioned_links g :
  Forall (λ l, source l ∈ mentioned g ∧ target l ∈ mentioned g) (links g).
Proof.
  apply Forall_forall. intros l Hl. unfold mentioned.
  rewrite !elem_of_app. split; right; [left|right];
    by apply list_elem_of_fmap_2.
Qed.

Lemma mentioned_ids g i : i ∈ node_id <$> nodes g → i ∈ mentioned g.
Proof. intros Hi. unfold mentioned. apply elem_of_app. by left. Qed.

Lemma renameGraph_ids f g :
  node_id <$> nodes (renameGraph f g) = f <$> (node_id <$> nodes g).
Proof. simpl. by rewrite <-!list_fmap_compose. Qed.

Lemma renameGraph_NoDup f g :
  injectiveOn f (mentioned g) → NoDup (node_id <$> nodes g) →
  NoDup (node_id <$> nodes (renameGraph f g)).
Proof.
  intros Hinj Hnd. rewrite renameGraph_ids.
  apply NoDup_fmap_2_strong; [|done].
  intros a b Ha Hb. apply Hinj; by apply mentioned_ids.
Qed.

(** The neighbour array of a renamed node is the renamed neighbour
    array. *)
Lemma rename_adjacency f g i :
  injectiveOn f (mentioned g) → i ∈ node_id <$> nodes g →
  default [] (adjB (renameGraph f g) !! f i)
  = f <$> default [] (adjA g !! i).
Proof.
  intros Hinj Hi. unfold adjA, adjB.
  rewrite !getAdjacencyList_lookup, renameGraph_ids.
  rewrite decide_True by by apply list_elem_of_fmap_2.
  rewrite decide_True by done. simpl.
  apply (rename_neighbourList f _ (mentioned g)); auto using mentioned_ids.
  apply mentioned_links.
Qed.

Section rename_step.
Variables (g : GraphData) (f : string → string).
Variables (sorted : list Z) (imap : gmap Z string).
Variables (kk c : Z) (pA pB : gmap string string).
Hypothesis Hinj : injectiveOn f (mentioned g).
Hypothesis Hnd : NoDup (node_id <$> nodes g).
Hypothesis Hprev :
  kk ≠ 0 → ∀ id, id ∈ node_id <$> nodes g → pB !!! f id = pA !!! id.

Local Abbreviation gB := (renameGraph f g).
Local Abbreviation aA := (adjA g).
Local Abbreviation aB := (adjB gB).
Local Abbreviation sA := (sigsA g aA kk pA).
Local Abbreviation sB := (sigsB gB aB kk pB).
Local Abbreviation sm := (stepMap g gB aA aB sorted imap kk c pA pB).

Lemma rename_nodeSig n :
  n ∈ nodes g →
  ns_signature (nodeSig kk aB pB GB (renameNode f n))
  = ns_signature (nodeSig kk aA pA GA n).
Proof.
  intros Hn. destruct (decide (kk = 0)) as [Hk|Hk].
  { unfold nodeSig. by rewrite Hk. }
  assert (node_id n ∈ node_id <$> nodes g) as Hid
    by by apply list_elem_of_fmap_2.
  rewrite !nodeSig_nonzero by done. cbn [ns_signature renameNode node_id].
  rewrite rename_adjacency by done.
  rewrite (Hprev Hk) by done. do 2 f_equal.
  rewrite <-list_fmap_compose. apply list_fmap_ext.
  intros i nid Hnid%list_elem_of_lookup_2. unfold compose.
  apply (Hprev Hk). by eapply adjacency_known.
Qed.

Lemma rename_labels :
  labelOf sm <$> sB = labelOf sm <$> sA.
Proof.
  unfold sigsA, sigsB, generateSig. simpl.
  rewrite <-!list_fmap_compose. apply list_fmap_ext.
  intros i n Hn%list_elem_of_lookup_2. unfold compose, labelOf.
  by rewrite rename_nodeSig.
Qed.

Lemma rename_counts :
  stepCountsA g gB aA aB sorted imap kk c pA pB
  = stepCountsB g gB aA aB sorted imap kk c pA pB.
Proof. unfold stepCountsA, stepCountsB. by rewrite rename_labels. Qed.

Lemma rename_nextLabels n :
  n ∈ nodes g →
  insertAll ns_id (labelOf sm) ∅ sA !! node_id n
  = Some (labelOf sm (nodeSig kk aA pA GA n))
  ∧ insertAll ns_id (labelOf sm) ∅ sB !! f (node_id n)
    = Some (labelOf sm (nodeSig kk aA pA GA n)).
Proof.
  intros Hn. unfold sigsA, sigsB. rewrite !insertAll_generateSig. split.
  - by rewrite (lastWith_NoDup node_id (nodes g) n).
  - change (f (node_id n)) with (node_id (renameNode f n)).
    rewrite (lastWith_NoDup node_id (nodes gB) (renameNode f n)).
    + simpl. unfold labelOf. by rewrite rename_nodeSig.
    + by apply renameGraph_NoDup.
    + simpl. by apply list_elem_of_fmap_2.
Qed.

Lemma rename_step lA lB :
  agreeing g f
    (step (processStep g gB aA aB sorted imap kk c lA lB pA pB)).
Proof.
  unfold agreeing, labelAt, nodeDataAt.
  rewrite processStep_labelsA, processStep_labelsB.
  rewrite processStep_unfold.
  cbn [step isIsomorphicCandidate labelCountsA labelCountsB nextLabelsA
       nextLabelsB].
  split_and!.
  - apply areCountsEqual_spec, rename_counts.
  - apply rename_counts.
  - intros id (n & -> & Hn)%list_elem_of_fmap.
    destruct (rename_nextLabels n Hn) as [-> ->]. eauto.
Qed.
End rename_step.

Lemma renamed_run_agreeing g f ss :
  injectiveOn f (mentioned g) → NoDup (node_id <$> nodes g) →
  Trace g (renameGraph f g) ss → Forall (agreeing g f) ss.
Proof.
  intros Hinj Hnd. apply Trace_Forall_ind.
  - apply rename_step; done.
  - intros ss' s _ _ (_ & _ & Hs). apply rename_step; [done..|].
    intros _ id Hid. destruct (Hs id Hid) as [_ Heq].
    unfold labelAt in Heq. simpl in Heq.
    by rewrite !lookup_total_alt, Heq.
Qed.

Lemma renamed_copy_agreeing g gB f maxK :
  NoDup (node_id <$> nodes g) → injectiveOn f (mentioned g) →
  nodes gB ≡ₚ nodes (renameGraph f g) →
  links gB ≡ₚ links (renameGraph f g) →
  Forall (agreeing g f) (steps (runWLAlgorithm g gB maxK)).
Proof.
  intros Hnd Hinj Hn Hl.
  assert (runLoop g (renameGraph f g) maxK = runLoop g gB maxK) as Hrun.
  { apply runLoop_perm; [done|by apply renameGraph_NoDup|done..]. }
  unfold runWLAlgorithm. cbn [steps]. rewrite <-Hrun.
  apply renamed_run_agreeing; [done..|].
  apply (runWLAlgorithm_Trace g (renameGraph f g) maxK).
Qed.

(** X8.  Running the algorithm on a graph with distinct node ids and
    on a copy whose ids are renamed by [f], injective on the ids that the
    graph mentions, and whose node and link arrays are in any order: every
    step has equal histograms and the verdict [true], and the node [f id]
    of the copy carries the label of the node [id]. *)
Theorem renamed_copy_never_rejected g gB f maxK :
  NoDup (node_id <$> nodes g) → injectiveOn f (mentioned g) →
  nodes gB ≡ₚ nodes (renameGraph f g) →
  links gB ≡ₚ links (renameGraph f g) →
  Forall (agreeing g f) (steps (runWLAlgorithm g gB maxK)).
Proof. apply renamed_copy_agreeing. Qed.

Lemma renamed_copy_never_rejected_witness :
  let f := String.app "x" in
  let gB := reversed (renameGraph f pairGraph) in
  NoDup (node_id <$> nodes pairGraph)
  ∧ injectiveOn f (mentioned pairGraph)
  ∧ nodes gB ≡ₚ nodes (renameGraph f pairGraph)
  ∧ links gB ≡ₚ links (renameGraph f pairGraph)
  ∧ Forall (agreeing pairGraph f) (steps (runWLAlgorithm pairGraph gB 2)).
Proof.
  intros f gB.
  assert (NoDup (node_id <$> nodes pairGraph)) as Hnd
    by (apply (bool_decide_unpack _); vm_compute; exact I).
  assert (injectiveOn f (mentioned pairGraph)) as Hinj
    by (intros a b _ _; apply (inj (String.app "x"))).
  assert (nodes gB ≡ₚ nodes (renameGraph f pairGraph)) as Hn
    by apply reverse_Permutation.
  assert (links gB ≡ₚ links (renameGraph f pairGraph)) as Hl
    by apply reverse_Permutation.
  split_and!; [done..|].
  exact (renamed_copy_never_rejected pairGraph gB f 2 Hnd Hinj Hn Hl).
Defined.

(** ** [createPermutedCopy] *)

Lemma swapIndices_length l i j : length (swapIndices l i j) = length l.
Proof. unfold swapIndices. by rewrite !length_insert. Qed.

Lemma swapIndices_lookup l i j k :
  (i < length l)%nat → (j < length l)%nat →
  swapIndices l i j !! k
  = l !! (if decide (k = j) then i else if decide (k = i) then j else k).
Proof.
  intros Hi Hj. unfold swapIndices.
  destruct (decide (k = j)) as [->|Hkj].
  - rewrite list_lookup_insert_eq by by rewrite length_insert.
    by rewrite list_lookup_lookup_total_lt.
  - rewrite list_lookup_insert_ne by done.
    destruct (decide (k = i)) as [->|Hki].
    + rewrite list_lookup_insert_eq by done.
      by rewrite list_lookup_lookup_total_lt.
    + by rewrite list_lookup_insert_ne.
Qed.

Lemma swapIndices_perm l i j :
  (i < length l)%nat → (j < length l)%nat → swapIndices l i j ≡ₚ l.
Proof.
  intros Hi Hj. apply Permutation_inj. split; [apply swapIndices_length|].
  exists (λ k, if decide (k = j) then i
               else if decide (k = i) then j else k).
  split; [|intros k; by apply swapIndices_lookup].
  intros a b Hab.
  destruct (decide (a = j)), (decide (a = i)), (decide (b = j)),
    (decide (b = i)); congruence.
Qed.

Lemma shuffle_fold_perm (draw : nat → nat) (rounds : list nat) l :
  Forall (λ i, (i < length l)%nat ∧ (draw i < length l)%nat) rounds →
  foldl (λ indices i, swapIndices indices i (draw i)) l rounds ≡ₚ l.
Proof.
  intros Hr. revert l Hr.
  induction rounds as [|i rounds IH]; intros l Hr; [done|].
  apply Forall_cons in Hr as [[Hi Hj] Hr]. simpl.
  rewrite IH; [by apply swapIndices_perm|].
  eapply Forall_impl; [done|]. intros r. simpl.
  by rewrite swapIndices_length.
Qed.

Lemma shuffleIndices_perm draw n :
  (∀ i, (draw i ≤ i)%nat) → shuffleIndices draw n ≡ₚ seq 0 n.
Proof.
  intros Hdraw. unfold shuffleIndices. apply shuffle_fold_perm.
  apply Forall_forall. intros i Hi%elem_of_reverse%elem_of_seq.
  rewrite length_seq. specialize (Hdraw i). lia.
Qed.

(** X9.  Whatever indices within range are drawn, the Fisher-Yates
    loop leaves a permutation of [0 .. n - 1] in [indices]. *)
Theorem shuffle_is_permutation draw n :
  (∀ i, (draw i ≤ i)%nat) →
  shuffleIndices draw n ≡ₚ seq 0 n
  ∧ NoDup (shuffleIndices draw n)
  ∧ length (shuffleIndices draw n) = n.
Proof.
  intros Hdraw. pose proof (shuffleIndices_perm draw n Hdraw) as Hp.
  split_and!; [done|..].
  - rewrite Hp. apply NoDup_seq.
  - by rewrite Hp, length_seq.
Qed.

Lemma div2_le i : (Nat.div2 i ≤ i)%nat.
Proof.
  apply Nat.lt_eq_cases. destruct i as [|i]; [by right|left].
  apply Nat.lt_div2. lia.
Qed.

Lemma shuffle_is_permutation_witness :
  (∀ i, (Nat.div2 i ≤ i)%nat)
  ∧ shuffleIndices Nat.div2 5 = [4; 0; 3; 1; 2]%nat
  ∧ shuffleIndices Nat.div2 5 ≡ₚ seq 0 5.
Proof.
  split_and!; [exact div2_le|reflexivity|].
  exact (proj1 (shuffle_is_permutation Nat.div2 5 div2_le)).
Defined.

Lemma indexed_inj prefix a b : indexed prefix a = indexed prefix b → a = b.
Proof.
  unfold indexed. intros H%(inj (String.app prefix))%toString_inj. lia.
Qed.

Lemma oldIdToNewId_lookup g prefix indices i n :
  NoDup (node_id <$> nodes g) → nodes g !! i = Some n →
  oldIdToNewId g prefix indices !!! node_id n
  = indexed prefix (indices !!! i).
Proof.
  intros Hnd Hi. unfold oldIdToNewId.
  change (foldl (setNewId prefix indices) ∅ ?l)
    with (insertAll (λ e : nat * Node, node_id e.2)
            (λ e, indexed prefix (indices !!! e.1)) ∅ l).
  rewrite lookup_total_alt.
  rewrite (insertAll_lookup_NoDup (λ e : nat * Node, node_id e.2) _ _ (i, n));
    [done|..].
  - assert (∀ l : list (nat * Node),
              (λ e, node_id e.2) <$> l = node_id <$> l.*2) as ->
      by (intros l; by rewrite <-list_fmap_compose).
    rewrite snd_zip; [done|]. by rewrite length_seq.
  - apply (list_elem_of_lookup_2 _ i). apply lookup_zip_with_Some.
    exists i, n. split_and!; [done| |done].
    apply lookup_seq. split; [done|]. by apply lookup_lt_Some in Hi.
Qed.

Section permuted_copy.
Variables (draw : nat → nat) (order : list Node → list Node).
Variables (g : GraphData) (prefix : string).
Hypothesis Hdraw : ∀ i, (draw i ≤ i)%nat.
Hypothesis Horder : ∀ l, order l ≡ₚ l.
Hypothesis Hwf : wellFormed g.

Local Abbreviation indices := (shuffleIndices draw (length (nodes g))).
Local Abbreviation f := (newIdOf draw g prefix).
Local Abbreviation copy := (createPermutedCopy draw order g prefix).

Lemma newIdOf_lookup i n :
  nodes g !! i = Some n → f (node_id n) = indexed prefix (indices !!! i).
Proof.
  intros Hi. unfold newIdOf. apply oldIdToNewId_lookup; [apply Hwf|done].
Qed.

Lemma mentioned_wellFormed a : a ∈ mentioned g → a ∈ node_id <$> nodes g.
Proof.
  destruct Hwf as [_ Hl]. rewrite Forall_forall in Hl. unfold mentioned.
  rewrite !elem_of_app.
  intros [Ha|[(l & -> & Hin)%list_elem_of_fmap|(l & -> & Hin)%list_elem_of_fmap]];
    [done|by apply (Hl l Hin)..].
Qed.

Lemma newIdOf_injective : injectiveOn f (mentioned g).
Proof.
  intros a b Ha%mentioned_wellFormed Hb%mentioned_wellFormed.
  apply list_elem_of_fmap in Ha as (na & -> & Hna).
  apply list_elem_of_fmap in Hb as (nb & -> & Hnb).
  apply list_elem_of_lookup in Hna as [i Hi].
  apply list_elem_of_lookup in Hnb as [j Hj].
  rewrite (newIdOf_lookup i na Hi), (newIdOf_lookup j nb Hj).
  intros Heq%indexed_inj.
  pose proof (shuffleIndices_perm draw (length (nodes g)) Hdraw) as Hp.
  assert (length indices = length (nodes g)) as Hlen
    by by rewrite Hp, length_seq.
  assert (NoDup indices) as Hnd by (rewrite Hp; apply NoDup_seq).
  assert (i = j) as ->.
  { apply lookup_lt_Some in Hi as Hi', Hj as Hj'.
    eapply (NoDup_lookup indices i j); [done|..].
    - apply list_lookup_lookup_total_lt. lia.
    - rewrite Heq. apply list_lookup_lookup_total_lt. lia. }
  congruence.
Qed.

Lemma copy_nodes : nodes copy ≡ₚ nodes (renameGraph f g).
Proof. unfold createPermutedCopy. cbn [nodes]. by rewrite Horder. Qed.

Lemma copy_links : links copy = links (renameGraph f g).
Proof. done. Qed.

Lemma copy_ids :
  node_id <$> nodes copy ≡ₚ indexed prefix <$> seq 0 (length (nodes g)).
Proof.
  rewrite copy_nodes, renameGraph_ids.
  rewrite <-(shuffleIndices_perm draw (length (nodes g)) Hdraw).
  rewrite <-list_fmap_compose.
  assert ((f ∘ node_id) <$> nodes g = indexed prefix <$> indices) as ->;
    [|done].
  pose proof (shuffleIndices_perm draw (length (nodes g)) Hdraw) as Hp.
  assert (length indices = length (nodes g)) as Hlen
    by by rewrite Hp, length_seq.
  apply list_eq. intros i. rewrite !list_lookup_fmap.
  destruct (nodes g !! i) as [n|] eqn:Hi; simpl.
  - apply lookup_lt_Some in Hi as Hi'.
    rewrite (list_lookup_lookup_total_lt indices i) by lia. simpl.
    f_equal. by apply newIdOf_lookup.
  - apply lookup_ge_None in Hi.
    rewrite (lookup_ge_None_2 indices i) by lia. done.
Qed.

Lemma copy_wellFormed : wellFormed copy.
Proof.
  destruct Hwf as [Hnd Hl]. split.
  - rewrite copy_ids. apply NoDup_fmap_2_strong; [|apply NoDup_seq].
    intros a b _ _. apply indexed_inj.
  - rewrite copy_links. simpl.
    apply Forall_fmap. eapply Forall_impl; [exact Hl|].
    intros l [Hs Ht].
    split; simpl; rewrite copy_nodes, renameGraph_ids;
      by apply list_elem_of_fmap_2.
Qed.

Lemma copy_agreeing maxK :
  Forall (agreeing g f) (steps (runWLAlgorithm g copy maxK)).
Proof.
  apply renamed_copy_agreeing.
  - apply Hwf.
  - apply newIdOf_injective.
  - apply copy_nodes.
  - by rewrite copy_links.
Qed.
End permuted_copy.

(** X10.  The copy made by [createPermutedCopy] of a graph of [n]
    nodes with distinct ids and links between its nodes: its node ids are
    [prefix0 .. prefix(n-1)] in some order, it has as many links, and it is
    again such a graph. *)
Theorem permuted_copy_ids draw order g prefix :
  (∀ i, (draw i ≤ i)%nat) → (∀ l, order l ≡ₚ l) → wellFormed g →
  let copy := createPermutedCopy draw order g prefix in
  node_id <$> nodes copy ≡ₚ indexed prefix <$> seq 0 (length (nodes g))
  ∧ originalLabel <$> nodes copy ≡ₚ originalLabel <$> nodes g
  ∧ length (links copy) = length (links g)
  ∧ wellFormed copy.
Proof.
  intros Hdraw Horder Hwf copy. split_and!.
  - by apply copy_ids.
  - unfold copy. rewrite copy_nodes by done. simpl.
    by rewrite <-list_fmap_compose.
  - unfold copy. rewrite copy_links. simpl. by rewrite length_fmap.
  - by apply copy_wellFormed.
Qed.

(** X11.  Whatever [Math.random] returns, the algorithm never
    rejects the pair made of a graph (distinct node ids, links between its
    nodes) and its copy by [createPermutedCopy]: at every step the
    histograms are equal, the verdict is [true], and a node of the copy
    carries the label of the node it was made from. *)
Theorem permuted_copy_never_rejected draw order g prefix maxK :
  (∀ i, (draw i ≤ i)%nat) → (∀ l, order l ≡ₚ l) → wellFormed g →
  Forall (agreeing g (newIdOf draw g prefix))
    (steps (runWLAlgorithm g (createPermutedCopy draw order g prefix) maxK)).
Proof. intros. by apply copy_agreeing. Qed.

Lemma permutedScenarios_copy draw order type :
  type ∈ permutedScenarios →
  wellFormed (graphA (getScenario draw order type))
  ∧ ∃ prefix,
      graphB (getScenario draw order type)
      = createPermutedCopy draw order
          (graphA (getScenario draw order type)) prefix.
Proof.
  unfold permutedScenarios. intros Hin.
  repeat (apply elem_of_cons in Hin as [->|Hin]);
    [..|by apply elem_of_nil in Hin];
    (split; [apply (bool_decide_unpack _); vm_compute; exact I
            |eexists; reflexivity]).
Qed.

(** X12.  In the five scenarios built with [createPermutedCopy]
    the verdict is [true] at every step of the run that the page makes
    (horizon [MAX_K]), whatever [Math.random] returns. *)
Theorem permuted_scenarios_pass draw order :
  (∀ i, (draw i ≤ i)%nat) → (∀ l, order l ≡ₚ l) →
  Forall (λ type,
            let sc := getScenario draw order type in
            Forall (λ s, isIsomorphicCandidate s = true)
                   (steps (runWLAlgorithm (graphA sc) (graphB sc) MAX_K)))
         permutedScenarios.
Proof.
  intros Hdraw Horder. apply Forall_forall. intros type Hin. cbn zeta.
  destruct (permutedScenarios_copy draw order type Hin)
    as (Hwf & prefix & ->).
  eapply Forall_impl; [by apply copy_agreeing|].
  by intros s [? _].
Qed.

Lemma reverse_order (l : list Node) : reverse l ≡ₚ l.
Proof. apply reverse_Permutation. Qed.

Lemma permuted_copy_ids_witness :
  let copy := createPermutedCopy Nat.div2 reverse houseGraph "B" in
  (∀ i, (Nat.div2 i ≤ i)%nat) ∧ (∀ l : list Node, reverse l ≡ₚ l)
  ∧ wellFormed houseGraph
  ∧ node_id <$> nodes copy = ["B2"; "B1"; "B3"; "B0"; "B4"]
  ∧ node_id <$> nodes copy ≡ₚ indexed "B" <$> seq 0 5
  ∧ wellFormed copy.
Proof.
  intros copy.
  assert (wellFormed houseGraph) as Hwf
    by (apply (bool_decide_unpack _); vm_compute; exact I).
  split_and!; [exact div2_le|exact reverse_order|exact Hwf|reflexivity|..].
  - exact (proj1 (permuted_copy_ids Nat.div2 reverse houseGraph "B"
                    div2_le reverse_order Hwf)).
  - exact (proj2 (proj2 (proj2
             (permuted_copy_ids Nat.div2 reverse houseGraph "B"
                div2_le reverse_order Hwf)))).
Defined.

Lemma permuted_copy_never_rejected_witness :
  (∀ i, (Nat.div2 i ≤ i)%nat) ∧ (∀ l : list Node, reverse l ≡ₚ l)
  ∧ wellFormed treeGraph
  ∧ Forall (agreeing treeGraph (newIdOf Nat.div2 treeGraph "t2"))
      (steps (runWLAlgorithm treeGraph
                (createPermutedCopy Nat.div2 reverse treeGraph "t2") 3)).
Proof.
  assert (wellFormed treeGraph) as Hwf
    by (apply (bool_decide_unpack _); vm_compute; exact I).
  split_and!; [exact div2_le|exact reverse_order|exact Hwf|].
  exact (permuted_copy_never_rejected Nat.div2 reverse treeGraph "t2" 3
           div2_le reverse_order Hwf).
Defined.

Lemma permuted_scenarios_pass_witness :
  (∀ i, (Nat.div2 i ≤ i)%nat) ∧ (∀ l : list Node, reverse l ≡ₚ l)
  ∧ Forall (λ type,
              let sc := getScenario Nat.div2 reverse type in
              Forall (λ s, isIsomorphicCandidate s = true)
                     (steps (runWLAlgorithm (graphA sc) (graphB sc) MAX_K)))
           permutedScenarios.
Proof.
  split_and!; [exact div2_le|exact reverse_order|].
  exact (permuted_scenarios_pass Nat.div2 reverse div2_le reverse_order).
Defined.

(** ** Regular graphs with one initial value *)

Lemma NoDup_const {A} (a : A) (l : list A) :
  NoDup l → l ≠ [] → Forall (a =.) l → l = [a].
Proof.
  intros Hnd Hne Hall. destruct l as [|x [|y l]]; [done|..].
  - apply Forall_cons in Hall as [-> _]. done.
  - apply Forall_cons in Hall as [<- Hall].
    apply Forall_cons in Hall as [<- _].
    apply NoDup_cons in Hnd as [Hin _]. destruct Hin. apply list_elem_of_here.
Qed.

Lemma Array_from_Set_const `{EqDecision A} (a : A) (l : list A) :
  l ≠ [] → Forall (a =.) l → Array_from_Set l = [a].
Proof.
  intros Hne Hall. apply NoDup_const; [apply Array_from_Set_NoDup|..].
  - destruct l as [|x l]; [done|]. intros Hnil.
    assert (x ∈ Array_from_Set (x :: l)) as Hx
      by apply Array_from_Set_elem_of, list_elem_of_here.
    rewrite Hnil in Hx. by apply elem_of_nil in Hx.
  - apply Forall_forall. intros x Hx.
    apply (proj1 (Array_from_Set_elem_of l x)) in Hx.
    rewrite Forall_forall in Hall. by apply Hall.
Qed.

Lemma bump_fold_const l ls :
  Forall (l =.) ls → foldl bump ∅ ls = singleLabel l (length ls).
Proof.
  intros Hall. apply map_eq. intros x. rewrite bump_fold_lookup.
  assert (∀ y, y ≠ l → occurrences y ls = 0%nat) as Hother.
  { intros y Hy. apply occurrences_0. intros Hin.
    rewrite Forall_forall in Hall. by specialize (Hall y Hin). }
  assert (occurrences l ls = length ls) as Hl.
  { clear Hother. induction Hall as [|y ls <- _ IH]; [done|].
    rewrite occurrences_cons, decide_True by done. simpl. by rewrite IH. }
  unfold singleLabel. destruct (decide (x = l)) as [->|Hx].
  - rewrite Hl. destruct (decide (length ls = 0%nat)); [done|].
    by rewrite lookup_singleton_eq.
  - rewrite (Hother x Hx). rewrite decide_True by done.
    destruct (decide (length ls = 0%nat)); [done|].
    by rewrite lookup_singleton_ne.
Qed.

Lemma singleLabel_eq l m n : singleLabel l m = singleLabel l n ↔ m = n.
Proof.
  split; [|by intros ->]. unfold singleLabel. intros Heq.
  destruct (decide (m = 0%nat)) as [->|Hm], (decide (n = 0%nat)) as [->|Hn];
    [done|..].
  - assert ((∅ : gmap string Z) !! l = Some (Z.of_nat n)) as H
      by by rewrite Heq, lookup_singleton_eq.
    by rewrite lookup_empty in H.
  - assert ((∅ : gmap string Z) !! l = Some (Z.of_nat m)) as H
      by by rewrite <-Heq, lookup_singleton_eq.
    by rewrite lookup_empty in H.
  - assert (({[l := Z.of_nat m]} : gmap string Z) !! l = Some (Z.of_nat n))
      as H by by rewrite Heq, lookup_singleton_eq.
    rewrite lookup_singleton_eq in H. injection H. lia.
Qed.

(** A step all of whose signature records get the label [l]. *)
Section single_label_step.
Variables (gA gB : GraphData).
Variables (aA aB : gmap string (list string)).
Variables (sorted : list Z) (imap : gmap Z string).
Variables (kk c : Z) (pA pB : gmap string string) (l : string).

Local Abbreviation sA := (sigsA gA aA kk pA).
Local Abbreviation sB := (sigsB gB aB kk pB).
Local Abbreviation sm := (stepMap gA gB aA aB sorted imap kk c pA pB).

Hypothesis Hall : ∀ item, item ∈ sA ++ sB → labelOf sm item = l.

Lemma single_countsA :
  stepCountsA gA gB aA aB sorted imap kk c pA pB
  = singleLabel l (length (nodes gA)).
Proof.
  unfold stepCountsA.
  rewrite (bump_fold_const l).
  - unfold sigsA. by rewrite length_fmap, generateSig_length.
  - apply Forall_fmap, Forall_forall. intros item Hitem. simpl.
    symmetry. apply Hall, elem_of_app. by left.
Qed.

Lemma single_countsB :
  stepCountsB gA gB aA aB sorted imap kk c pA pB
  = singleLabel l (length (nodes gB)).
Proof.
  unfold stepCountsB.
  rewrite (bump_fold_const l).
  - unfold sigsB. by rewrite length_fmap, generateSig_length.
  - apply Forall_fmap, Forall_forall. intros item Hitem. simpl.
    symmetry. apply Hall, elem_of_app. by right.
Qed.

Lemma single_nextLabelsA id :
  id ∈ node_id <$> nodes gA →
  insertAll ns_id (labelOf sm) ∅ sA !! id = Some l.
Proof.
  intros Hid. unfold sigsA. rewrite insertAll_generateSig.
  apply (lastWith_is_Some node_id) in Hid as [n Hn]. rewrite Hn. simpl.
  f_equal. apply Hall, elem_of_app. left.
  apply lastWith_Some in Hn as [Hn _]. by apply list_elem_of_fmap_2.
Qed.

Lemma single_nextLabelsB id :
  id ∈ node_id <$> nodes gB →
  insertAll ns_id (labelOf sm) ∅ sB !! id = Some l.
Proof.
  intros Hid. unfold sigsB. rewrite insertAll_generateSig.
  apply (lastWith_is_Some node_id) in Hid as [n Hn]. rewrite Hn. simpl.
  f_equal. apply Hall, elem_of_app. right.
  apply lastWith_Some in Hn as [Hn _]. by apply list_elem_of_fmap_2.
Qed.

Lemma single_label_step lA lB :
  l = toString (kk + 1) →
  hm_label <$> stepMappings gA gB aA aB sorted imap kk c pA pB = [l] →
  uniformStep gA gB
    (step (processStep gA gB aA aB sorted imap kk c lA lB pA pB)).
Proof.
  intros Hl Hm. unfold uniformStep, labelAt, nodeDataAt.
  rewrite processStep_labelsA, processStep_labelsB, processStep_unfold.
  cbn [step k mappings labelCountsA labelCountsB nextLabelsA nextLabelsB
       isIsomorphicCandidate].
  rewrite <-Hl. split_and!.
  - done.
  - apply single_countsA.
  - apply single_countsB.
  - apply single_nextLabelsA.
  - apply single_nextLabelsB.
  - rewrite single_countsA, single_countsB.
    destruct (areCountsEqual _ _) eqn:Heq.
    + apply areCountsEqual_spec, singleLabel_eq in Heq.
      by rewrite bool_decide_eq_true_2.
    + symmetry. apply bool_decide_eq_false. intros Hlen.
      apply not_true_iff_false in Heq. apply Heq, areCountsEqual_spec.
      by rewrite Hlen.
Qed.
End single_label_step.

Section regular_graphs.
Variables (gA gB : GraphData) (v : Z) (d : nat).
Hypothesis HuA : uniformLabel gA v.
Hypothesis HuB : uniformLabel gB v.
Hypothesis HrA : regular gA d.
Hypothesis HrB : regular gB d.
Hypothesis Hne : nodes gA ++ nodes gB ≠ [].

Lemma uniform_sortedInitLabels : sortedInitLabels gA gB = [v].
Proof.
  unfold sortedInitLabels, allInitialValues.
  rewrite (Array_from_Set_const v); [done|..].
  - rewrite <-fmap_app. by destruct (nodes gA ++ nodes gB).
  - pose proof HuA as HA. pose proof HuB as HB.
    unfold uniformLabel in HA, HB. rewrite Forall_forall in HA, HB.
    apply Forall_app. split; apply Forall_fmap, Forall_forall;
      intros n Hn; unfold compose; symmetry; auto.
Qed.

Lemma uniform_initLabelMap : initLabelMap gA gB !!! v = toString 1.
Proof.
  destruct (initLabelMap_total gA gB v) as (i & Hi & ->).
  { rewrite uniform_sortedInitLabels. apply list_elem_of_here. }
  rewrite uniform_sortedInitLabels in Hi. by destruct i.
Qed.

Lemma uniform_step0 : uniformStep gA gB (step (result0 gA gB)).
Proof.
  unfold result0, processStepOf.
  apply (single_label_step _ _ _ _ _ _ _ _ _ _ (toString 1)); [|done|].
  - assert (∀ n, n ∈ nodes gA ∨ n ∈ nodes gB → originalLabel n = v) as Hv.
    { unfold uniformLabel in HuA, HuB. rewrite Forall_forall in HuA, HuB.
      intros n [Hn|Hn]; auto. }
    assert (v ∈ sortedInitLabels gA gB) as Hin.
    { rewrite uniform_sortedInitLabels. apply list_elem_of_here. }
    intros item [Hi|Hi]%elem_of_app;
      apply list_elem_of_fmap in Hi as (n & -> & Hn);
      (rewrite labelOf0; rewrite Hv by auto; [|done]);
      apply uniform_initLabelMap.
  - unfold stepMappings. rewrite decide_True by done.
    rewrite initialMappings_labels, uniform_sortedInitLabels. done.
Qed.

Section next.
Variables (kk : Z) (pA pB : gmap string string) (l : string).
Hypothesis Hk : kk ≠ 0.
Hypothesis HpA : ∀ id, id ∈ node_id <$> nodes gA → pA !! id = Some l.
Hypothesis HpB : ∀ id, id ∈ node_id <$> nodes gB → pB !! id = Some l.

Lemma regular_signature (g : GraphData) tag p n :
  regular g d → (∀ id, id ∈ node_id <$> nodes g → p !! id = Some l) →
  n ∈ nodes g →
  ns_signature (nodeSig kk (getAdjacencyList (nodes g) (links g)) p tag n)
  = signatureString l (replicate d l).
Proof.
  intros Hr Hp Hn. rewrite nodeSig_nonzero by done. cbn [ns_signature].
  unfold regular in Hr. rewrite Forall_forall in Hr.
  specialize (Hr n Hn).
  rewrite lookup_total_alt, Hp by by apply list_elem_of_fmap_2. simpl.
  assert ((λ nid, p !!! nid)
            <$> default [] (getAdjacencyList (nodes g) (links g) !! node_id n)
          = replicate d l) as ->.
  { symmetry. apply replicate_as_Forall_2; [by rewrite length_fmap|].
    apply Forall_fmap, Forall_forall. intros nid Hnid. simpl.
    rewrite lookup_total_alt, Hp; [done|]. by eapply adjacency_known. }
  f_equal. symmetry. apply replicate_Permutation.
  unfold Array_sort. by rewrite sort_with_perm.
Qed.

Lemma regular_uniqueSigs :
  uniqueSigs gA gB (adjA gA) (adjB gB) kk pA pB
  = [signatureString l (replicate d l)].
Proof.
  unfold uniqueSigs.
  rewrite (Array_from_Set_const (signatureString l (replicate d l)));
    [done|..].
  - unfold sigsA, sigsB, generateSig.
    intros [HA HB]%fmap_nil_inv%app_eq_nil.
    apply fmap_nil_inv in HA, HB. by rewrite HA, HB in Hne.
  - apply Forall_fmap, Forall_app. split; apply Forall_fmap, Forall_forall;
      intros n Hn; simpl; symmetry; by apply regular_signature.
Qed.

Lemma regular_next c lA lB :
  c = kk →
  uniformStep gA gB
    (step (processStepOf gA gB kk c lA lB pA pB)).
Proof.
  intros ->. unfold processStepOf.
  apply (single_label_step _ _ _ _ _ _ _ _ _ _ (toString (kk + 1)));
    [|done|].
  - intros item Hitem.
    destruct (labelOf_item gA gB (adjA gA) (adjB gB) (sortedInitLabels gA gB)
                (initLabelMap gA gB) kk kk pA pB Hk item Hitem)
      as (i & Hi & ->).
    rewrite regular_uniqueSigs in Hi. destruct i as [|[|i]]; try done.
    f_equal. lia.
  - rewrite stepMappings_nonzero by done.
    rewrite mintFrom_labels, regular_uniqueSigs. done.
Qed.
End next.

Lemma regular_Trace ss :
  Trace gA gB ss →
  Forall (uniformStep gA gB) ss
  ∧ ∀ s, last ss = Some s → mintedSoFar ss = k s + 1.
Proof.
  induction 1 as [|ss s Htr [IH Hc] Hlast].
  - pose proof uniform_step0 as H0. split; [by apply Forall_singleton|].
    intros s [= <-]. destruct H0 as (Hm & _).
    unfold mintedSoFar, allMappings. simpl. rewrite app_nil_r.
    rewrite <-(length_fmap hm_label), Hm.
    unfold result0, processStepOf. rewrite processStep_unfold. done.
  - pose proof (Trace_last_k_nonneg gA gB ss s Htr Hlast) as Hk.
    assert (s ∈ ss) as Hs.
    { rewrite last_lookup in Hlast. by eapply list_elem_of_lookup_2. }
    rewrite Forall_forall in IH.
    destruct (IH s Hs) as (_ & _ & _ & HlA & HlB & _).
    assert (uniformStep gA gB (nextStep gA gB ss s)) as Hnext.
    { unfold nextStep.
      apply (regular_next _ _ _ (toString (k s + 1))); [lia|done..|].
      by apply Hc. }
    split.
    + apply Forall_app. split; [by apply Forall_forall|].
      by apply Forall_singleton.
    + intros s' Hs'. rewrite last_snoc in Hs'. injection Hs' as <-.
      rewrite mintedSoFar_snoc, nextStep_k, (Hc s Hlast).
      destruct Hnext as (Hm & _).
      rewrite <-(length_fmap hm_label), Hm. simpl. lia.
Qed.
End regular_graphs.

(** X13.  Two graphs whose nodes all have the same initial value
    and the same number of entries in their neighbour arrays cannot be told
    apart by their labels: at step [k] every node of both graphs carries the
    label [k + 1], the histograms have this one key, and the verdict only
    compares the numbers of nodes. *)
Theorem regular_graphs_single_label gA gB v d maxK :
  uniformLabel gA v → uniformLabel gB v →
  regular gA d → regular gB d → nodes gA ++ nodes gB ≠ [] →
  Forall (uniformStep gA gB) (steps (runWLAlgorithm gA gB maxK)).
Proof.
  intros HuA HuB HrA HrB Hne.
  apply (regular_Trace gA gB v d); [done..|].
  apply runWLAlgorithm_Trace.
Qed.

Lemma regular_graphs_single_label_witness :
  uniformLabel cyclesA 1 ∧ uniformLabel cyclesB 1
  ∧ regular cyclesA 2 ∧ regular cyclesB 2
  ∧ nodes cyclesA ++ nodes cyclesB ≠ []
  ∧ Forall (uniformStep cyclesA cyclesB)
           (steps (runWLAlgorithm cyclesA cyclesB 5)).
Proof.
  assert (uniformLabel cyclesA 1) as HuA
    by (apply (bool_decide_unpack _); vm_compute; exact I).
  assert (uniformLabel cyclesB 1) as HuB
    by (apply (bool_decide_unpack _); vm_compute; exact I).
  assert (regular cyclesA 2) as HrA
    by (apply (bool_decide_unpack _); vm_compute; exact I).
  assert (regular cyclesB 2) as HrB
    by (apply (bool_decide_unpack _); vm_compute; exact I).
  assert (nodes cyclesA ++ nodes cyclesB ≠ []) as Hne by done.
  split_and!; [done..|].
  exact (regular_graphs_single_label cyclesA cyclesB 1 2 5
           HuA HuB HrA HrB Hne).
Defined.

(** ** [createCycle] *)

Lemma filter_all {A} (P : A → Prop) `{∀ x, Decision (P x)} (l : list A) :
  Forall P l → filter P l = l.
Proof.
  induction 1 as [|x l Hx _ IH]; [done|].
  by rewrite filter_cons_True, IH.
Qed.

Lemma bind_nil_all {A B} (f : A → list B) (l : list A) :
  Forall (λ x, f x = []) l → l ≫= f = [].
Proof.
  induction 1 as [|x l Hx _ IH]; [done|]. by rewrite bind_cons, Hx, IH.
Qed.

Lemma occurrences_NoDup x l : NoDup l → x ∈ l → occurrences x l = 1%nat.
Proof.
  induction 1 as [|y l Hy Hnd IH]; intros Hx; [by apply elem_of_nil in Hx|].
  rewrite occurrences_cons. apply elem_of_cons in Hx as [->|Hx].
  - rewrite decide_True by done.
    apply occurrences_0 in Hy. by rewrite Hy.
  - rewrite decide_False; [by rewrite IH|]. by intros ->.
Qed.

(** The number of entries of a neighbour array: the links that start at
    the node plus the links that end at it. *)
Lemma length_neighbourList ids ls i :
  length (neighbourList ids ls i)
  = (occurrences i (source <$> filter (knownLink ids) ls)
     + occurrences i (target <$> filter (knownLink ids) ls))%nat.
Proof.
  unfold neighbourList.
  induction (filter (knownLink ids) ls) as [|l ls' IH]; [done|].
  rewrite bind_cons, length_app, IH, !fmap_cons, !occurrences_cons.
  unfold pushes. rewrite length_app.
  destruct (decide (source l = i)), (decide (target l = i)); simpl; lia.
Qed.

Lemma rotate_seq n :
  (λ i, (i + 1) mod n)%nat <$> seq 0 n ≡ₚ seq 0 n.
Proof.
  destruct n as [|n]; [done|].
  rewrite seq_S at 1. rewrite fmap_app.
  assert ((λ i, (i + 1) mod S n)%nat <$> seq 0 n = seq 1 n) as ->.
  { rewrite <-fmap_S_seq. apply list_fmap_ext.
    intros i x Hx%list_elem_of_lookup_2%elem_of_seq.
    rewrite Nat.mod_small; lia. }
  assert ((λ i, (i + 1) mod S n)%nat <$> [(0 + n)%nat] = [0%nat]) as ->.
  { cbn [fmap list_fmap]. f_equal.
    replace (0 + n + 1)%nat with (S n) by lia. apply Nat.Div0.mod_same. }
  rewrite <-Permutation_cons_append. done.
Qed.

Section createCycle_facts.
Variables (n : nat) (prefix : string) (label : Z).

Local Abbreviation g := (createCycle n prefix label).

Lemma createCycle_ids : node_id <$> nodes g = indexed prefix <$> seq 0 n.
Proof. simpl. by rewrite <-list_fmap_compose. Qed.

Lemma createCycle_sources : source <$> links g = indexed prefix <$> seq 0 n.
Proof. simpl. by rewrite <-list_fmap_compose. Qed.

Lemma createCycle_targets : target <$> links g ≡ₚ indexed prefix <$> seq 0 n.
Proof.
  simpl. rewrite <-list_fmap_compose.
  rewrite <-(rotate_seq n) at 2. by rewrite <-list_fmap_compose.
Qed.

Lemma createCycle_NoDup : NoDup (node_id <$> nodes g).
Proof.
  rewrite createCycle_ids. apply NoDup_fmap_2_strong; [|apply NoDup_seq].
  intros a b _ _. apply indexed_inj.
Qed.

Lemma createCycle_known :
  Forall (knownLink (node_id <$> nodes g)) (links g).
Proof.
  rewrite createCycle_ids. simpl. apply Forall_fmap, Forall_forall.
  intros i Hi%elem_of_seq. split; simpl.
  - apply (list_elem_of_fmap_2' _ _ i); [|done]. by apply elem_of_seq.
  - apply (list_elem_of_fmap_2' _ _ ((i + 1) mod n)%nat); [|done].
    apply elem_of_seq. split; [lia|]. simpl. apply Nat.mod_upper_bound. lia.
Qed.

Lemma createCycle_wellFormed : wellFormed g.
Proof. split; [apply createCycle_NoDup|apply createCycle_known]. Qed.

Lemma createCycle_uniform : uniformLabel g label.
Proof. apply Forall_fmap, Forall_forall. by intros. Qed.

Lemma createCycle_regular : regular g 2.
Proof.
  apply Forall_forall. intros nd Hnd.
  assert (node_id nd ∈ node_id <$> nodes g) as Hid
    by by apply list_elem_of_fmap_2.
  rewrite getAdjacencyList_lookup, decide_True by done. simpl.
  rewrite length_neighbourList, (filter_all _ _ createCycle_known).
  rewrite (occurrences_perm _ _ _ createCycle_targets).
  rewrite createCycle_sources, <-createCycle_ids.
  by rewrite !occurrences_NoDup by (done || apply createCycle_NoDup).
Qed.

Lemma createCycle_length : length (nodes g) = n.
Proof. simpl. by rewrite length_fmap, length_seq. Qed.
End createCycle_facts.

(** X14.  [createCycle n] gives, for every [n], a graph with [n]
    nodes of distinct ids, links between its nodes only, the initial value
    [label] everywhere, and two entries in every neighbour array (also for
    [n = 1] and [n = 2], where a node is its own or twice the same
    neighbour). *)
Theorem createCycle_is_2_regular n prefix label :
  length (nodes (createCycle n prefix label)) = n
  ∧ wellFormed (createCycle n prefix label)
  ∧ uniformLabel (createCycle n prefix label) label
  ∧ regular (createCycle n prefix label) 2.
Proof.
  split_and!.
  - apply createCycle_length.
  - apply createCycle_wellFormed.
  - apply createCycle_uniform.
  - apply createCycle_regular.
Qed.

(** ** Two graphs side by side *)

Section union.
Variables (g1 g2 : GraphData).
Hypothesis Hwf1 : wellFormed g1.
Hypothesis Hwf2 : wellFormed g2.
Hypothesis Hdisj : disjointIds g1 g2.

Local Abbreviation ids1 := (node_id <$> nodes g1).
Local Abbreviation ids2 := (node_id <$> nodes g2).
Local Abbreviation ids := (node_id <$> nodes (graphUnion g1 g2)).

Lemma union_ids : ids = ids1 ++ ids2.
Proof. simpl. by rewrite fmap_app. Qed.

Lemma disjoint_12 i : i ∈ ids1 → i ∉ ids2.
Proof.
  pose proof Hdisj as H. unfold disjointIds in H.
  rewrite Forall_forall in H. apply H.
Qed.

Lemma union_neighbours_1 i :
  i ∈ ids1 →
  neighbourList ids (links (graphUnion g1 g2)) i
  = neighbourList ids1 (links g1) i.
Proof.
  intros Hi. destruct Hwf1 as [_ Hk1], Hwf2 as [_ Hk2].
  unfold neighbourList. simpl. rewrite filter_app, bind_app.
  rewrite (bind_nil_all _ (filter _ (links g2))), app_nil_r.
  - f_equal. rewrite !filter_all; [done|done|].
    eapply Forall_impl; [exact Hk1|]. intros l [Hs Ht].
    rewrite fmap_app. split; apply elem_of_app; by left.
  - apply Forall_forall. intros l [_ Hl]%list_elem_of_filter.
    rewrite Forall_forall in Hk2. destruct (Hk2 l Hl) as [Hs Ht].
    unfold pushes.
    rewrite !decide_False; [done|..]; intros Heq; rewrite Heq in *;
      by apply (disjoint_12 i).
Qed.

Lemma union_neighbours_2 i :
  i ∈ ids2 →
  neighbourList ids (links (graphUnion g1 g2)) i
  = neighbourList ids2 (links g2) i.
Proof.
  intros Hi. destruct Hwf1 as [_ Hk1], Hwf2 as [_ Hk2].
  unfold neighbourList. simpl. rewrite filter_app, bind_app.
  rewrite (bind_nil_all _ (filter _ (links g1))), app_nil_l.
  - f_equal. rewrite !filter_all; [done|done|].
    eapply Forall_impl; [exact Hk2|]. intros l [Hs Ht].
    rewrite fmap_app. split; apply elem_of_app; by right.
  - apply Forall_forall. intros l [_ Hl]%list_elem_of_filter.
    rewrite Forall_forall in Hk1. destruct (Hk1 l Hl) as [Hs Ht].
    unfold pushes.
    rewrite !decide_False; [done|..]; intros Heq; rewrite Heq in *;
      by apply (disjoint_12 i).
Qed.

Lemma union_regular d :
  regular g1 d → regular g2 d → regular (graphUnion g1 g2) d.
Proof.
  unfold regular. rewrite !Forall_forall. intros H1 H2 n Hn.
  assert (node_id n ∈ ids) as Hid by by apply list_elem_of_fmap_2.
  rewrite getAdjacencyList_lookup, decide_True by done.
  cbn [default from_option].
  simpl in Hn. apply elem_of_app in Hn as [Hn|Hn].
  - assert (node_id n ∈ ids1) as Hid1 by by apply list_elem_of_fmap_2.
    rewrite union_neighbours_1 by done.
    specialize (H1 n Hn).
    by rewrite getAdjacencyList_lookup, decide_True in H1.
  - assert (node_id n ∈ ids2) as Hid2 by by apply list_elem_of_fmap_2.
    rewrite union_neighbours_2 by done.
    specialize (H2 n Hn).
    by rewrite getAdjacencyList_lookup, decide_True in H2.
Qed.

Lemma union_uniform v :
  uniformLabel g1 v → uniformLabel g2 v → uniformLabel (graphUnion g1 g2) v.
Proof. intros. by apply Forall_app. Qed.
End union.

Lemma uniformStep_blind gA gB n s :
  length (nodes gA) = n → length (nodes gB) = n → n ≠ 0%nat →
  uniformStep gA gB s → blindStep n s.
Proof.
  intros HA HB Hn (_ & HcA & HcB & _ & _ & Hv).
  rewrite HA in HcA, Hv. rewrite HB in HcB, Hv.
  unfold singleLabel in HcA, HcB. rewrite decide_False in HcA, HcB by done.
  split_and!; [done..|]. by rewrite Hv, bool_decide_eq_true_2.
Qed.

(** X15.  A cycle of [m1 + m2] nodes and two cycles of [m1] and
    [m2] nodes side by side, with one initial value, are never told apart:
    at step [k] both histograms are the single label [k + 1] with the count
    [m1 + m2], and the verdict is [true]. *)
Theorem cycle_and_two_cycles_not_told_apart m1 m2 p q1 q2 v maxK :
  let gA := createCycle (m1 + m2) p v in
  let gB := graphUnion (createCycle m1 q1 v) (createCycle m2 q2 v) in
  (0 < m1 + m2)%nat →
  disjointIds (createCycle m1 q1 v) (createCycle m2 q2 v) →
  Forall (blindStep (m1 + m2)) (steps (runWLAlgorithm gA gB maxK)).
Proof.
  intros gA gB Hpos Hdisj.
  assert (length (nodes gA) = (m1 + m2)%nat) as HlA
    by apply createCycle_length.
  assert (length (nodes gB) = (m1 + m2)%nat) as HlB.
  { unfold gB. simpl. by rewrite length_app, !length_fmap, !length_seq. }
  eapply Forall_impl.
  - apply (regular_Trace gA gB v 2).
    + apply createCycle_uniform.
    + apply union_uniform; apply createCycle_uniform.
    + apply createCycle_regular.
    + apply union_regular;
        [apply createCycle_wellFormed|apply createCycle_wellFormed|done
        |apply createCycle_regular|apply createCycle_regular].
    + intros [HA _]%app_eq_nil. rewrite HA in HlA. simpl in HlA. lia.
    + apply runWLAlgorithm_Trace.
  - intros s Hs. apply (uniformStep_blind gA gB); [done..|lia|done].
Qed.

Lemma cycle_and_two_cycles_not_told_apart_witness :
  (0 < 3 + 3)%nat
  ∧ disjointIds (createCycle 3 "B_C3a_" 1) (createCycle 3 "B_C3b_" 1)
  ∧ Forall (blindStep 6) (steps (runWLAlgorithm cyclesA cyclesB 5)).
Proof.
  assert (0 < 3 + 3)%nat as Hpos by lia.
  assert (disjointIds (createCycle 3 "B_C3a_" 1) (createCycle 3 "B_C3b_" 1))
    as Hdisj by (apply (bool_decide_unpack _); vm_compute; exact I).
  split_and!; [done..|].
  exact (cycle_and_two_cycles_not_told_apart 3 3 "A_C6_" "B_C3a_" "B_C3b_"
           1 5 Hpos Hdisj).
Defined.

(** ** The page: the step shown is always defined *)

Lemma handle_range st ev :
  0 ≤ app_k st ≤ MAX_K → 0 ≤ app_k (handle st ev) ≤ MAX_K.
Proof.
  intros Hk.
  destruct ev; simpl; unfold handleNext, handlePrev, autoPlayTick;
    repeat case_match; simpl; unfold MAX_K in *;
    repeat match goal with
           | H : (_ <? _) = true |- _ => apply Z.ltb_lt in H
           | H : (_ <? _) = false |- _ => apply Z.ltb_ge in H
           end; lia.
Qed.

Lemma run_range evs :
  0 ≤ app_k (foldl handle initialAppState evs) ≤ MAX_K.
Proof.
  assert (∀ st, 0 ≤ app_k st ≤ MAX_K →
            0 ≤ app_k (foldl handle st evs) ≤ MAX_K) as H.
  { induction evs as [|ev evs IH]; intros st Hst; [done|].
    simpl. by apply IH, handle_range. }
  apply H. unfold MAX_K. simpl. lia.
Qed.

Lemma Array_get_is_Some {A} (a : list A) i :
  0 ≤ i < Z.of_nat (length a) → is_Some (Array_get a i).
Proof.
  intros Hi. unfold Array_get.
  destruct (i <? 0) eqn:Hneg; [apply Z.ltb_lt in Hneg; lia|].
  apply lookup_lt_is_Some_2. lia.
Qed.

(** X16.  Whatever the user clicks and whenever the timer fires, the
    step index stays between 0 and [MAX_K], so the step that the page
    shows, and the previous step when the index is not 0, exist in the
    result of the simulation. *)
Theorem shown_step_always_defined draw order evs :
  let st := foldl handle initialAppState evs in
  0 ≤ app_k st ≤ MAX_K
  ∧ is_Some (currentStep draw order st)
  ∧ (0 < app_k st ↔ is_Some (prevStep draw order st)).
Proof.
  intros st. pose proof (run_range evs) as Hk.
  change (0 ≤ app_k st ≤ MAX_K) in Hk.
  assert (length (steps (simulation draw order st)) = 6%nat) as Hlen.
  { unfold simulation. by rewrite (proj2 (horizon_steps_aux _ _ _)). }
  split; [exact Hk|]. unfold MAX_K in Hk. split.
  - apply Array_get_is_Some. rewrite Hlen. lia.
  - unfold prevStep. destruct (0 <? app_k st) eqn:Hpos.
    + apply Z.ltb_lt in Hpos. split; [|done]. intros _.
      apply Array_get_is_Some. rewrite Hlen. lia.
    + apply Z.ltb_ge in Hpos. split; [lia|]. by intros [? [=]].
Qed.

Lemma ticks_stop n st :
  isPlaying st = true → app_k st = MAX_K - Z.of_nat n →
  foldl handle st (replicate (S n) Tick)
  = setIsPlaying (setK st MAX_K) false.
Proof.
  revert st. induction n as [|n IH]; intros st Hp Hk.
  - simpl. unfold autoPlayTick. rewrite Hp.
    replace (app_k st) with MAX_K by lia. rewrite Z.ltb_irrefl.
    destruct st; simpl in *. by rewrite Hk, Z.sub_0_r.
  - rewrite replicate_S. cbn [foldl handle].
    assert (autoPlayTick st = setK st (app_k st + 1)) as ->.
    { unfold autoPlayTick. rewrite Hp.
      destruct (app_k st <? MAX_K) eqn:Hlt; [done|].
      apply Z.ltb_ge in Hlt. lia. }
    rewrite IH; [done|done|simpl; lia].
Qed.

(** X17.  Once auto-play is on, and with no click in between, the
    timer advances the step index to [MAX_K] and then switches auto-play
    off: after [MAX_K - k + 1] ticks the state is the one with index
    [MAX_K] and [isPlaying = false], and further ticks change nothing. *)
Theorem autoplay_stops st :
  isPlaying st = true → 0 ≤ app_k st ≤ MAX_K →
  let st' := foldl handle st
               (replicate (Z.to_nat (MAX_K - app_k st + 1)) Tick) in
  st' = setIsPlaying (setK st MAX_K) false ∧ handle st' Tick = st'.
Proof.
  intros Hp Hk st'. assert (st' = setIsPlaying (setK st MAX_K) false) as ->.
  { unfold st'.
    replace (Z.to_nat (MAX_K - app_k st + 1))
      with (S (Z.to_nat (MAX_K - app_k st))) by lia.
    apply ticks_stop; [done|lia]. }
  done.
Qed.

Lemma autoplay_stops_witness :
  let st := setIsPlaying (setK initialAppState 2) true in
  isPlaying st = true ∧ 0 ≤ app_k st ≤ MAX_K
  ∧ foldl handle st [Tick; Tick; Tick; Tick]
    = setIsPlaying (setK st MAX_K) false.
Proof.
  intros st.
  assert (isPlaying st = true) as Hp by done.
  assert (0 ≤ app_k st ≤ MAX_K) as Hk by (vm_compute; split; discriminate).
  split_and!; [done..|].
  exact (proj1 (autoplay_stops st Hp Hk)).
Defined.

(** ** The histogram chart and the pattern table *)

Lemma bump_fold_positive ls : positiveCounts (foldl bump ∅ ls).
Proof.
  intros l v. rewrite bump_fold_lookup.
  destruct (decide (occurrences l ls = 0%nat)); [done|].
  intros [= <-]. lia.
Qed.

Lemma step_positiveCounts gA gB ss :
  Trace gA gB ss →
  Forall (λ s, positiveCounts (labelCountsA s)
               ∧ positiveCounts (labelCountsB s)) ss.
Proof.
  apply Trace_Forall. intros. unfold processStepOf.
  rewrite processStep_unfold. cbn [step labelCountsA labelCountsB].
  split; apply bump_fold_positive.
Qed.

Lemma step_totals gA gB ss :
  Trace gA gB ss →
  Forall (λ s, total (labelCountsA s) = Z.of_nat (length (nodes gA))
               ∧ total (labelCountsB s) = Z.of_nat (length (nodes gB))) ss.
Proof.
  apply Trace_Forall. intros. unfold processStepOf.
  rewrite processStep_unfold. cbn [step labelCountsA labelCountsB].
  apply stepCounts_total.
Qed.

Lemma sumZ_insert (c : gmap string Z) i x ls :
  c !! i = None → NoDup ls → i ∈ ls →
  sumZ (countOr0 (<[i := x]> c) <$> ls) = x + sumZ (countOr0 c <$> ls).
Proof.
  intros Hi. induction 1 as [|l ls Hl Hnd IH]; intros Hin;
    [by apply elem_of_nil in Hin|].
  rewrite !fmap_cons. cbn [sumZ foldr]. fold (sumZ (countOr0 c <$> ls)).
  fold (sumZ (countOr0 (<[i := x]> c) <$> ls)).
  unfold countOr0 at 1 3.
  destruct (decide (l = i)) as [->|Hne].
  - rewrite lookup_insert_eq, Hi. simpl.
    assert (sumZ (countOr0 (<[i := x]> c) <$> ls)
            = sumZ (countOr0 c <$> ls)) as ->; [|lia].
    f_equal. apply list_fmap_ext. intros j l Hj%list_elem_of_lookup_2.
    unfold countOr0. rewrite lookup_insert_ne; [done|]. by intros ->.
  - rewrite lookup_insert_ne by done.
    apply elem_of_cons in Hin as [->|Hin]; [done|].
    rewrite IH by done. lia.
Qed.

Lemma sumZ_empty ls : sumZ (countOr0 ∅ <$> ls) = 0.
Proof.
  induction ls as [|l ls IH]; [done|].
  rewrite fmap_cons. cbn [sumZ foldr]. fold (sumZ (countOr0 ∅ <$> ls)).
  rewrite IH. unfold countOr0. by rewrite lookup_empty.
Qed.

(** The counts read at a duplicate-free list of labels that holds all the
    keys of the histogram add up to the total of the histogram. *)
Lemma sumZ_total (c : gmap string Z) ls :
  NoDup ls → (∀ l, is_Some (c !! l) → l ∈ ls) →
  sumZ (countOr0 c <$> ls) = total c.
Proof.
  intros Hnd. induction c as [|i x c Hi IH] using map_ind; intros Hkeys.
  - by rewrite total_empty, sumZ_empty.
  - rewrite total_insert by done.
    rewrite sumZ_insert; [|done|done|].
    + rewrite IH; [done|]. intros l Hl. apply Hkeys.
      rewrite lookup_insert_ne; [done|]. intros ->.
      rewrite Hi in Hl. by destruct Hl.
    + apply Hkeys. rewrite lookup_insert_eq. eauto.
Qed.

Lemma countOr0_positive c l :
  positiveCounts c → 0 ≤ countOr0 c l ∧ (0 < countOr0 c l ↔ is_Some (c !! l)).
Proof.
  intros Hpos. unfold countOr0. destruct (c !! l) as [v|] eqn:Hl; simpl.
  - specialize (Hpos l v Hl). split; [lia|]. split; eauto.
  - split; [done|]. split; [lia|]. by intros [? [=]].
Qed.

Lemma countOr0_eq c1 c2 :
  positiveCounts c1 → positiveCounts c2 →
  c1 = c2 ↔ ∀ l, countOr0 c1 l = countOr0 c2 l.
Proof.
  intros H1 H2. split; [by intros ->|]. intros Heq. apply map_eq. intros l.
  specialize (Heq l). unfold countOr0 in Heq.
  destruct (c1 !! l) as [v1|] eqn:Hl1, (c2 !! l) as [v2|] eqn:Hl2;
    simpl in Heq; [by subst| | |done].
  - specialize (H1 l v1 Hl1). lia.
  - specialize (H2 l v2 Hl2). lia.
Qed.

Lemma step_rowsSpec gA gB s :
  uniqueLabelsSpec s →
  positiveCounts (labelCountsA s) → positiveCounts (labelCountsB s) →
  total (labelCountsA s) = Z.of_nat (length (nodes gA)) →
  total (labelCountsB s) = Z.of_nat (length (nodes gB)) →
  isIsomorphicCandidate s
  = areCountsEqual (labelCountsA s) (labelCountsB s) →
  rowsSpec gA gB s.
Proof.
  intros (Hu & Hnd & _ & Hkeys) HpA HpB HtA HtB Hv.
  unfold rowsSpec, statsData. cbn zeta.
  rewrite <-!list_fmap_compose. split_and!.
  - by rewrite <-Hu, list_fmap_id.
  - change (CountA ∘ _) with (countOr0 (labelCountsA s)).
    rewrite sumZ_total; [done..|]. intros l Hl. apply Hkeys. by left.
  - change (CountB ∘ _) with (countOr0 (labelCountsB s)).
    rewrite sumZ_total; [done..|]. intros l Hl. apply Hkeys. by right.
  - apply Forall_fmap, Forall_forall. intros l Hl%Hkeys. simpl.
    destruct (countOr0_positive _ l HpA) as [HA HA'].
    destruct (countOr0_positive _ l HpB) as [HB HB'].
    split_and!; [done..|].
    destruct Hl as [Hl%HA'|Hl%HB']; lia.
  - rewrite Hv, areCountsEqual_spec, (countOr0_eq _ _ HpA HpB).
    rewrite Forall_fmap, Forall_forall. simpl. split.
    + intros Heq l _. apply Heq.
    + intros Heq l.
      destruct (decide (l ∈ uniqueLabels s)) as [Hl|Hl]; [by apply Heq|].
      unfold countOr0.
      destruct (labelCountsA s !! l) eqn:HA.
      { destruct Hl. apply Hkeys. left. eauto. }
      destruct (labelCountsB s !! l) eqn:HB; [|done].
      destruct Hl. apply Hkeys. right. eauto.
Qed.

Lemma Trace_rowsSpec gA gB ss :
  Trace gA gB ss → Forall (rowsSpec gA gB) ss.
Proof.
  intros Htr.
  pose proof (Trace_uniqueLabelsSpec gA gB ss Htr) as H1.
  pose proof (step_positiveCounts gA gB ss Htr) as H2.
  pose proof (step_totals gA gB ss Htr) as H3.
  pose proof (step_verdict gA gB ss Htr) as H4.
  rewrite Forall_forall in H1, H2, H3, H4.
  apply Forall_forall. intros s Hs.
  destruct (H2 s Hs), (H3 s Hs). apply step_rowsSpec; auto.
Qed.

(** X18.  The rows of the histogram chart of a step are the labels of
    the step's mappings, in that order; the bars of graph A add up to the
    number of nodes of A and those of graph B to the number of nodes of B;
    no row has two empty bars; and the verdict is [true] exactly when the
    two bars of every row are equal. *)
Theorem histogram_rows gA gB maxK :
  Forall (rowsSpec gA gB) (steps (runWLAlgorithm gA gB maxK)).
Proof. apply Trace_rowsSpec, runWLAlgorithm_Trace. Qed.

(** X19.  Every pattern of the pattern table of a step is marked
    as present in graph A or in graph B, and in both when the verdict is
    [true]. *)
Theorem patterns_present gA gB maxK :
  Forall patternsSpec (steps (runWLAlgorithm gA gB maxK)).
Proof.
  pose proof (runWLAlgorithm_Trace gA gB maxK) as Htr.
  pose proof (Trace_uniqueLabelsSpec gA gB _ Htr) as H1.
  pose proof (step_positiveCounts gA gB _ Htr) as H2.
  pose proof (step_verdict gA gB _ Htr) as H4.
  rewrite Forall_forall in H1, H2, H4.
  apply Forall_forall. intros s Hs.
  destruct (H1 s Hs) as (Hu & _ & _ & Hkeys), (H2 s Hs) as [HpA HpB].
  assert (∀ m, m ∈ mappings s →
            is_Some (labelCountsA s !! hm_label m)
            ∨ is_Some (labelCountsB s !! hm_label m)) as Hm.
  { intros m Hin. apply Hkeys. rewrite Hu. by apply list_elem_of_fmap_2. }
  split.
  - apply Forall_forall. intros m Hin. unfold inA, inB.
    destruct (Hm m Hin) as [Hl|Hl]; [left|right]; apply Z.ltb_lt;
      by apply countOr0_positive.
  - rewrite (H4 s Hs). intros Heq%areCountsEqual_spec.
    apply Forall_forall. intros m Hin. unfold inA, inB. rewrite <-Heq.
    assert (is_Some (labelCountsA s !! hm_label m)) as Hl.
    { destruct (Hm m Hin) as [Hl|Hl]; [done|by rewrite Heq]. }
    split; apply Z.ltb_lt; by apply countOr0_positive.
Qed.

(** ** The feature vector *)






















(** ** Colours *)

Lemma toInt32_range n : - 2 ^ 31 ≤ toInt32 n < 2 ^ 31.
Proof.
  unfold toInt32.
  pose proof (Z.mod_pos_bound (n + 2 ^ 31) (2 ^ 32)). lia.
Qed.

Lemma hashFrom_range h label :
  - 2 ^ 31 ≤ h < 2 ^ 31 → - 2 ^ 31 ≤ hashFrom h label < 2 ^ 31.
Proof.
  revert h. induction label as [|c label IH]; intros h Hh; [done|].
  cbn [hashFrom]. apply IH. unfold hashStep. apply toInt32_range.
Qed.

(** X21.  For every label the hash of [getColorForLabel] is a 32-bit
    integer, the saturation of a generated colour lies between 65 and 79 and
    its lightness between 42 and 51. *)
Theorem generated_colour_ranges label :
  - 2 ^ 31 ≤ labelHash label < 2 ^ 31
  ∧ 65 ≤ saturation label ≤ 79
  ∧ 42 ≤ lightness label ≤ 51.
Proof.
  split_and!; try apply hashFrom_range; try lia;
    unfold saturation, lightness.
  - pose proof (Z.mod_pos_bound (Z.abs (labelHash label)) 15). lia.
  - pose proof (Z.mod_pos_bound (Z.abs (labelHash label)) 15). lia.
  - pose proof (Z.mod_pos_bound (Z.abs (labelHash label ≫ 2)) 10). lia.
  - pose proof (Z.mod_pos_bound (Z.abs (labelHash label ≫ 2)) 10). lia.
Qed.

Lemma paletteColor_numeral n :
  0 < n →
  paletteColor (toString n)
  = if n <? 12 then LABEL_COLORS !! Z.to_nat n else None.
Proof.
  intros Hn. unfold paletteColor. rewrite parseInt_toString by done.
  change (Z.of_nat (length LABEL_COLORS)) with 12.
  destruct (n <? 12) eqn:Hlt.
  - rewrite (proj2 (Z.leb_le 0 n)) by lia. done.
  - by rewrite andb_false_r.
Qed.

Lemma paletteSpec_numeral m n :
  0 < n → hm_label m = toString n → paletteSpec m.
Proof.
  intros Hn Hm. exists n. rewrite Hm, paletteColor_numeral by done.
  split_and!; [done..| |].
  - intros Hlt. rewrite (proj2 (Z.ltb_lt n 12)) by done.
    apply lookup_lt_is_Some_2. simpl. lia.
  - destruct (n <? 12) eqn:Hlt; [|done]. apply Z.ltb_lt in Hlt.
    assert (∃ i, Z.to_nat n = S i ∧ (i < 11)%nat) as (i & -> & Hi).
    { exists (Z.to_nat (n - 1)). lia. }
    do 11 (destruct i as [|i]; [done|]). lia.
Qed.

(** X22.  Every mapping of every step satisfies [paletteSpec]. *)
Theorem mapping_labels_palette gA gB maxK :
  Forall (λ s, Forall paletteSpec (mappings s))
         (steps (runWLAlgorithm gA gB maxK)).
Proof.
  pose proof (runWLAlgorithm_Trace gA gB maxK) as Htr.
  pose proof (Trace_labels gA gB _ Htr) as Hl.
  apply Forall_forall. intros s Hs. apply Forall_forall. intros m Hm.
  assert (hm_label m
          ∈ hm_label <$> allMappings (steps (runWLAlgorithm gA gB maxK)))
    as Hin.
  { apply list_elem_of_fmap_2. unfold allMappings.
    apply list_elem_of_bind. eauto. }
  rewrite Hl in Hin.
  apply list_elem_of_fmap in Hin as (n & Hn & Hin%elem_of_seqZ).
  apply (paletteSpec_numeral m n); [lia|done].
Qed.

(** ** The adjacency map of the panels *)

Lemma pushEnds_lookup adj l i :
  pushEnds adj l !! i = (λ ns, ns ++ pushes i l) <$> adj !! i.
Proof.
  unfold pushEnds, pushes.
  destruct (decide (source l = i)) as [Hs|Hs],
    (decide (target l = i)) as [Ht|Ht].
  - rewrite Ht, Hs, !lookup_alter_eq.
    destruct (adj !! i); simpl; [|done]. by rewrite <-app_assoc.
  - rewrite lookup_alter_ne by done. rewrite Hs, lookup_alter_eq.
    destruct (adj !! i); simpl; done.
  - rewrite Ht, lookup_alter_eq, lookup_alter_ne by done.
    destruct (adj !! i); simpl; done.
  - rewrite !lookup_alter_ne by done.
    destruct (adj !! i); simpl; [|done]. by rewrite app_nil_r.
Qed.

Lemma pushEnds_fold_lookup ls adj i :
  foldl pushEnds adj ls !! i = (λ ns, ns ++ (ls ≫= pushes i)) <$> adj !! i.
Proof.
  revert adj. induction ls as [|l ls IH]; intros adj.
  - simpl. destruct (adj !! i); simpl; [|done]. by rewrite app_nil_r.
  - cbn [foldl]. rewrite IH, pushEnds_lookup, bind_cons.
    destruct (adj !! i); simpl; [|done]. by rewrite <-app_assoc.
Qed.

Lemma panelAdjacency_lookup g i :
  panelAdjacency g !! i
  = if decide (i ∈ node_id <$> nodes g)
    then Some (links g ≫= pushes i) else None.
Proof.
  unfold panelAdjacency. rewrite pushEnds_fold_lookup, initial_adj_lookup.
  destruct (decide (i ∈ node_id <$> nodes g)); [done|].
  by rewrite lookup_empty.
Qed.

Lemma panelAdjacency_known g :
  Forall (knownLink (node_id <$> nodes g)) (links g) →
  panelAdjacency g = getAdjacencyList (nodes g) (links g).
Proof.
  intros Hk. apply map_eq. intros i.
  rewrite panelAdjacency_lookup, getAdjacencyList_lookup.
  unfold neighbourList. by rewrite filter_all.
Qed.

(** X23.  The adjacency map that the panels build holds, for a node,
    one entry per link end that meets it, whether or not the other end is
    a node; the map of the algorithm only holds the entries of the links
    whose two ends are nodes.  The two maps are equal when every link joins
    two nodes of the graph. *)
Theorem panel_adjacency g :
  (∀ i, panelAdjacency g !! i
        = if decide (i ∈ node_id <$> nodes g)
          then Some (links g ≫= pushes i) else None)
  ∧ (∀ i, getAdjacencyList (nodes g) (links g) !! i
          = if decide (i ∈ node_id <$> nodes g)
            then Some (filter (knownLink (node_id <$> nodes g)) (links g)
                       ≫= pushes i)
            else None)
  ∧ (Forall (knownLink (node_id <$> nodes g)) (links g) →
     panelAdjacency g = getAdjacencyList (nodes g) (links g))
  ∧ panelAdjacency danglingGraph
    ≠ getAdjacencyList (nodes danglingGraph) (links danglingGraph).
Proof.
  split_and!.
  - apply panelAdjacency_lookup.
  - intros i. by rewrite getAdjacencyList_lookup.
  - apply panelAdjacency_known.
  - intros Heq.
    assert (panelAdjacency danglingGraph !! "a"
            = getAdjacencyList (nodes danglingGraph) (links danglingGraph)
              !! "a") as H by by rewrite Heq.
    vm_compute in H. discriminate.
Qed.

(** ** The neighbours shown by the signature renderer *)

Lemma sort_insert_fmap {A B} (le' : A → A → bool) (le : B → B → bool)
    (g : A → B) x l :
  (∀ y, y ∈ l → le' x y = le (g x) (g y)) →
  g <$> sort_insert le' x l = sort_insert le (g x) (g <$> l).
Proof.
  induction l as [|y l IH]; intros Hle; [done|].
  rewrite fmap_cons. cbn [sort_insert].
  rewrite <-(Hle y) by apply list_elem_of_here.
  destruct (le' x y); [done|].
  rewrite fmap_cons, IH; [done|].
  intros z Hz. by apply Hle, list_elem_of_further.
Qed.

Lemma sort_with_fmap {A B} (le' : A → A → bool) (le : B → B → bool)
    (g : A → B) l :
  (∀ x y, x ∈ l → y ∈ l → le' x y = le (g x) (g y)) →
  g <$> sort_with le' l = sort_with le (g <$> l).
Proof.
  induction l as [|x l IH]; intros Hle; [done|].
  rewrite fmap_cons. cbn [sort_with foldr].
  fold (sort_with le' l). fold (sort_with le (g <$> l)).
  rewrite (sort_insert_fmap le' le g), IH; [done| |].
  - intros y z Hy Hz. apply Hle; by apply list_elem_of_further.
  - intros y Hy%sort_with_elem_of.
    apply Hle; [apply list_elem_of_here|by apply list_elem_of_further].
Qed.

Lemma toString_nonempty n : 0 < n → toString n ≠ "".
Proof.
  intros Hn Heq. pose proof (parseInt_toString n Hn) as Hp.
  by rewrite Heq in Hp.
Qed.

Lemma orString_label x d : 0 < x → orString (Some (toString x)) d = toString x.
Proof.
  intros Hx. pose proof (toString_nonempty x Hx).
  unfold orString. by destruct (toString x).
Qed.

(** The renderer's sorted neighbour labels are the neighbour labels that
    [generateSig] sorts, when the labels below are numerals. *)
Lemma neighborsWithLabels_labels nStep tag adjacency ids nodeId :
  labelled ids (labelsOf (nodeDataAt nStep tag)) →
  Forall (λ nid, nid ∈ ids) (default [] (adjacency !! nodeId)) →
  nwl_label <$> neighborsWithLabels nStep tag adjacency nodeId
  = Array_sort byParseInt
      ((λ nid, labelsOf (nodeDataAt nStep tag) !!! nid)
         <$> default [] (adjacency !! nodeId)).
Proof.
  intros Hlab Hids. unfold neighborsWithLabels. cbn zeta.
  set (p := labelsOf (nodeDataAt nStep tag)).
  set (mk := λ nid, {| nwl_nid := nid; nwl_label := p !!! nid;
                       sortVal := parseInt (p !!! nid) |}).
  match goal with
  | |- context [Array_sort _ (?f <$> ?l)] =>
      assert (f <$> l = mk <$> l) as ->
  end.
  { apply list_fmap_ext. intros i nid Hnid%list_elem_of_lookup_2.
    rewrite Forall_forall in Hids.
    destruct (Hlab nid (Hids nid Hnid)) as (x & Hx & Hp).
    assert (nd_label <$> (match tag with
                          | GA => nodeDataA nStep !! nid
                          | GB => nodeDataB nStep !! nid
                          end) = Some (toString x)) as ->.
    { unfold labelsOf in Hp. rewrite lookup_fmap in Hp. by destruct tag. }
    unfold mk, p.
    by rewrite !orString_label, lookup_total_alt, Hp. }
  unfold Array_sort.
  rewrite (sort_with_fmap _ (cmp_le byParseInt) nwl_label).
  - by rewrite <-list_fmap_compose.
  - intros a b (? & -> & _)%list_elem_of_fmap (? & -> & _)%list_elem_of_fmap.
    done.
Qed.

Lemma nextStep_neighbors gA gB ss nStep tag nodeId d :
  0 ≤ k nStep →
  nodeDataAt (nextStep gA gB ss nStep) tag !! nodeId = Some d →
  nodeId ∈ nodeIds gA gB tag
  ∧ neighbors (nd_expandedSignature d)
    = Array_sort byParseInt
        ((λ nid, labelsOf (nodeDataAt nStep tag) !!! nid)
           <$> default []
                 (getAdjacencyList (nodes (graphOf gA gB tag))
                    (links (graphOf gA gB tag)) !! nodeId)).
Proof.
  intros Hk. unfold nextStep, processStepOf. rewrite processStep_unfold.
  destruct tag; cbn [nodeDataAt step nodeDataA nodeDataB graphOf nodeIds];
    intros (n & Hn & <- & ->)%nodeData_lookup_inv;
    (split; [by apply list_elem_of_fmap_2|]);
    cbn [nodeDataOf nd_expandedSignature];
    by rewrite nodeSig_nonzero by lia.
Qed.

(** X24.  For a node of a graph whose links all join nodes of the
    graph, the neighbour labels that the signature renderer recomputes for
    level [level + 1] (from its own adjacency map and the labels of step
    [level], sorted by [sortVal]) are the list stored by the algorithm in
    [expandedSignature.neighbors] of the node at step [level + 1]. *)
Theorem renderer_neighbours gA gB maxK level tag nodeId nStep step d :
  let ss := steps (runWLAlgorithm gA gB maxK) in
  let g := graphOf gA gB tag in
  Forall (knownLink (node_id <$> nodes g)) (links g) →
  ss !! level = Some nStep → ss !! S level = Some step →
  nodeDataAt step tag !! nodeId = Some d →
  nwl_label <$> neighborsWithLabels nStep tag (panelAdjacency g) nodeId
  = neighbors (nd_expandedSignature d).
Proof.
  intros ss g Hknown Hl HSl Hd.
  pose proof (runWLAlgorithm_Trace gA gB maxK) as Htr.
  pose proof (Trace_lookup_succ gA gB _ _ _ _ Htr Hl HSl) as ->.
  assert (nStep ∈ ss) as Hin by by eapply list_elem_of_lookup_2.
  pose proof (Trace_k_nonneg gA gB _ Htr) as Hk.
  pose proof (Trace_labelled gA gB _ Htr) as Hlab.
  rewrite Forall_forall in Hk, Hlab.
  destruct (nextStep_neighbors _ _ _ _ _ _ _ (Hk _ Hin) Hd) as [Hid ->].
  rewrite (panelAdjacency_known g Hknown).
  apply (neighborsWithLabels_labels _ _ _ (nodeIds gA gB tag)).
  - destruct (Hlab _ Hin) as [HA HB]. by destruct tag.
  - apply Forall_forall. intros nid Hnid.
    apply adjacency_known in Hnid. by destruct tag.
Qed.

Lemma renderer_neighbours_witness :
  ∃ nStep step d,
    Forall (knownLink (node_id <$> nodes pairGraph)) (links pairGraph)
    ∧ steps (runWLAlgorithm multiGraph pairGraph 1) !! 0%nat = Some nStep
    ∧ steps (runWLAlgorithm multiGraph pairGraph 1) !! 1%nat = Some step
    ∧ nodeDataAt step GB !! "a" = Some d
    ∧ nwl_label <$> neighborsWithLabels nStep GB (panelAdjacency pairGraph) "a"
      = ["2"]
    ∧ neighbors (nd_expandedSignature d) = ["2"].
Proof.
  eexists _, _, _.
  assert (Forall (knownLink (node_id <$> nodes pairGraph)) (links pairGraph))
    as Hknown by (apply (bool_decide_unpack _); vm_compute; exact I).
  split; [exact Hknown|].
  split; [reflexivity|]. split; [reflexivity|]. split; [reflexivity|].
  split; [reflexivity|].
  symmetry.
  exact (renderer_neighbours multiGraph pairGraph 1 0 GB "a" _ _ _
           Hknown eq_refl eq_refl eq_refl).
Defined.

(** ** The unfolding tree *)

Lemma treeIds_eq t : treeIds t = tn_id t :: forestIds (children t).
Proof.
  by destruct t.
Qed.

Lemma forestIds_snoc ts t : forestIds (ts ++ [t]) = forestIds ts ++ treeIds t.
Proof.
  unfold forestIds. rewrite bind_app. f_equal. simpl. apply app_nil_r.
Qed.

Lemma all_digits_no_dash x y : ¬ all_digits (x +:+ "-" +:+ y).
Proof.
  induction x as [|c x IH]; simpl.
  - intros [[d Hd] _]. by vm_compute in Hd.
  - intros [_ H]. by apply IH.
Qed.

Lemma after_dash_inj g1 g2 d1 d2 :
  all_digits d1 → all_digits d2 →
  g1 +:+ "-" +:+ d1 = g2 +:+ "-" +:+ d2 → d1 = d2.
Proof.
  intros H1 H2. revert g2.
  induction g1 as [|c g1 IH]; intros [|c' g2] Heq.
  - by injection Heq.
  - injection Heq as _ Heq. change (d1 = g2 +:+ "-" +:+ d2) in Heq.
    rewrite Heq in H1. by apply all_digits_no_dash in H1.
  - injection Heq as _ Heq. change (g1 +:+ "-" +:+ d1 = d2) in Heq.
    rewrite <-Heq in H2. by apply all_digits_no_dash in H2.
  - injection Heq as _ Heq. by apply IH in Heq.
Qed.

Lemma all_digits_toString_nonneg n : 0 ≤ n → all_digits (toString n).
Proof.
  intros Hn. destruct (decide (n = 0)) as [->|Hne].
  - vm_compute. split; [eauto|done].
  - apply all_digits_toString. lia.
Qed.

Lemma numbered_inj id j1 j2 :
  0 ≤ j1 → 0 ≤ j2 → numbered id j1 → numbered id j2 → j1 = j2.
Proof.
  intros H1 H2 [g1 ->] [g2 Heq].
  apply after_dash_inj in Heq; [|by apply all_digits_toString_nonneg..].
  by apply toString_inj.
Qed.

Lemma Forall2_NoDup {A B} (R : A → B → Prop) (l : list A) (k : list B) :
  (∀ x j1 j2, j1 ∈ k → j2 ∈ k → R x j1 → R x j2 → j1 = j2) →
  Forall2 R l k → NoDup k → NoDup l.
Proof.
  intros Hinj HR. induction HR as [|x j l k Hxj HR IH]; intros Hnd;
    [constructor|].
  apply NoDup_cons in Hnd as [Hj Hnd]. apply NoDup_cons. split.
  - intros Hx. apply list_elem_of_lookup in Hx as [i Hi].
    destruct (Forall2_lookup_l _ _ _ _ _ HR Hi) as (j' & Hj' & Hxj').
    apply list_elem_of_lookup_2 in Hj'.
    assert (j = j') as ->; [|done].
    apply (Hinj x); [apply list_elem_of_here|by apply list_elem_of_further
                    |done..].
  - apply IH; [|done]. intros y j1 j2 H1 H2.
    apply Hinj; by apply list_elem_of_further.
Qed.

Section build_facts.
Variable nodeMap : gmap string Node.

Lemma buildSpec_app c ids c' ids' c'' :
  buildSpec c ids c' → buildSpec c' ids' c'' → buildSpec c (ids ++ ids') c''.
Proof.
  intros [H1 F1] [H2 F2]. split; [lia|].
  replace (c'' - c) with ((c' - c) + (c'' - c')) by lia.
  rewrite seqZ_app by lia. apply Forall2_app; [done|].
  by replace (c + (c' - c)) with c' by lia.
Qed.

Lemma children_fold remaining neighbors acc st :
  (∀ nid st, buildSpec (uniqueCounter st)
               (treeIds (build nodeMap remaining nid st).1)
               (uniqueCounter (build nodeMap remaining nid st).2)
             ∧ graphNodeId (build nodeMap remaining nid st).1 = nid) →
  let r := foldl (λ '(acc, st) nid,
                    let '(child, st) := build nodeMap remaining nid st in
                    (acc ++ [child], st))
                 (acc, st) neighbors in
  ∃ new, r.1 = acc ++ new
         ∧ buildSpec (uniqueCounter st) (forestIds new) (uniqueCounter r.2)
         ∧ graphNodeId <$> new = neighbors.
Proof.
  intros Hb. revert acc st.
  induction neighbors as [|nid neighbors IH]; intros acc st r.
  - exists []. unfold r. simpl. rewrite app_nil_r. split_and!; [done| |done].
    split; [lia|]. rewrite Z.sub_diag. constructor.
  - unfold r. cbn [foldl].
    destruct (build nodeMap remaining nid st) as [child st1] eqn:Hc.
    destruct (Hb nid st) as [Hspec Hg]. rewrite Hc in Hspec, Hg.
    simpl in Hspec, Hg.
    destruct (IH (acc ++ [child]) st1) as (new & Hnew & Hspec' & Hgs).
    exists (child :: new). split_and!.
    + rewrite Hnew. by rewrite <-app_assoc.
    + unfold forestIds. rewrite bind_cons.
      by eapply buildSpec_app.
    + rewrite fmap_cons. by f_equal.
Qed.

Lemma build_spec remaining nid st :
  buildSpec (uniqueCounter st)
    (treeIds (build nodeMap remaining nid st).1)
    (uniqueCounter (build nodeMap remaining nid st).2)
  ∧ graphNodeId (build nodeMap remaining nid st).1 = nid.
Proof.
  revert nid st. induction remaining as [|remaining IH]; intros nid st.
  - simpl. split; [|done]. split; [lia|].
    replace (uniqueCounter st + 1 - uniqueCounter st) with 1 by lia.
    repeat constructor. by eexists.
  - cbn [build].
    set (st1 := {| uniqueCounter := uniqueCounter st + 1;
                   bs_adj := alter Array_sort_default nid (bs_adj st) |}).
    set (neighbors := Array_sort_default (default [] (bs_adj st !! nid))).
    destruct (children_fold remaining neighbors [] st1 IH)
      as (new & Hnew & Hspec & _).
    destruct (foldl _ _ neighbors) as [ch st2]. simpl in Hnew, Hspec.
    subst ch. split; [|done].
    rewrite treeIds_eq. cbn [tn_id children fst snd].
    apply (buildSpec_app _ [_] (uniqueCounter st + 1)); [|done].
    split; [lia|].
    replace (uniqueCounter st + 1 - uniqueCounter st) with 1 by lia.
    repeat constructor. by eexists.
Qed.

Lemma build_children remaining nid st :
  graphNodeId <$> children (build nodeMap (S remaining) nid st).1
  = Array_sort_default (default [] (bs_adj st !! nid)).
Proof.
  cbn [build].
  set (st1 := {| uniqueCounter := uniqueCounter st + 1;
                 bs_adj := alter Array_sort_default nid (bs_adj st) |}).
  set (neighbors := Array_sort_default (default [] (bs_adj st !! nid))).
  destruct (children_fold remaining neighbors [] st1
              (build_spec remaining))
    as (new & Hnew & _ & Hg).
  destruct (foldl _ _ neighbors) as [ch st2]. simpl in Hnew.
  by subst ch.
Qed.
End build_facts.

(** X25.  The unfolding tree of [SubtreeVisualization]: its root stands
    for [rootId]; the ids of its nodes, the root first, end with the
    counter values 0, 1, 2, ... and are pairwise distinct; with depth 0 the
    root has no child, otherwise its children stand for the sorted entries
    of the adjacency array of [rootId]. *)
Theorem subtree_ids_distinct graph rootId depth :
  let t := treeData graph rootId depth in
  graphNodeId t = rootId
  ∧ Forall2 numbered (treeIds t) (seqZ 0 (Z.of_nat (length (treeIds t))))
  ∧ NoDup (treeIds t)
  ∧ children (treeData graph rootId 0) = []
  ∧ graphNodeId <$> children (treeData graph rootId (S depth))
    = Array_sort_default (default [] (panelAdjacency graph !! rootId)).
Proof.
  intros t. unfold t, treeData.
  set (nodeMap := foldl (λ m n, <[node_id n := n]> m) ∅ (nodes graph)).
  set (st := {| uniqueCounter := 0; bs_adj := panelAdjacency graph |}).
  destruct (build_spec nodeMap depth rootId st) as [[Hle HF] Hg].
  change (uniqueCounter st) with 0 in Hle, HF. rewrite Z.sub_0_r in HF.
  assert (Z.of_nat (length (treeIds (build nodeMap depth rootId st).1))
          = uniqueCounter (build nodeMap depth rootId st).2) as Hlen.
  { apply Forall2_length in HF. rewrite length_seqZ in HF. lia. }
  split_and!.
  - done.
  - by rewrite Hlen.
  - eapply Forall2_NoDup; [|exact HF|apply NoDup_seqZ].
    intros x j1 j2 H1%elem_of_seqZ H2%elem_of_seqZ.
    apply numbered_inj; lia.
  - done.
  - apply (build_children nodeMap depth rootId st).
Qed.

(** ** The generators give graphs *)

(** A numeral ends at the first character that is not a digit. *)
Lemma all_digits_sep_inj (sep : ascii) (a b r r' : string) :
  digit_of sep = None → all_digits a → all_digits b →
  a +:+ String sep r = b +:+ String sep r' → a = b ∧ r = r'.
Proof.
  intros Hsep. revert b.
  induction a as [|c a IH]; intros [|c' b] Ha Hb Heq; simpl in *.
  - by injection Heq.
  - injection Heq as <- _. destruct Hb as [[? Hd] _]. congruence.
  - injection Heq as -> _. destruct Ha as [[? Hd] _]. congruence.
  - injection Heq as -> Heq.
    destruct (IH b) as [-> ->]; [tauto..|done|done].
Qed.

Lemma gridId_inj prefix r c r' c' :
  gridId prefix r c = gridId prefix r' c' → r = r' ∧ c = c'.
Proof.
  unfold gridId. intros Heq%(inj (String.app prefix))%(inj (String.app "_r")).
  apply (all_digits_sep_inj "c") in Heq as [Hr Hc];
    [|done|apply all_digits_toString_nonneg; lia..].
  apply toString_inj in Hr, Hc. lia.
Qed.

Lemma gridCells_elem_of rows cols r c :
  (r, c) ∈ gridCells rows cols ↔ (r < rows)%nat ∧ (c < cols)%nat.
Proof.
  unfold gridCells. rewrite list_elem_of_bind. split.
  - intros (r' & (c' & Hrc & Hc)%list_elem_of_bind & Hr).
    apply list_elem_of_singleton in Hrc as [= -> ->].
    apply elem_of_seq in Hr, Hc. lia.
  - intros [Hr Hc]. exists r. split; [|apply elem_of_seq; lia].
    apply list_elem_of_bind. exists c.
    split; [apply list_elem_of_here|apply elem_of_seq; lia].
Qed.

Lemma gridCells_NoDup rows cols : NoDup (gridCells rows cols).
Proof.
  unfold gridCells. apply NoDup_bind; [| |apply NoDup_seq].
  - intros r1 r2 [r c] _ _ (c1 & H1 & _)%list_elem_of_bind
      (c2 & H2 & _)%list_elem_of_bind.
    apply list_elem_of_singleton in H1, H2. congruence.
  - intros r _. apply NoDup_bind; [| |apply NoDup_seq].
    + intros c1 c2 y _ _ H1%list_elem_of_singleton H2%list_elem_of_singleton.
      congruence.
    + intros c _. apply NoDup_singleton.
Qed.

Lemma length_bind_const {A B} (f : A → list B) (l : list A) m :
  (∀ x, length (f x) = m) → length (l ≫= f) = (length l * m)%nat.
Proof.
  intros Hf. induction l as [|x l IH]; [done|].
  rewrite bind_cons, length_app, Hf, IH. simpl. lia.
Qed.

Lemma gridCells_length rows cols :
  length (gridCells rows cols) = (rows * cols)%nat.
Proof.
  unfold gridCells. rewrite (length_bind_const _ _ cols), length_seq; [done|].
  intros r. rewrite (length_bind_const _ _ 1), length_seq; [lia|done].
Qed.

Section createGrid_facts.
Variables (rows cols : nat) (prefix : string).

Local Abbreviation g := (createGrid rows cols prefix).

Lemma createGrid_ids :
  node_id <$> nodes g
  = (λ rc, gridId prefix rc.1 rc.2) <$> gridCells rows cols.
Proof.
  simpl. rewrite <-list_fmap_compose. apply list_fmap_ext.
  by intros i [r c] _.
Qed.

Lemma createGrid_id_elem_of r c :
  (r < rows)%nat → (c < cols)%nat → gridId prefix r c ∈ node_id <$> nodes g.
Proof.
  intros Hr Hc. rewrite createGrid_ids.
  apply (list_elem_of_fmap_2' _ _ (r, c)); [|done].
  by apply gridCells_elem_of.
Qed.

Lemma createGrid_node r c :
  (r < rows)%nat → (c < cols)%nat →
  {| node_id := gridId prefix r c;
     originalLabel := Z.of_nat (r + c) `mod` 2 + 1 |} ∈ nodes g.
Proof.
  intros Hr Hc. simpl.
  apply (list_elem_of_fmap_2' _ _ (r, c)); [|done].
  by apply gridCells_elem_of.
Qed.

Lemma createGrid_NoDup : NoDup (node_id <$> nodes g).
Proof.
  rewrite createGrid_ids.
  apply NoDup_fmap_2_strong; [|apply gridCells_NoDup].
  intros [r c] [r' c'] _ _ Heq. simpl in Heq.
  apply gridId_inj in Heq as [-> ->]. done.
Qed.

(** Every link goes from a cell to the cell below or to the cell on its
    right. *)
Lemma createGrid_link l :
  l ∈ links g →
  ∃ r c, (r < rows)%nat ∧ (c < cols)%nat ∧ source l = gridId prefix r c
         ∧ ((target l = gridId prefix (r + 1) c ∧ (r + 1 < rows)%nat)
            ∨ (target l = gridId prefix r (c + 1) ∧ (c + 1 < cols)%nat)).
Proof.
  simpl. intros ([r c] & Hl & [Hr Hc]%gridCells_elem_of)%list_elem_of_bind.
  exists r, c. split_and!; [done..| |].
  - apply elem_of_app in Hl as [Hl|Hl]; case_match;
      try (by apply elem_of_nil in Hl);
      by apply list_elem_of_singleton in Hl as ->.
  - apply elem_of_app in Hl as [Hl|Hl]; case_match eqn:Hlt;
      try (by apply elem_of_nil in Hl);
      apply list_elem_of_singleton in Hl as ->; apply Z.ltb_lt in Hlt;
      [left|right]; (split; [done|lia]).
Qed.

Lemma createGrid_known : Forall (knownLink (node_id <$> nodes g)) (links g).
Proof.
  apply Forall_forall. intros l (r & c & Hr & Hc & Hs & Ht)%createGrid_link.
  split; rewrite ?Hs; [by apply createGrid_id_elem_of|].
  destruct Ht as [[-> Hlt]|[-> Hlt]]; by apply createGrid_id_elem_of.
Qed.

Lemma createGrid_bicoloured : Forall (bicoloured g) (links g).
Proof.
  apply Forall_forall. intros l (r & c & Hr & Hc & Hs & Ht)%createGrid_link.
  destruct Ht as [[Ht Hlt]|[Ht Hlt]].
  - exists {| node_id := gridId prefix r c;
              originalLabel := Z.of_nat (r + c) `mod` 2 + 1 |},
           {| node_id := gridId prefix (r + 1) c;
              originalLabel := Z.of_nat (r + 1 + c) `mod` 2 + 1 |}.
    split_and!; [by apply createGrid_node..|done|done|]. simpl.
    replace (Z.of_nat (r + 1 + c)) with (Z.of_nat (r + c) + 1) by lia.
    pose proof (Z.mod_pos_bound (Z.of_nat (r + c)) 2).
    pose proof (Z.mod_pos_bound (Z.of_nat (r + c) + 1) 2).
    rewrite (Z.add_mod (Z.of_nat (r + c)) 1 2) by lia.
    assert (Z.of_nat (r + c) `mod` 2 = 0 ∨ Z.of_nat (r + c) `mod` 2 = 1)
      as [->| ->] by lia; vm_compute; discriminate.
  - exists {| node_id := gridId prefix r c;
              originalLabel := Z.of_nat (r + c) `mod` 2 + 1 |},
           {| node_id := gridId prefix r (c + 1);
              originalLabel := Z.of_nat (r + (c + 1)) `mod` 2 + 1 |}.
    split_and!; [by apply createGrid_node..|done|done|]. simpl.
    replace (Z.of_nat (r + (c + 1))) with (Z.of_nat (r + c) + 1) by lia.
    pose proof (Z.mod_pos_bound (Z.of_nat (r + c)) 2).
    rewrite (Z.add_mod (Z.of_nat (r + c)) 1 2) by lia.
    assert (Z.of_nat (r + c) `mod` 2 = 0 ∨ Z.of_nat (r + c) `mod` 2 = 1)
      as [->| ->] by lia; vm_compute; discriminate.
Qed.
End createGrid_facts.

(** X26.  [createGrid rows cols] gives, for all sizes, a graph with
    [rows * cols] nodes of distinct ids whose links join nodes of the graph;
    the initial values form a checkerboard: the two ends of every link have
    different initial values. *)
Theorem createGrid_checkerboard rows cols prefix :
  length (nodes (createGrid rows cols prefix)) = (rows * cols)%nat
  ∧ wellFormed (createGrid rows cols prefix)
  ∧ Forall (bicoloured (createGrid rows cols prefix))
           (links (createGrid rows cols prefix)).
Proof.
  split_and!.
  - simpl. rewrite length_fmap. apply gridCells_length.
  - split; [apply createGrid_NoDup|apply createGrid_known].
  - apply createGrid_bicoloured.
Qed.

Lemma indexed_elem_of prefix n i :
  (i < n)%nat → indexed prefix i ∈ indexed prefix <$> seq 0 n.
Proof. intros Hi. apply list_elem_of_fmap_2, elem_of_seq. lia. Qed.

Lemma indexed_NoDup prefix n : NoDup (indexed prefix <$> seq 0 n).
Proof.
  apply NoDup_fmap_2_strong; [|apply NoDup_seq].
  intros a b _ _. apply indexed_inj.
Qed.

Lemma createLadderGraph_ids rungCount prefix circular :
  node_id <$> nodes (createLadderGraph rungCount prefix circular)
  = indexed prefix <$> seq 0 (rungCount * 2).
Proof. simpl. by rewrite <-list_fmap_compose. Qed.

Lemma createLadderGraph_wellFormed rungCount prefix circular :
  wellFormed (createLadderGraph rungCount prefix circular).
Proof.
  split; rewrite createLadderGraph_ids; [apply indexed_NoDup|].
  simpl. apply Forall_forall.
  intros l (i & Hl & Hi%elem_of_seq)%list_elem_of_bind.
  apply elem_of_app in Hl as [Hl|Hl].
  - destruct (Z.of_nat i <? Z.of_nat rungCount - 1) eqn:Hlt.
    + apply Z.ltb_lt in Hlt.
      apply elem_of_cons in Hl as [->|Hl%list_elem_of_singleton];
        [|subst l]; split; simpl; apply indexed_elem_of; lia.
    + destruct circular; [|by apply elem_of_nil in Hl].
      apply elem_of_cons in Hl as [->|Hl%list_elem_of_singleton];
        [|subst l]; split; simpl; apply indexed_elem_of; lia.
  - apply list_elem_of_singleton in Hl as ->.
    split; simpl; apply indexed_elem_of; lia.
Qed.

Lemma createPetersenGraph_ids prefix :
  node_id <$> nodes (createPetersenGraph prefix)
  = indexed prefix <$> seq 0 10.
Proof. done. Qed.

Lemma createPetersenGraph_wellFormed prefix :
  wellFormed (createPetersenGraph prefix).
Proof.
  split; rewrite createPetersenGraph_ids; [apply indexed_NoDup|].
  cbn [links createPetersenGraph]. rewrite !Forall_app.
  split_and!; apply Forall_fmap, Forall_forall; intros i Hi%elem_of_seq;
    split; cbn [source target]; apply indexed_elem_of;
    try lia;
    pose proof (Nat.mod_upper_bound (i + 1) 5);
    pose proof (Nat.mod_upper_bound (i + 2) 5); lia.
Qed.

(** X27.  [createLadderGraph] and [createPetersenGraph] give, for
    all their arguments, graphs with distinct node ids whose links join
    nodes of the graph; the ladder has [2 * rungCount] nodes and the
    Petersen graph 10 nodes and 15 links. *)
Theorem ladder_and_petersen_wellFormed rungCount prefix circular :
  wellFormed (createLadderGraph rungCount prefix circular)
  ∧ length (nodes (createLadderGraph rungCount prefix circular))
    = (rungCount * 2)%nat
  ∧ wellFormed (createPetersenGraph prefix)
  ∧ length (nodes (createPetersenGraph prefix)) = 10%nat
  ∧ length (links (createPetersenGraph prefix)) = 15%nat.
Proof.
  split_and!.
  - apply createLadderGraph_wellFormed.
  - simpl. by rewrite length_fmap, length_seq.
  - apply createPetersenGraph_wellFormed.
  - done.
  - done.
Qed.

(** ** The verdicts of the scenarios *)

(** X28.  The verdicts that the page shows in each scenario,
    whatever [Math.random] returns: [true] at every step in the five
    scenarios built with [createPermutedCopy], in CYCLES and in
    NON_ISOMORPHIC_REGULAR; [false] at every step in NON_ISOMORPHIC_SIMPLE;
    [true] at step 0 and [false] from step 1 on in NON_ISOMORPHIC_DEGREE
    and in GRID_VS_RANDOM. *)
Theorem scenario_verdicts draw order type :
  (∀ i, (draw i ≤ i)%nat) → (∀ l, order l ≡ₚ l) →
  let sc := getScenario draw order type in
  isIsomorphicCandidate
    <$> steps (runWLAlgorithm (graphA sc) (graphB sc) MAX_K)
  = scenarioVerdicts type.
Proof.
  intros Hdraw Horder sc.
  assert (type ∈ permutedScenarios →
          isIsomorphicCandidate
            <$> steps (runWLAlgorithm (graphA sc) (graphB sc) MAX_K)
          = replicate 6 true) as Hperm.
  { intros Hin. symmetry. apply replicate_as_Forall_2.
    - rewrite length_fmap. apply horizon_steps_aux.
    - destruct (permutedScenarios_copy draw order type Hin)
        as (Hwf & prefix & Heq).
      unfold sc. rewrite Heq. apply Forall_fmap.
      eapply Forall_impl; [by apply copy_agreeing|].
      intros s [Hs _]. unfold compose. by symmetry. }
  unfold permutedScenarios in Hperm.
  destruct type;
    [apply Hperm; repeat first [apply list_elem_of_here
                               |apply list_elem_of_further]..
    |clear Hperm; vm_compute; reflexivity
    |clear Hperm; vm_compute; reflexivity
    |clear Hperm; vm_compute; reflexivity
    |clear Hperm; vm_compute; reflexivity
    |clear Hperm; vm_compute; reflexivity].
Qed.

Lemma chorded_circle_no_triangle draw order b0 b1 b2 :
  let gB := graphB (getScenario draw order NON_ISOMORPHIC_REGULAR) in
  b0 ∈ node_id <$> nodes gB → b1 ∈ node_id <$> nodes gB →
  b2 ∈ node_id <$> nodes gB →
  ¬ (adjacent gB b0 b1 ∧ adjacent gB b1 b2 ∧ adjacent gB b0 b2).
Proof.
  intros gB.
  assert (Forall (λ b0, Forall (λ b1, Forall (λ b2,
            ¬ (adjacent gB b0 b1 ∧ adjacent gB b1 b2 ∧ adjacent gB b0 b2))
          (node_id <$> nodes gB)) (node_id <$> nodes gB))
          (node_id <$> nodes gB)) as Hall.
  { apply (bool_decide_unpack _). vm_compute. exact I. }
  intros H0 H1 H2. rewrite Forall_forall in Hall.
  specialize (Hall b0 H0). rewrite Forall_forall in Hall.
  specialize (Hall b1 H1). rewrite Forall_forall in Hall. by apply Hall.
Qed.

(** X29.  The two graphs of the scenario NON_ISOMORPHIC_REGULAR
    (two triangles joined by a bridge, and a 6-cycle with a chord) are not
    isomorphic, the first has a triangle and the second has none; yet the run
    that the page makes does not reject them: at every step from 0 to
    [MAX_K] the verdict is [true] and there are two labels. *)
Theorem dumbbell_scenario_not_rejected draw order :
  let sc := getScenario draw order NON_ISOMORPHIC_REGULAR in
  ¬ isomorphic (graphA sc) (graphB sc)
  ∧ (λ s, (isIsomorphicCandidate s, length (mappings s)))
      <$> steps (runWLAlgorithm (graphA sc) (graphB sc) MAX_K)
    = replicate 6 (true, 2%nat).
Proof.
  intros sc. split; [|vm_compute; reflexivity].
  intros (f & Hinto & _ & _ & _ & Hadj).
  assert (∀ a, bool_decide (a ∈ node_id <$> nodes (graphA sc)) = true →
            a ∈ node_id <$> nodes (graphA sc)) as Hin
    by (intros a; apply bool_decide_eq_true).
  assert ("A0" ∈ node_id <$> nodes (graphA sc)) as H0 by by apply Hin.
  assert ("A1" ∈ node_id <$> nodes (graphA sc)) as H1 by by apply Hin.
  assert ("A2" ∈ node_id <$> nodes (graphA sc)) as H2 by by apply Hin.
  apply (chorded_circle_no_triangle draw order (f "A0") (f "A1") (f "A2"));
    [by apply Hinto..|].
  split_and!; apply Hadj; try done;
    apply (bool_decide_unpack _); vm_compute; exact I.
Qed.


Lemma scenario_verdicts_witness :
  (∀ i, (Nat.div2 i ≤ i)%nat) ∧ (∀ l : list Node, reverse l ≡ₚ l)
  ∧ (let sc := getScenario Nat.div2 reverse GRID_VS_RANDOM in
     isIsomorphicCandidate
       <$> steps (runWLAlgorithm (graphA sc) (graphB sc) MAX_K)
     = [true; false; false; false; false; false]).
Proof.
  split_and!; [exact div2_le|exact reverse_order|].
  exact (scenario_verdicts Nat.div2 reverse GRID_VS_RANDOM
           div2_le reverse_order).
Defined.

(** ** The cosine of graphs that are not told apart *)





